(** * Citrination tutorial notebooks: the local logic, embedded and verified

    The notebooks are thin scripts over a hosted service.  What they compute
    locally is embedded here, function by function, with Python's data as the
    interpreter has it: [str] as [string], [float] as an IEEE-754 binary64
    value ([spec_float] with [prec = 53], [emax = 1024]), exceptions as an
    error monad, dictionaries as [gmap]. *)

From Stdlib Require Import ZArith Lia Bool List Ascii String.
From Stdlib Require Import Floats.SpecFloat.
From stdpp Require Import base option list gmap strings.

Local Open Scope Z_scope.

(** ** Python numbers *)

Module Py.

(** binary64 *)
Definition prec : Z := 53.
Definition emax : Z := 1024.

Abbreviation float := spec_float.

Definition fadd : float -> float -> float := SFadd prec emax.
Definition fsub : float -> float -> float := SFsub prec emax.
Definition fmul : float -> float -> float := SFmul prec emax.
Definition fdiv : float -> float -> float := SFdiv prec emax.

Definition pos_zero : float := S754_zero false.

(** [x == 0], [x >= 0] and [x > 0] on floats; all three are false on NaN. *)
Definition feq0 (x : float) : bool := SFeqb x pos_zero.
Definition fge0 (x : float) : bool := SFleb pos_zero x.
Definition fgt0 (x : float) : bool := SFltb pos_zero x.

Definition is_nan (x : float) : bool :=
  match x with S754_nan => true | _ => false end.

(** Conversion of an integer to the nearest binary64 (ties to even), as
    [float(n)] and the implicit conversion of mixed arithmetic do it.  Beyond
    the binary64 range the result here is an infinity, where CPython raises
    [OverflowError]; the integers of these notebooks are 0, 1, 2 and 100. *)
Definition float_of_Z (z : Z) : float := binary_normalize prec emax z 0 false.

(** The smallest exponent of a binary64 mantissa, -1074. *)
Definition emin64 : Z := emin prec emax.

Definition is_zero (f : float) : bool :=
  match f with S754_zero _ => true | _ => false end.

(** What rounding a non-negative mantissa under the sign [sx] can give: a
    zero, an infinity or a finite value of that sign, never a NaN. *)
Definition rounded (sx : bool) (f : float) : Prop :=
  match f with
  | S754_zero s => s = sx
  | S754_infinity s => s = sx
  | S754_nan => False
  | S754_finite s m e => s = sx /\ emin64 <= e
  end.

(** The non-negative binary64 values: a zero of either sign, plus infinity,
    or a positive finite value. *)
Definition nonneg (f : float) : Prop :=
  match f with
  | S754_zero _ => True
  | S754_infinity s => s = false
  | S754_nan => False
  | S754_finite s _ e => s = false /\ emin64 <= e
  end.

(** A Python number is an [int] or a [float]. *)
Inductive num :=
| Int (z : Z)
| Float (f : float).

Definition to_float (n : num) : float :=
  match n with
  | Int z => float_of_Z z
  | Float f => f
  end.

Definition num_nonneg (a : num) : Prop :=
  match a with
  | Int z => 0 <= z
  | Float f => nonneg f
  end.

(** The key of a failed lookup: a name or a row label. *)
Inductive key :=
| Name (s : string)
| Label (i : nat).

(** Exceptions the embedded code can raise. *)
Inductive exn :=
| ZeroDivisionError
| KeyError (k : key)
| IndexError
| TypeError
| AttributeError.

Inductive result (A : Type) :=
| Ok (a : A)
| Raise (e : exn).
Arguments Ok {A} a.
Arguments Raise {A} e.

#[global] Instance result_ret : MRet result := fun _ a => Ok a.
#[global] Instance result_bind : MBind result := fun _ _ k r =>
  match r with
  | Ok a => k a
  | Raise e => Raise e
  end.

Definition add (a b : num) : num :=
  match a, b with
  | Int x, Int y => Int (x + y)
  | _, _ => Float (fadd (to_float a) (to_float b))
  end.

Definition sub (a b : num) : num :=
  match a, b with
  | Int x, Int y => Int (x - y)
  | _, _ => Float (fsub (to_float a) (to_float b))
  end.

Definition mul (a b : num) : num :=
  match a, b with
  | Int x, Int y => Int (x * y)
  | _, _ => Float (fmul (to_float a) (to_float b))
  end.

(** [a == 0] *)
Definition eq0 (a : num) : bool :=
  match a with
  | Int z => z =? 0
  | Float f => feq0 f
  end.

(** [a >= 0] *)
Definition ge0 (a : num) : bool :=
  match a with
  | Int z => 0 <=? z
  | Float f => fge0 f
  end.

(** [a > 0] *)
Definition gt0 (a : num) : bool :=
  match a with
  | Int z => 0 <? z
  | Float f => fgt0 f
  end.

(** True division [a / b]: [ZeroDivisionError] on a zero divisor of either
    type, a float otherwise.  The quotient of two ints is the correctly
    rounded quotient, computed from the operands' conversions (exact for ints
    below 2^53, the only ones divided here). *)
Definition truediv (a b : num) : result num :=
  if eq0 b then Raise ZeroDivisionError
  else Ok (Float (fdiv (to_float a) (to_float b))).

Definition is_infinite (x : float) : bool :=
  match x with S754_infinity _ => true | _ => false end.

(** [-x] *)
Definition fneg : float -> float := SFopp.

(** [math.sqrt], correctly rounded *)
Definition fsqrt : float -> float := SFsqrt prec emax.

Definition is_finite (x : float) : bool :=
  match x with S754_zero _ | S754_finite _ _ _ => true | _ => false end.

(** [a / b] on two floats: [ZeroDivisionError] on a zero divisor. *)
Definition float_truediv (a b : float) : result float :=
  if feq0 b then Raise ZeroDivisionError else Ok (fdiv a b).

(** *** Rounding to binary64, in integers

    What the operations of [SpecFloat] compute, written on integers: the
    proofs show each operation equal to [Round] at its exact value, and
    [Round] monotone in that value. *)

(** Where a remainder [r] of a division by [d] lies in its unit: at its
    start, or below, at or above the middle. *)
Definition locate (r d : Z) : location :=
  if r =? 0 then loc_Exact else loc_Inexact (2 * r ?= d).

(** [n / d] rounded to the nearest integer, ties to the even one. *)
Definition rnd (n d : Z) : Z :=
  let m := n / d in
  let r := n mod d in
  if (d <? 2 * r) || ((2 * r =? d) && Z.odd m) then m + 1 else m.

(** The float of sign [sx] with the mantissa [m] at the exponent [e]. *)
Definition mk (sx : bool) (m e : Z) : float :=
  match m with
  | Z0 => S754_zero sx
  | Zpos p => if e <=? emax - prec then S754_finite sx p e else S754_infinity sx
  | Zneg _ => S754_nan
  end.

(** A rounded mantissa that reached 2^53 moves to the next exponent. *)
Definition finish (sx : bool) (m c : Z) : float :=
  if m =? 2 ^ prec then mk sx (2 ^ (prec - 1)) (c + 1) else mk sx m c.

(** The binary64 value nearest to [n / d * 2^e0], with the sign [sx]. *)
Definition Round (sx : bool) (n d e0 : Z) : float :=
  let c := fexp prec emax (Zdigits2 (n / d) + e0) in
  finish sx (rnd n (d * 2 ^ (c - e0))) c.

(** The same for a signed numerator; an exact zero is +0.0. *)
Definition Rs (d e0 z : Z) : float :=
  match z with
  | Z0 => S754_zero false
  | Zpos n => Round false (Zpos n) d e0
  | Zneg n => Round true (Zpos n) d e0
  end.

(** The value of a finite float in units of [2^e0]. *)
Definition Zval (e0 : Z) (f : float) : Z :=
  match f with
  | S754_finite s m e => cond_Zopp s (Zpos m * 2 ^ (e - e0))
  | _ => 0
  end.

(** The quotient [n / d] has the integer part [m] and the location [l]. *)
Definition located (n d m : Z) (l : location) : Prop :=
  0 < d /\ 0 <= n /\ m = n / d /\ l = locate (n mod d) d.

(** Equal up to the sign of a zero. *)
Definition same (a b : float) : Prop :=
  a = b \/ (is_zero a = true /\ is_zero b = true).

(** A float64 that is a number: a zero or a finite value of the format. *)
Definition finite_valid (f : float) : Prop :=
  valid_binary prec emax f = true /\ is_finite f = true.

(** A unit below every quotient of two finite float64 values. *)
Definition div_e0 : Z := emin64 - emax.

End Py.

(** ** Strings *)

Module Str.

(** The line feed, backslash-n in the Python sources. *)
Definition LF : ascii := ascii_of_nat 10.
Definition nl : string := String LF "".

(** [s[:k]] and [s[k:]] *)
Fixpoint take (k : nat) (s : string) : string :=
  match k, s with
  | S k', String c s' => String c (take k' s')
  | _, _ => ""
  end.

Fixpoint drop (k : nat) (s : string) : string :=
  match k, s with
  | S k', String _ s' => drop k' s'
  | _, _ => s
  end.

(** [s[len(p):]] when [s.startswith(p)] *)
Fixpoint strip_prefix (p s : string) : option string :=
  match p, s with
  | EmptyString, _ => Some s
  | String a p', String b s' => if Ascii.eqb a b then strip_prefix p' s' else None
  | String _ _, EmptyString => None
  end.

(** Number of leading characters of [s] in the class [cls]. *)
Fixpoint run_length (cls : ascii -> bool) (s : string) : nat :=
  match s with
  | String c s' => if cls c then S (run_length cls s') else O
  | EmptyString => O
  end.

(** [s] is not empty and its first character is in [cls]. *)
Definition starts_in (cls : ascii -> bool) (s : string) : bool :=
  match s with String c _ => cls c | EmptyString => false end.

Fixpoint all (cls : ascii -> bool) (s : string) : bool :=
  match s with
  | String c s' => cls c && all cls s'
  | EmptyString => true
  end.

(** The character class [[0-9]]. *)
Definition is_digit (c : ascii) : bool :=
  let n := nat_of_ascii c in (48 <=? n)%nat && (n <=? 57)%nat.

Definition digit_value (c : ascii) : Z := Z.of_nat (nat_of_ascii c) - 48.

(** Value of a string of decimal digits, most significant first. *)
Fixpoint decimal_from (acc : Z) (s : string) : Z :=
  match s with
  | String c s' => decimal_from (10 * acc + digit_value c) s'
  | EmptyString => acc
  end.

Definition decimal (s : string) : Z := decimal_from 0 s.

(** The lines of a text: the pieces between line feeds; a text that ends in a
    line feed has no extra empty last line. *)
Fixpoint lines_from (cur : string) (s : string) : list string :=
  match s with
  | EmptyString => match cur with EmptyString => [] | _ => [cur] end
  | String c s' =>
      if Ascii.eqb c LF then cur :: lines_from "" s'
      else lines_from (cur +:+ String c "") s'
  end.

Definition lines (s : string) : list string := lines_from "" s.

Definition no_newline (s : string) : bool := all (fun c => negb (Ascii.eqb c LF)) s.

(** [s.split(sep)] for a separator of one character: the pieces between
    the separators, with at least one piece. *)
Fixpoint split_from (sep : ascii) (cur : string) (s : string) : list string :=
  match s with
  | EmptyString => [cur]
  | String c s' =>
      if Ascii.eqb c sep then cur :: split_from sep "" s'
      else split_from sep (cur +:+ String c "") s'
  end.

Definition split (sep : ascii) (s : string) : list string := split_from sep "" s.

(** The text of [s] before its first [sep], all of [s] when there is none. *)
Fixpoint before (sep : ascii) (s : string) : string :=
  match s with
  | EmptyString => ""
  | String c s' => if Ascii.eqb c sep then "" else String c (before sep s')
  end.

End Str.

(** ** Regular expressions: the fragment of [re] the notebooks use *)

Module Re.

(** A pattern is a sequence of literal pieces and of capturing groups that
    hold a starred character class. *)
Inductive item :=
| Lit (s : string)
| GroupStar (cls : ascii -> bool).

Definition pattern := list item.

(** A greedy star backtracks: it first takes the longest run, then gives
    characters back one at a time until the rest of the pattern matches. *)
Fixpoint backtrack (rest : string -> option (list string)) (s : string) (k : nat)
  : option (list string) :=
  match rest (Str.drop k s) with
  | Some groups => Some (Str.take k s :: groups)
  | None =>
      match k with
      | O => None
      | S k' => backtrack rest s k'
      end
  end.

(** Match [p] at the start of [s]; the result lists the captured groups. *)
Fixpoint match_here (p : pattern) (s : string) : option (list string) :=
  match p with
  | [] => Some []
  | Lit l :: p' =>
      match Str.strip_prefix l s with
      | Some s' => match_here p' s'
      | None => None
      end
  | GroupStar cls :: p' => backtrack (match_here p') s (Str.run_length cls s)
  end.

(** [re.match(p, s)]: [None], or the match object, here its groups. *)
Definition re_match (p : pattern) (s : string) : option (list string) := match_here p s.

(** [m.group(i)] for [i >= 1]. *)
Definition group (m : list string) (i : nat) : string := nth (i - 1) m "".

End Re.

(** ** tutorial_sequence/2_WorkingWithPIFs.ipynb *)

Module WorkingWithPIFs.
Import Py.

(** [float(s)] for a non-empty string of digits: the binary64 nearest to the
    number the digits spell. *)
Definition float_of_digits (s : string) : float := float_of_Z (Str.decimal s).

(** The pattern of [get_stoich]: Al, a group of digits, Cu, a group of
    digits; both groups are starred classes 0-9. *)
Definition AlCu_re : Re.pattern :=
  [Re.Lit "Al"; Re.GroupStar Str.is_digit; Re.Lit "Cu"; Re.GroupStar Str.is_digit].

Definition get_stoich (AlCu_formula : string) : num * num :=
  match Re.re_match AlCu_re AlCu_formula with
  | None => (Int 0, Int 0)
  | Some m =>
      let n_Al := if (0 <? String.length (Re.group m 1))%nat
                  then Float (float_of_digits (Re.group m 1)) else Int 1 in
      let n_Cu := if (0 <? String.length (Re.group m 2))%nat
                  then Float (float_of_digits (Re.group m 2)) else Int 1 in
      (n_Al, n_Cu)
  end.

(** The energies are floats (electron volts read from the VASP output); the
    two counts are what [get_stoich] returns. *)
Definition enthalpy_of_formation (energy : float) (n_Al n_Cu : num)
  (energy_Al energy_Cu : float) : result num :=
  truediv
    (sub (sub (Float energy) (mul n_Al (Float energy_Al))) (mul n_Cu (Float energy_Cu)))
    (add n_Al n_Cu).

(** What the loop reads of a PIF through its [ReadView]: the chemical
    formula and the value of the first scalar of the total energy. *)
Record pif := {
  chemical_formula : string;
  total_energy : float
}.

(** One pass through the body of [for pif in AlCu_pifs]: [None] is the
    [continue], [Some p] the point appended. *)
Definition phase_point (energy_Al energy_Cu : float) (p : pif) : result (option (num * num)) :=
  let energy := total_energy p in
  let '(n_Al, n_Cu) := get_stoich (chemical_formula p) in
  if eq0 n_Al && eq0 n_Cu then Ok None
  else
    x ← truediv n_Cu (add n_Cu n_Al);
    h ← enthalpy_of_formation energy n_Al n_Cu energy_Al energy_Cu;
    Ok (Some (x, h)).

Fixpoint phase_loop (energy_Al energy_Cu : float) (AlCu_pifs : list pif)
  (points : list (num * num)) : result (list (num * num)) :=
  match AlCu_pifs with
  | [] => Ok points
  | p :: rest =>
      r ← phase_point energy_Al energy_Cu p;
      phase_loop energy_Al energy_Cu rest
        (match r with Some pt => points ++ [pt] | None => points end)
  end.

Definition phase_diagram (energy_Al energy_Cu : float) (AlCu_pifs : list pif)
  : result (list (num * num)) :=
  phase_loop energy_Al energy_Cu AlCu_pifs
    [(Float pos_zero, Float pos_zero); (Float (float_of_Z 1), Float pos_zero)].

(** A digit group read as a number: 1 when it is empty, else the float of
    the number it spells. *)
Definition stoich_count (digits : string) : num :=
  match digits with
  | EmptyString => Int 1
  | _ => Float (float_of_Z (Str.decimal digits))
  end.

Definition starts_with_digit (s : string) : bool := Str.starts_in Str.is_digit s.

(** What [get_stoich] is to return, as the specification says it: on a
    string that begins with Al, digits, Cu, digits (each group as long as it
    can be) the two groups as numbers, on any other string (0, 0). *)
Inductive stoich_spec : string -> num * num -> Prop :=
| stoich_match d1 d2 rest :
    Str.all Str.is_digit d1 = true ->
    Str.all Str.is_digit d2 = true ->
    starts_with_digit rest = false ->
    stoich_spec ("Al" +:+ d1 +:+ "Cu" +:+ d2 +:+ rest) (stoich_count d1, stoich_count d2)
| stoich_no_match s :
    (forall d1 rest, Str.all Str.is_digit d1 = true -> s <> "Al" +:+ d1 +:+ "Cu" +:+ rest) ->
    stoich_spec s (Int 0, Int 0).

(** The test of the [continue] of the loop, on the formula of a PIF. *)
Definition skipped (p : pif) : bool :=
  eq0 (get_stoich (chemical_formula p)).1 && eq0 (get_stoich (chemical_formula p)).2.

(** The two end points the list of points starts with. *)
Definition end_points : list (num * num) :=
  [(Float pos_zero, Float pos_zero); (Float (float_of_Z 1), Float pos_zero)].

(** What [ReadView(pif)] answers to the two reads of the loop body,
    [rv["Total Energy"].scalars[0].value] and [rv.chemical_formula]: each
    is a value or the exception the read raises (a [KeyError] when the PIF
    has no property of that name, an [IndexError] when the property has no
    scalar, ...). *)
Record view := {
  read_total_energy : result float;
  read_chemical_formula : result string
}.

(** The two reads, in the order of the loop body. *)
Definition read (rv : view) : result pif :=
  energy ← read_total_energy rv;
  formula ← read_chemical_formula rv;
  Ok {| chemical_formula := formula; total_energy := energy |}.

(** The loop [for pif in AlCu_pifs] with its reads: a read that fails ends
    the loop with its exception. *)
Fixpoint read_loop (energy_Al energy_Cu : float) (AlCu_pifs : list view)
  (points : list (num * num)) : result (list (num * num)) :=
  match AlCu_pifs with
  | [] => Ok points
  | rv :: rest =>
      p ← read rv;
      r ← phase_point energy_Al energy_Cu p;
      read_loop energy_Al energy_Cu rest
        (match r with Some pt => points ++ [pt] | None => points end)
  end.

Definition read_phase_diagram (energy_Al energy_Cu : float) (AlCu_pifs : list view)
  : result (list (num * num)) :=
  read_loop energy_Al energy_Cu AlCu_pifs end_points.

(** A PIF of pure aluminium. *)
Definition Al4_pif : pif :=
  {| chemical_formula := "Al4"; total_energy := fneg (float_of_Z 15) |}.

(** The PIF of an intermetallic, and three views: of the two PIFs, and of
    one without a total energy. *)
Definition Al2Cu_pif : pif :=
  {| chemical_formula := "Al2Cu"; total_energy := fneg (float_of_Z 12) |}.

Definition view_of (p : pif) : view :=
  {| read_total_energy := Ok (total_energy p);
     read_chemical_formula := Ok (chemical_formula p) |}.

Definition no_energy_view : view :=
  {| read_total_energy := Raise (KeyError (Name "Total Energy"));
     read_chemical_formula := Ok "AlCu" |}.

End WorkingWithPIFs.

(** ** tutorial_sequence/2_WorkingWithPIFs.ipynb: the low level API *)

Module PifProperties.
Import Py.

(** A scalar and a property of a PIF, with the fields the notebook reads. *)
Record scalar := { value : float }.

Record property := {
  name : string;
  scalars : list scalar;
  units : option string
}.

Inductive error := StopIteration | IndexError.

(** [next(x for x in properties if x.name == wanted)] *)
Fixpoint next_named (wanted : string) (properties : list property) : error + property :=
  match properties with
  | [] => inl StopIteration
  | x :: rest => if String.eqb (name x) wanted then inr x else next_named wanted rest
  end.

(** [next(x for x in pif.properties if x.name == "Total Energy").scalars[0].value] *)
Definition total_energy_value (properties : list property) : error + float :=
  match next_named "Total Energy" properties with
  | inl e => inl e
  | inr x =>
      match scalars x with
      | [] => inl IndexError
      | s :: _ => inr (value s)
      end
  end.

(** A property list with the total energy twice: first without a scalar,
    then with one. *)
Definition shadowed_energy : list property :=
  [ {| name := "Band Gap"; scalars := [ {| value := float_of_Z 1 |} ]; units := Some "eV" |};
    {| name := "Total Energy"; scalars := []; units := Some "eV" |};
    {| name := "Total Energy"; scalars := [ {| value := float_of_Z 2 |} ]; units := Some "eV" |} ].

End PifProperties.

(** ** clients_sequence/5_sequential_learning_api_tutorial.ipynb: the toy
    laboratory *)

Module ToyFunction.
Import Py.

(** What [np.square] and [np.sum] see of [inputs]: an array of 64-bit
    integers (a list of ints converts to one where numpy's default integer
    has 64 bits) or an array of binary64 floats (a list with a float in it,
    the empty list, a row of the random inputs of the notebook). *)
Inductive ndarray :=
| Int64 (a : list Z)
| Float64 (a : list float).

(** The values of an int64, and its arithmetic, which wraps around. *)
Definition in_int64 (z : Z) : Prop := - 2 ^ 63 <= z < 2 ^ 63.

Definition int64_wrap (z : Z) : Z := (z + 2 ^ 63) mod 2 ^ 64 - 2 ^ 63.

Definition neg_zero : float := S754_zero true.

(** numpy's pairwise summation of float64.  Fewer than eight items are
    added one after the other, starting from -0.0; up to 128 items are added
    into eight running sums, [r[j] += a[i + j]], which are then added in
    pairs, and the items after the last full block of eight are added one
    after the other; a longer array is cut in two near its middle, at a
    multiple of eight, and the sums of the two parts are added. *)
Definition add_all (res : float) (a : list float) : float := fold_left fadd a res.

Fixpoint accumulate (r a : list float) (blocks : nat) : list float :=
  match blocks with
  | O => r
  | S blocks' => accumulate (zip_with fadd r (take 8 a)) (drop 8 a) blocks'
  end.

Definition add_pairs (r : list float) : float :=
  match r with
  | [r0; r1; r2; r3; r4; r5; r6; r7] =>
      fadd (fadd (fadd r0 r1) (fadd r2 r3)) (fadd (fadd r4 r5) (fadd r6 r7))
  | _ => S754_nan
  end.

Definition block_sum (a : list float) : float :=
  let n := length a in
  let res := add_pairs (accumulate (take 8 a) (drop 8 a) (n / 8 - 1)) in
  add_all res (drop (n - n mod 8) a).

(** [depth] bounds the number of cuts; the length of the array is enough. *)
Fixpoint pairwise_sum (depth : nat) (a : list float) : float :=
  let n := length a in
  if (n <? 8)%nat then add_all neg_zero a
  else if (n <=? 128)%nat then block_sum a
  else
    match depth with
    | O => block_sum a
    | S depth' =>
        let n2 := (n / 2 - (n / 2) mod 8)%nat in
        fadd (pairwise_sum depth' (take n2 a)) (pairwise_sum depth' (drop n2 a))
    end.

(** The reduction [np.add.reduce] starts from 0.0. *)
Definition float64_sum (a : list float) : float :=
  fadd pos_zero (pairwise_sum (length a) a).

Definition np_square (a : ndarray) : ndarray :=
  match a with
  | Int64 a => Int64 (map (fun x => int64_wrap (x * x)) a)
  | Float64 a => Float64 (map (fun x => fmul x x) a)
  end.

Definition np_sum (a : ndarray) : num :=
  match a with
  | Int64 a => Int (fold_left (fun res x => int64_wrap (res + x)) a 0)
  | Float64 a => Float (float64_sum a)
  end.

Definition toy_func (inputs : ndarray) : num := np_sum (np_square inputs).

(** [sums a r]: [r] is the result of adding the items of [a], and zeros, in
    some order and grouping. *)
Inductive sums : list float -> float -> Prop :=
| sums_zero z : is_zero z = true -> sums [] z
| sums_item x : sums [x] x
| sums_add a b x y : sums a x -> sums b y -> sums (a ++ b) (fadd x y)
| sums_perm a b x : Permutation a b -> sums a x -> sums b x.

(** The exact sum of the squares of integers. *)
Definition sum_squares (a : list Z) : Z := fold_right (fun x s => x * x + s) 0 a.

(** 2^-600, a binary64 whose square is below the smallest subnormal. *)
Definition tiny : float := S754_finite false 4503599627370496 (-652).

(** 3.0 and 4.0 *)
Definition three : float := float_of_Z 3.
Definition four : float := float_of_Z 4.

End ToyFunction.

(** ** clients_sequence/5_sequential_learning_api_tutorial.ipynb: the names
    of the dataset file, the dataset and the view *)

Module DatasetNames.

(** ['toy_initial_dataset_{}.json'.format(random_string)] *)
Definition output_file (random_string : string) : string :=
  "toy_initial_dataset_" +:+ random_string +:+ ".json".

(** [output_file.split('.')[0]] *)
Definition dataset_name (random_string : string) : string :=
  default "" (head (Str.split "." (output_file random_string))).

End DatasetNames.

(** ** ExperimentalDesign.ipynb: the CSV template *)

Module ExperimentalDesign.
Import Py.

(** A search hit's [extracted] dictionary; the values are strings. *)
Abbreviation row := (gmap string string).

(** Files on disk: path to contents. *)
Abbreviation files := (gmap string string).

(** [row[k]] *)
Definition getitem (r : row) (k : string) : result string :=
  match r !! k with
  | Some v => Ok v
  | None => Raise (KeyError (Name k))
  end.

(** ["{formula:s}, {ZT:s}\n".format( **row )]: the fields are looked up from
    left to right. *)
Definition format_row (r : row) : result string :=
  formula ← getitem r "formula";
  ZT ← getitem r "ZT";
  Ok (formula +:+ ", " +:+ ZT +:+ Str.nl).

(** The [for row in rows] loop on the open file; [f] is what has been written
    so far.  An exception leaves the loop with the file as it is. *)
Fixpoint write_rows (rows : list row) (f : string) : string * result () :=
  match rows with
  | [] => (f, Ok ())
  | r :: rows' =>
      match format_row r with
      | Ok line => write_rows rows' (f +:+ line)
      | Raise e => (f, Raise e)
      end
  end.

Definition header : string := "FORMULA, PROPERTY: ZT ".

(** Opening with mode w creates or truncates the file; leaving the [with]
    block closes it, also on an exception. *)
Definition write_csv (name : string) (rows : list row) (fs : files) : files * result () :=
  let '(f, r) := write_rows rows (header +:+ Str.nl) in
  (<[name := f]> fs, r).

(** The text of the line of a row, without its line feed. *)
Definition row_line (r : row) : string :=
  default "" (r !! "formula") +:+ ", " +:+ default "" (r !! "ZT").

Definition string_fields (r : row) : Prop :=
  is_Some (r !! "formula") /\ is_Some (r !! "ZT").

Definition single_line_fields (r : row) : Prop :=
  exists formula ZT,
    r !! "formula" = Some formula /\ r !! "ZT" = Some ZT /\
    Str.no_newline formula = true /\ Str.no_newline ZT = true.

(** A row whose formula spans two lines. *)
Definition two_line_row : row :=
  {[ "formula" := "Bi2" +:+ Str.nl +:+ "Te3"; "ZT" := "1.1" ]}.

Definition sample_rows : list row :=
  [ {[ "formula" := "Bi2Te3"; "ZT" := "1.1" ]};
    {[ "formula" := "PbTe"; "ZT" := "0.8" ]} ].

(** [for x in unknown_subset: del x['ZT']].  The dictionaries are changed in
    place, so an exception leaves the rows before it without their ZT. *)
Fixpoint del_ZT (unknown_subset : list row) : list row * result () :=
  match unknown_subset with
  | [] => ([], Ok ())
  | x :: rest =>
      match x !! "ZT" with
      | None => (x :: rest, Raise (KeyError (Name "ZT")))
      | Some _ =>
          let '(rest', r) := del_ZT rest in
          (delete "ZT" x :: rest', r)
      end
  end.

(** The cell that splits the shuffled hits: [full_data[:20]] is kept, the
    rows of [full_data[20:]] lose their ZT.  The result holds
    [known_subset] and [unknown_subset] as they are after the cell. *)
Definition split_subsets (full_data : list row) : (list row * list row) * result () :=
  let known_subset := take 20 full_data in
  let '(unknown_subset, r) := del_ZT (drop 20 full_data) in
  ((known_subset, unknown_subset), r).

(** Twenty-two hits. *)
Definition sample_hits : list row :=
  replicate 20 ({[ "formula" := "Bi2Te3"; "ZT" := "1.1" ]} : row)
  ++ [ {[ "formula" := "PbTe"; "ZT" := "0.8" ]}; {[ "formula" := "SnSe"; "ZT" := "2.6" ]} ].

(** A row without its ZT. *)
Definition unmeasured_row : row := {[ "formula" := "SnSe" ]}.

(** *** The likelihood of improvement *)

(** 0.5, 1.0 and sqrt(2.0) *)
Definition half : float := S754_finite false 4503599627370496 (-53).
Definition one : float := float_of_Z 1.
Definition sqrt2 : float := fsqrt (float_of_Z 2).

Section Improvement.
(** [scipy.special.erf] on a float64; its code is not part of the
    repository. *)
Variable erf : float -> float.

Definition probability_improvement (mean sigma baseline : float) : result float :=
  x ← float_truediv (fsub mean baseline) (fmul sigma sqrt2);
  Ok (fmul half (fadd one (erf x))).

(** What C10 says of the value 0.5: it is returned only when the mean is
    the baseline. *)
Definition half_only_at_baseline : Prop :=
  forall mean sigma baseline,
    valid_binary prec emax mean = true -> valid_binary prec emax sigma = true ->
    valid_binary prec emax baseline = true ->
    is_finite mean = true -> is_finite sigma = true -> is_finite baseline = true ->
    fgt0 sigma = true ->
    probability_improvement mean sigma baseline = Ok half ->
    SFeqb mean baseline = true.

End Improvement.

(** What is assumed of scipy's erf on the float64 values: it keeps the
    zeros, returns a float64 between -1 and 1, and does not decrease. *)
Record erf_like (erf : float -> float) : Prop := {
  erf_zero : forall s, erf (S754_zero s) = S754_zero s;
  erf_valid : forall x, valid_binary prec emax x = true -> is_nan x = false ->
    valid_binary prec emax (erf x) = true;
  erf_range : forall x, valid_binary prec emax x = true -> is_nan x = false ->
    SFleb (SFopp one) (erf x) = true /\ SFleb (erf x) one = true;
  erf_mono : forall x y, valid_binary prec emax x = true -> valid_binary prec emax y = true ->
    SFleb x y = true -> SFleb (erf x) (erf y) = true
}.

(** The argument of erf. *)
Definition quotient (mean sigma baseline : float) : float :=
  fdiv (fsub mean baseline) (fmul sigma sqrt2).

(** [mean - baseline] and [sigma * sqrt(2.0)] do not both overflow: their
    quotient is a number. *)
Definition no_double_overflow (mean sigma baseline : float) : bool :=
  is_finite (fsub mean baseline) || is_finite (fmul sigma sqrt2).

(** The largest float64, about 1.8e308. *)
Definition largest : float := SFmax_float prec emax.

(** 2^-600 and 2^600 *)
Definition small_mean : float := S754_finite false 4503599627370496 (-652).
Definition large_sigma : float := S754_finite false 4503599627370496 548.

(** A stand-in for erf in the examples: the sign of its argument. *)
Definition sign (x : float) : float :=
  match x with
  | S754_finite s _ _ | S754_infinity s => if s then SFopp one else one
  | _ => x
  end.

End ExperimentalDesign.

(** ** The shape-memory-alloy demo: formula pre-processing *)

Module SMADemo.
Import Py.

(** The data frame read from the CSV, column by column; [shape0] is its
    number of rows. *)
Record DataFrame := {
  columns : gmap string (list num);
  shape0 : nat
}.

Definition elements : list string := ["Ni"; "Cu"; "Fe"; "Pd"].

(** The four element columns are there and hold one value per row. *)
Definition well_formed (data : DataFrame) : Prop :=
  forall el : string, el ∈ elements ->
    exists c : list num, columns data !! el = Some c /\ length c = shape0 data.

(** [data[el][i]]: the column of that name, then the row of that label. *)
Definition cell (data : DataFrame) (el : string) (i : nat) : result num :=
  match columns data !! el with
  | None => Raise (KeyError (Name el))
  | Some c =>
      match c !! i with
      | Some v => Ok v
      | None => Raise (KeyError (Label i))
      end
  end.

(** [x / 100.] *)
Definition percent (x : num) : float := fdiv (to_float x) (float_of_Z 100).

Section Formula.
(** [str] of a float64, Python's shortest round-trip decimal. *)
Variable str : float -> string.

(** The inner loop [for el in elements], threading the variable [string] of
    the source, here [text]. *)
Fixpoint append_elements (data : DataFrame) (i : nat) (els : list string) (text : string)
  : result string :=
  match els with
  | [] => Ok text
  | el :: els' =>
      x ← cell data el i;
      if gt0 x
      then y ← cell data el i;
           append_elements data i els' (text +:+ el +:+ str (percent y))
      else append_elements data i els' text
  end.

(** The body of [for i in range(num_points)]. *)
Definition row_formula (data : DataFrame) (i : nat) : result string :=
  append_elements data i elements "Ti0.5".

(** The outer loop over the rows [i, i+1, ...], filling the series. *)
Fixpoint formula_loop (data : DataFrame) (i : nat) (count : nat) : result (list string) :=
  match count with
  | O => Ok []
  | S count' =>
      s ← row_formula data i;
      rest ← formula_loop data (S i) count';
      Ok (s :: rest)
  end.

Definition formulas (data : DataFrame) : result (list string) :=
  formula_loop data 0 (shape0 data).

(** The formula of a row as the specification words it, from the row's four
    values: the prefix Ti0.5, then for Ni, Cu, Fe and Pd, in this order, the
    symbol followed by the value divided by 100 when the value is greater
    than 0. *)
Definition part_spec (symbol : string) (x : num) : string :=
  if gt0 x then symbol +:+ str (fdiv (to_float x) (float_of_Z 100)) else "".

Definition row_formula_spec (Ni Cu Fe Pd : num) : string :=
  "Ti0.5" +:+ part_spec "Ni" Ni +:+ part_spec "Cu" Cu +:+ part_spec "Fe" Fe
  +:+ part_spec "Pd" Pd.

(** The loop's result on a well-formed table, element by element: the
    symbols of the elements with a positive entry, each followed by its
    percentage. *)
Definition entry (data : DataFrame) (i : nat) (el : string) : num :=
  match cell data el i with
  | Ok v => v
  | Raise _ => Int 0
  end.

Definition positive_elements (data : DataFrame) (i : nat) : list string :=
  filter (fun el => gt0 (entry data i el) = true) elements.

Definition formula_text (data : DataFrame) (i : nat) : string :=
  fold_right (fun el acc => el +:+ str (percent (entry data i el)) +:+ acc) ""
    (positive_elements data i).

End Formula.

(** A table of two alloys: Ti50 Ni25 Cu25 and an all-zero row. *)
Definition sample : DataFrame :=
  {| columns := {[ "Ni" := [Int 25; Int 0]; "Cu" := [Int 25; Int 0];
                   "Fe" := [Int 0; Int 0]; "Pd" := [Int 0; Int 0] ]};
     shape0 := 2 |}.

(** A rendering of floats good for the sample: 25/100 prints as 0.25. *)
Definition sample_str (x : float) : string :=
  if SFeqb x (percent (Int 25)) then "0.25" else "?".

(** A cell of the table that is written out: a number or a text. *)
Inductive value :=
| Num (x : num)
| Text (s : string).

(** [data.rename(columns={h: 'PROPERTY: ' + h for h in list(data.columns)})] *)
Definition rename_columns (cols : gmap string (list num)) : gmap string (list value) :=
  kmap (M2 := gmap string) (String.append "PROPERTY: ")
    (fmap (M := gmap string) (fmap (M := list) Num) cols).

(** The whole pre-processing cell up to the table that is written to the
    new CSV: the formulas, the renamed columns and the added column
    [formula]. *)
Definition preprocess (str : float -> string) (data : DataFrame)
  : result (gmap string (list value)) :=
  fs ← formulas str data;
  Ok (<["formula" := fmap (M := list) Text fs]> (rename_columns (columns data))).

(** A table that already has a column named formula, and one without the
    column Fe. *)
Definition sample_with_formula : DataFrame :=
  {| columns := <["formula" := [Int 1; Int 2]]> (columns sample); shape0 := 2 |}.

Definition sample_without_Fe : DataFrame :=
  {| columns := {[ "Ni" := [Int 25]; "Cu" := [Int 25]; "Pd" := [Int 0] ]}; shape0 := 1 |}.

End SMADemo.

(** ** clients_sequence/5_sequential_learning_api_tutorial.ipynb: the driver *)

Module SequentialLearning.
Import Py.

(** A design candidate: its inputs and the value the model predicts. *)
Record candidate := {
  inputs : list float;
  predicted : float
}.

(** Modelled from the spec: the world the driver of
    sequential_learning_wrappers.py (not under src) acts on, of which the
    repository has no code: the hosted platform behind [client] and the clock
    of [sleep].  [St] is the state of that world; each status request answers
    whether the job is ready. *)
Record Service (St : Type) := {
  submit_design_run : nat -> nat -> St -> St;
  design_status : St -> bool * St;
  sleep : nat -> St -> St;
  design_results : St -> list candidate * St;
  add_to_dataset : list (candidate * float) -> St -> St;
  retrain : St -> St;
  view_status : St -> bool * St
}.
Arguments submit_design_run {St}.
Arguments design_status {St}.
Arguments sleep {St}.
Arguments design_results {St}.
Arguments add_to_dataset {St}.
Arguments retrain {St}.
Arguments view_status {St}.

(** Modelled from the spec: the laboratory, the callback [true_function]
    that the driver calls on the inputs of a candidate.  The notebook passes
    [toy_func], which leaves the world as it is. *)
Definition Laboratory (St : Type) : Type := list float -> St -> float * St.

Section Driver.
Context {St : Type} (client : Service St) (true_function : Laboratory St).

(** The driver threads the state of the world.  A result [None] is a polling
    loop that ran out of fuel: the run stops there, in the state it had
    reached. *)
Definition M (A : Type) : Type := St -> option A * St.

#[export] Instance M_ret : MRet M := fun _ a s => (Some a, s).
#[export] Instance M_bind : MBind M := fun _ _ k m s =>
  match m s with
  | (Some a, s') => k a s'
  | (None, s') => (None, s')
  end.

(** A call that returns nothing, and a call that returns a value. *)
Definition exec (f : St -> St) : M () := fun s => (Some (), f s).

Definition call {A} (f : St -> A * St) : M A :=
  fun s => let '(a, s') := f s in (Some a, s').

Definition out_of_fuel {A} : M A := fun s => (None, s).

(** Modelled from the spec: the polling loop of the wrappers, sleep and retry
    until the status flag flips.  The source loops without a bound; [fuel]
    bounds the number of status requests of one loop here. *)
Fixpoint wait_until_ready (status : St -> bool * St) (wait_time fuel : nat) : M () :=
  match fuel with
  | O => out_of_fuel
  | S fuel' =>
      ready ← call status;
      if ready : bool then mret ()
      else exec (sleep client wait_time);;
           wait_until_ready status wait_time fuel'
  end.

(** Modelled from the spec: the candidates are measured one after the other
    with [true_function]. *)
Fixpoint measure_all (candidates : list candidate) : M (list float) :=
  match candidates with
  | [] => mret []
  | c :: rest =>
      y ← call (true_function (inputs c));
      ys ← measure_all rest;
      mret (y :: ys)
  end.

Section Iterations.
Variables (num_candidates_per_iter design_effort wait_time fuel : nat).
(** [best] picks the value to record from a list, by the target. *)
Variable best : list float -> float.

(** Modelled from the spec: one iteration of the loop of
    [run_sequential_learning] in sequential_learning_wrappers.py (not under
    src): submit a design job, poll until it is ready, take the top
    candidates and record the prediction, measure them with the local
    function and record the measurement, append them to the dataset,
    retrain and poll until the view is ready. *)
Definition sl_iteration : M (float * float) :=
  exec (submit_design_run client num_candidates_per_iter design_effort);;
  wait_until_ready (design_status client) wait_time fuel;;
  candidates ← call (design_results client);
  let best_pred := best (map predicted candidates) in
  measured ← measure_all candidates;
  let best_measured := best measured in
  exec (add_to_dataset client (zip candidates measured));;
  exec (retrain client);;
  wait_until_ready (view_status client) wait_time fuel;;
  mret (best_pred, best_measured).

(** Modelled from the spec: the [for] loop over the iterations, appending to
    the two result lists. *)
Fixpoint sl_loop (iterations : nat) (best_sl_pred_vals best_sl_measured_vals : list float)
  : M (list float * list float) :=
  match iterations with
  | O => mret (best_sl_pred_vals, best_sl_measured_vals)
  | S iterations' =>
      r ← sl_iteration;
      sl_loop iterations' (best_sl_pred_vals ++ [r.1]) (best_sl_measured_vals ++ [r.2])
  end.

(** Modelled from the spec: [run_sequential_learning], missing from src; the
    result is the two lists, with the state the world is left in. *)
Definition run_sequential_learning (num_sl_iterations : nat) (s : St)
  : option (list float * list float) * St :=
  sl_loop num_sl_iterations [] [] s.

End Iterations.

(** [status] answers ready within [k] requests from [s], with a sleep of
    [wait_time] after each refusal. *)
Fixpoint ready_within (status : St -> bool * St) (wait_time k : nat) (s : St) : bool :=
  match k with
  | O => false
  | S k' =>
      let '(ready, s') := status s in
      ready || ready_within status wait_time k' (sleep client wait_time s')
  end.

End Driver.
Arguments M : clear implicits.

(** *** What the world sees of a run

    To speak of the order of the driver's steps, the world keeps a record:
    every call it receives is written down, with its arguments and its
    answer, at the moment it is served. *)
Inductive event :=
| SubmitDesign (num_candidates effort : nat)
| PollDesign (ready : bool)
| Sleep (seconds : nat)
| GetCandidates (candidates : list candidate)
| Measure (x : list float) (y : float)
| AddToDataset (rows : list (candidate * float))
| Retrain
| PollView (ready : bool).

Section Recording.
Context {St : Type} (client : Service St) (true_function : Laboratory St).

Definition record_do (f : St -> St) (e : event) : St * list event -> St * list event :=
  fun '(s, log) => (f s, log ++ [e]).

Definition record_call {A} (f : St -> A * St) (e : A -> event)
  : St * list event -> A * (St * list event) :=
  fun '(s, log) => let '(a, s') := f s in (a, (s', log ++ [e a])).

(** The same platform and laboratory, keeping the record. *)
Definition recording : Service (St * list event) := {|
  submit_design_run := fun n e => record_do (submit_design_run client n e) (SubmitDesign n e);
  design_status := record_call (design_status client) PollDesign;
  sleep := fun t => record_do (sleep client t) (Sleep t);
  design_results := record_call (design_results client) GetCandidates;
  add_to_dataset := fun rows => record_do (add_to_dataset client rows) (AddToDataset rows);
  retrain := record_do (retrain client) Retrain;
  view_status := record_call (view_status client) PollView
|}.

Definition recording_function : Laboratory (St * list event) :=
  fun x => record_call (true_function x) (Measure x).

(** [performs e s s']: serving the call [e] takes the world from [s] to
    [s'], and the answer written in [e] is the one the world gives in [s]. *)
Inductive performs : event -> St -> St -> Prop :=
| performs_submit n e s :
    performs (SubmitDesign n e) s (submit_design_run client n e s)
| performs_poll_design s :
    performs (PollDesign (design_status client s).1) s (design_status client s).2
| performs_sleep t s :
    performs (Sleep t) s (sleep client t s)
| performs_results s :
    performs (GetCandidates (design_results client s).1) s (design_results client s).2
| performs_measure x s :
    performs (Measure x (true_function x s).1) s (true_function x s).2
| performs_add rows s :
    performs (AddToDataset rows) s (add_to_dataset client rows s)
| performs_retrain s :
    performs Retrain s (retrain client s)
| performs_poll_view s :
    performs (PollView (view_status client s).1) s (view_status client s).2.

(** The two status requests of the platform, each with its record. *)
Inductive status_request : (St -> bool * St) -> (bool -> event) -> Prop :=
| request_design : status_request (design_status client) PollDesign
| request_view : status_request (view_status client) PollView.

(** [trace s log s']: the calls of [log], served in this order from [s],
    leave the world in [s']. *)
Inductive trace : St -> list event -> St -> Prop :=
| trace_nil s : trace s [] s
| trace_cons e log s s1 s2 : performs e s s1 -> trace s1 log s2 -> trace s (e :: log) s2.

End Recording.

(** [i] rounds of a status request that is refused and the sleep after it. *)
Fixpoint refusals (poll : bool -> event) (wait_time i : nat) : list event :=
  match i with
  | O => []
  | S i' => poll false :: Sleep wait_time :: refusals poll wait_time i'
  end.

(** The record of one polling loop that ends: [i] refusals, then the request
    that is answered ready. *)
Definition polling (poll : bool -> event) (wait_time i : nat) : list event :=
  refusals poll wait_time i ++ [poll true].

(** What varies from one iteration to the next: how often each status was
    refused, the candidates and their measurements. *)
Record iteration := {
  design_refusals : nat;
  candidates : list candidate;
  measured : list float;
  view_refusals : nat
}.

Section Logs.
Variables (num_candidates_per_iter design_effort wait_time fuel : nat).
Variable best : list float -> float.

(** The measurements of an iteration, one call per candidate. *)
Definition measurements (it : iteration) : list event :=
  zip_with Measure (map inputs (candidates it)) (measured it).

(** The record of one iteration, steps (1) to (6) of the driver. *)
Definition iteration_log (it : iteration) : list event :=
  SubmitDesign num_candidates_per_iter design_effort
  :: polling PollDesign wait_time (design_refusals it)
  ++ GetCandidates (candidates it)
  :: measurements it
  ++ [AddToDataset (zip (candidates it) (measured it)); Retrain]
  ++ polling PollView wait_time (view_refusals it).

Definition well_measured (it : iteration) : Prop :=
  length (measured it) = length (candidates it).

(** The record of an iteration that ran out of fuel, in its first or in its
    second polling loop: every one of the [fuel] requests was refused. *)
Inductive unfinished : list event -> Prop :=
| unfinished_design :
    unfinished (SubmitDesign num_candidates_per_iter design_effort
                :: refusals PollDesign wait_time fuel)
| unfinished_view it :
    well_measured it ->
    unfinished (SubmitDesign num_candidates_per_iter design_effort
                :: polling PollDesign wait_time (design_refusals it)
                ++ GetCandidates (candidates it)
                :: measurements it
                ++ [AddToDataset (zip (candidates it) (measured it)); Retrain]
                ++ refusals PollView wait_time fuel).

(** The two values an iteration records. *)
Definition recorded (it : iteration) : float * float :=
  (best (map predicted (candidates it)), best (measured it)).

(** The refusals of an iteration that ended stayed below the fuel. *)
Definition within_fuel (it : iteration) : Prop :=
  well_measured it /\ (design_refusals it < fuel)%nat /\ (view_refusals it < fuel)%nat.

(** What follows the design job of an iteration, and what comes before its
    retraining. *)
Definition after_submit (it : iteration) : list event :=
  polling PollDesign wait_time (design_refusals it)
  ++ GetCandidates (candidates it)
  :: measurements it
  ++ [AddToDataset (zip (candidates it) (measured it)); Retrain]
  ++ polling PollView wait_time (view_refusals it).

Definition before_retrain (it : iteration) : list event :=
  SubmitDesign num_candidates_per_iter design_effort
  :: polling PollDesign wait_time (design_refusals it)
  ++ GetCandidates (candidates it)
  :: measurements it
  ++ [AddToDataset (zip (candidates it) (measured it))].

(** The record of a run: finished iterations, then nothing or an
    unfinished one. *)
Definition run_log (its : list iteration) (rest : list event) : list event :=
  concat (map iteration_log its) ++ rest.

Definition ended (rest : list event) : Prop :=
  rest = [] \/ unfinished rest.

End Logs.

Definition is_submit (e : event) : bool :=
  match e with SubmitDesign _ _ => true | _ => false end.

Definition is_retrain (e : event) : bool :=
  match e with Retrain => true | _ => false end.

(** No element of the list is marked by [P]. *)
Definition free {A} (P : A -> bool) (l : list A) : Prop := Forall (fun x => P x = false) l.

(** A platform whose jobs refuse the first status request and are ready at
    the second. *)
Record lab := {
  busy : bool;
  dataset : list (candidate * float)
}.

Definition lab_poll (s : lab) : bool * lab :=
  (negb (busy s), {| busy := false; dataset := dataset s |}).

Definition lab_start (s : lab) : lab := {| busy := true; dataset := dataset s |}.

Definition lab_candidates : list candidate :=
  [ {| inputs := [float_of_Z 1; float_of_Z 2]; predicted := float_of_Z 5 |};
    {| inputs := [float_of_Z 0; float_of_Z 1]; predicted := float_of_Z 2 |} ].

Definition lab_service : Service lab := {|
  submit_design_run := fun _ _ => lab_start;
  design_status := lab_poll;
  sleep := fun _ s => s;
  design_results := fun s => (lab_candidates, s);
  add_to_dataset := fun rows s => {| busy := busy s; dataset := dataset s ++ rows |};
  retrain := lab_start;
  view_status := lab_poll
|}.

(** A platform whose design jobs never finish. *)
Definition stuck_service : Service lab := {|
  submit_design_run := fun _ _ => lab_start;
  design_status := fun s => (false, s);
  sleep := fun _ s => s;
  design_results := fun s => (lab_candidates, s);
  add_to_dataset := fun rows s => {| busy := busy s; dataset := dataset s ++ rows |};
  retrain := lab_start;
  view_status := lab_poll
|}.

Definition empty_lab : lab := {| busy := false; dataset := [] |}.

(** [toy_func] as the laboratory of the notebook. *)
Definition toy_laboratory : Laboratory lab :=
  fun x s => (to_float (ToyFunction.toy_func (ToyFunction.Float64 x)), s).

(** The first value of a list, the choice of [best] in the examples. *)
Definition first_value (xs : list float) : float := hd pos_zero xs.

(** The call of the notebook (ten candidates, effort 10, ten seconds between
    requests, five iterations) against [lab_service], and against
    [stuck_service]; [fuel] requests are allowed per polling loop. *)
Definition demo_run (fuel : nat)
  : option (list float * list float) * (lab * list event) :=
  run_sequential_learning (recording lab_service) (recording_function toy_laboratory)
    10 10 10 fuel first_value 5 (empty_lab, []).

Definition stuck_run (fuel : nat)
  : option (list float * list float) * (lab * list event) :=
  run_sequential_learning (recording stuck_service) (recording_function toy_laboratory)
    10 10 10 fuel first_value 5 (empty_lab, []).

End SequentialLearning.

(** ** The five notebooks as scripts *)

Module Notebooks.

(** The code cells of a notebook, from top to bottom.  Of each cell this
    keeps, in the order of the source, the imports, the function definitions
    with their bodies, the compound statements, and the calls of library,
    client and notebook functions by the dotted name written in the source;
    built-ins ([print], [float], [open], [max], ...), string methods,
    assignments and [del] are left out.  A call that passes the object
    [client] to a function is [Hands]. *)
#[local] Unset Elimination Schemes.
Inductive stmt :=
| Imports (module : string)
| Defines (name : string) (body : list stmt)
| Calls (callee : string)
| Hands (callee : string)
| For (body : list stmt)
| If (body : list stmt)
| With (body : list stmt)
| While (body : list stmt)
| Try (body : list stmt)
| Class (name : string) (body : list stmt).
#[local] Set Elimination Schemes.

(** ExperimentalDesign.ipynb *)
Definition experimental_design : list stmt :=
  [ Imports "os"; Imports "random"; Imports "math";
    Imports "scipy.special"; Imports "pandas";
    Imports "citrination_client"; Imports "citrination_client";
    Imports "citrination_client"; Imports "citrination_client";
    Calls "PifSystemQuery"; Calls "ChemicalFieldQuery"; Calls "PropertyQuery";
    Calls "FieldQuery"; Calls "Filter"; Calls "FieldQuery";
    Calls "PifSystemReturningQuery"; Calls "DataQuery"; Calls "DatasetQuery"; Calls "Filter";
    Calls "CitrinationClient"; Calls "client.search.pif_search";
    Calls "seed"; Calls "x.extracted.copy"; Calls "shuffle"; For [];
    Defines "write_csv" [ With [ Calls "f.write"; For [ Calls "f.write" ] ] ];
    Calls "write_csv";
    Calls "client.models.predict";
    Calls "prediction[0].get_value"; Calls "prediction[0].get_value";
    Defines "probability_improvement" [ Calls "erf"; Calls "sqrt" ];
    Calls "client.models.predict";
    For [ Calls "p.get_value"; Calls "p.add_value"; Calls "probability_improvement" ];
    For [ Calls "p.get_value"; Calls "p.get_value"; Calls "p.get_value";
          If [ Calls "top_predictions.append" ] ];
    Calls "pd.DataFrame";
    Calls "df['Property ZT'].map"; Calls "df['LI'].map";
    Calls "df.sort_values"; Calls "head" ].

(** clients_sequence/5_sequential_learning_api_tutorial.ipynb; its third
    import is the repository's own sequential_learning_wrappers, from which
    everything else the notebook uses comes. *)
Definition sequential_learning_api_tutorial : list stmt :=
  [ Imports "os"; Imports "uuid"; Imports "sequential_learning_wrappers";
    Calls "CitrinationClient"; Calls "os.environ.get";
    Defines "toy_func" [ Calls "np.sum"; Calls "np.square" ];
    Calls "np.random.normal"; Calls "toy_func";
    Calls "plt.rcParams.update"; Calls "plt.scatter"; Calls "np.array"; Calls "np.array";
    Calls "plt.colorbar"; Calls "plt.xlabel"; Calls "plt.ylabel";
    Calls "plt.xlim"; Calls "plt.ylim"; Calls "plt.show";
    Calls "uuid.uuid4"; Calls "write_dataset_from_func";
    Hands "upload_data_and_get_id";
    Hands "build_view_and_get_id";
    Hands "run_sequential_learning";
    Calls "plot_sl_results" ].

(** tutorial_sequence/1_ImportVASP.ipynb *)
Definition import_vasp : list stmt :=
  [ Imports "os"; Imports "uuid";
    Imports "dfttopif"; Imports "pypif"; Imports "pypif.obj"; Imports "citrination_client";
    Calls "os.chdir"; Calls "directory_to_pif";
    Calls "pif.dumps";
    Calls "CitrinationClient";
    Calls "uuid.uuid4"; Calls "client.data.create_dataset";
    Calls "os.path.join"; With [ Calls "pif.dump" ]; Calls "client.data.upload" ].

(** tutorial_sequence/2_WorkingWithPIFs.ipynb *)
Definition working_with_pifs : list stmt :=
  [ Imports "re"; Imports "os";
    Imports "pypif"; Imports "dfttopif"; Imports "pypif_sdk.readview";
    Imports "matplotlib.pyplot";
    Calls "directory_to_pif";
    Calls "ReadView"; Calls "rv.keys";
    Defines "enthalpy_of_formation" [];
    Defines "get_stoich"
      [ Calls "re.match"; If [];
        Calls "m.group"; Calls "m.group"; Calls "m.group"; Calls "m.group" ];
    Calls "directory_to_pif"; Calls "directory_to_pif"; Calls "directory_to_pif";
    Calls "os.path.join"; Calls "os.listdir";
    Calls "ReadView"; Calls "ReadView";
    For [ Calls "ReadView"; Calls "get_stoich"; If [];
          Calls "points.append"; Calls "enthalpy_of_formation" ];
    Calls "plt.rcParams.update"; Calls "plt.scatter"; Calls "plt.xlim";
    Calls "plt.xlabel"; Calls "plt.ylabel"; Calls "plt.show" ].

(** The shape-memory-alloy demo, src/unnamed/part_000. *)
Definition sma_demo : list stmt :=
  [ Imports "pandas";
    Calls "pd.read_csv"; Calls "pd.Series";
    For [ For [ If [] ] ];
    Calls "data.rename"; Calls "data.assign"; Calls "data.to_csv" ].

Definition notebooks : list (list stmt) :=
  [ experimental_design; sequential_learning_api_tutorial; import_vasp; working_with_pifs;
    sma_demo ].

(** A statement with all the statements inside it. *)
Fixpoint statements (s : stmt) : list stmt :=
  match s with
  | Defines _ body | For body | If body | With body | While body | Try body
  | Class _ body => s :: concat (map statements body)
  | _ => [s]
  end.

Definition all_statements (nb : list stmt) : list stmt := concat (map statements nb).

(** A linear script: cells of imports, definitions, calls, loops over data
    and conditionals, run from top to bottom, with no loop that waits, no
    exception handling and no class. *)
Definition plain (s : stmt) : bool :=
  match s with While _ | Try _ | Class _ _ => false | _ => true end.

Definition linear (nb : list stmt) : bool := forallb plain (all_statements nb).

(** The modules of the Python standard library the notebooks import. *)
Definition standard_library : list string := ["os"; "uuid"; "re"; "random"; "math"].

(** The query classes of [citrination_client], of which requests are made. *)
Definition request_classes : list string :=
  [ "PifSystemQuery"; "PifSystemReturningQuery"; "ChemicalFieldQuery";
    "PropertyQuery"; "FieldQuery"; "ValueQuery"; "NameQuery"; "Filter"; "DataQuery";
    "DatasetQuery" ].

Definition mem (x : string) (l : list string) : bool := existsb (String.eqb x) l.

Definition contains (part s : string) : bool :=
  match String.index 0 part s with Some _ => true | None => false end.

(** (a) an import from outside the standard library *)
Definition imports_library (s : stmt) : bool :=
  match s with Imports m => negb (mem m standard_library) | _ => false end.

(** (b) a request object is constructed *)
Definition constructs_request (s : stmt) : bool :=
  match s with Calls f => mem f request_classes | _ => false end.

(** (c) a remote endpoint is called: a method of [client] *)
Definition calls_remote (s : stmt) : bool :=
  match s with Calls f => String.prefix "client." f | _ => false end.

(** (d) job completion is polled: a loop that waits, a sleep, or a request
    for a status *)
Definition polls (s : stmt) : bool :=
  match s with
  | While _ => true
  | Calls f | Hands f => mem f ["sleep"; "time.sleep"] || contains "status" f
  | _ => false
  end.

(** (e) a chart is drawn with matplotlib *)
Definition plots (s : stmt) : bool :=
  match s with Calls f => String.prefix "plt." f | _ => false end.

(** The five activities in the code of a notebook, (a) to (e). *)
Definition activities (nb : list stmt) : list bool :=
  map (fun p => existsb p (all_statements nb))
    [imports_library; constructs_request; calls_remote; polls; plots].

(** The functions a notebook hands its client to. *)
Definition handed (nb : list stmt) : list string :=
  omap (fun s => match s with Hands f => Some f | _ => None end) (all_statements nb).

End Notebooks.

(** * Proofs *)

Import Py WorkingWithPIFs ToyFunction ExperimentalDesign SMADemo SequentialLearning Notebooks.

(** ** Binary64 arithmetic *)

Lemma digits2_pos_size p : digits2_pos p = Pos.size p.
Proof. induction p; simpl; congruence. Qed.

Lemma digits2_pos_bounds p :
  2 ^ (Zpos (digits2_pos p) - 1) <= Zpos p < 2 ^ Zpos (digits2_pos p).
Proof.
  rewrite digits2_pos_size. split.
  - pose proof (Pos.size_le p) as H.
    assert (Z.pos (2 ^ Pos.size p) <= Z.pos p~0) by lia.
    rewrite Pos2Z.inj_pow in H0.
    replace (Z.pos (Pos.size p)) with (Z.succ (Z.pos (Pos.size p) - 1)) in H0 by lia.
    rewrite Z.pow_succ_r in H0 by lia. lia.
  - pose proof (Pos.size_gt p) as H.
    assert (Z.pos p < Z.pos (2 ^ Pos.size p)) by lia.
    now rewrite Pos2Z.inj_pow in H0.
Qed.

Lemma shr_1_m r : 0 <= shr_m r -> shr_m (shr_1 r) = Z.div2 (shr_m r).
Proof. destruct r as [[|[p|p|]|p] b s]; simpl; intros; try reflexivity; lia. Qed.

Lemma nat_iter_comm {A} (f : A -> A) n x : Nat.iter n f (f x) = f (Nat.iter n f x).
Proof. induction n; simpl; congruence. Qed.

Lemma iter_pos_nat {A} (f : A -> A) p x :
  SpecFloat.iter_pos f p x = Nat.iter (Pos.to_nat p) f x.
Proof.
  revert x. induction p as [p IH|p IH|]; intros x; cbn [SpecFloat.iter_pos].
  - rewrite !IH, Pos2Nat.inj_xI, !nat_iter_comm.
    replace (S (2 * Pos.to_nat p))%nat with (S (Pos.to_nat p + Pos.to_nat p))%nat by lia.
    change (Nat.iter (S (Pos.to_nat p + Pos.to_nat p)) f x)
      with (f (Nat.iter (Pos.to_nat p + Pos.to_nat p) f x)).
    now rewrite Nat.iter_add.
  - rewrite !IH, Pos2Nat.inj_xO.
    replace (2 * Pos.to_nat p)%nat with (Pos.to_nat p + Pos.to_nat p)%nat by lia.
    now rewrite Nat.iter_add.
  - reflexivity.
Qed.

Lemma iter_shr_1_m n r :
  0 <= shr_m r -> shr_m (Nat.iter n shr_1 r) = shr_m r / 2 ^ Z.of_nat n.
Proof.
  intros Hr. induction n as [|n IH].
  - simpl. now rewrite Z.div_1_r.
  - rewrite Nat2Z.inj_succ, Z.pow_succ_r by lia. simpl.
    rewrite shr_1_m, IH.
    + rewrite Z.div2_div, Z.div_div by lia. f_equal. lia.
    + rewrite IH. apply Z.div_pos; lia.
Qed.

Lemma shr_m_record_of_loc m l : shr_m (shr_record_of_loc m l) = m.
Proof. destruct l as [|[]]; reflexivity. Qed.

Lemma fexp_ge_emin e : emin64 <= fexp prec emax e.
Proof. unfold fexp, emin64. lia. Qed.

Lemma Zdigits2_nonneg m : 0 <= m -> 0 <= Zdigits2 m.
Proof. destruct m; simpl; lia. Qed.

(** One right shift to the format's exponent: the mantissa stays
    non-negative, the exponent lands at or above [emin], and a positive
    mantissa whose exponent is already above [emin] keeps a leading bit. *)
Lemma shr_fexp_spec m e l :
  0 <= m ->
  let '(r, e') := shr_fexp prec emax m e l in
  0 <= shr_m r /\ emin64 <= e' /\ (0 < m -> emin64 <= e -> 0 < shr_m r).
Proof.
  intros Hm. unfold shr_fexp, shr.
  pose proof (fexp_ge_emin (Zdigits2 m + e)) as Hf.
  destruct (fexp prec emax (Zdigits2 m + e) - e) as [|n|n] eqn:Hn.
  - rewrite shr_m_record_of_loc. repeat split; lia.
  - rewrite iter_pos_nat, iter_shr_1_m, shr_m_record_of_loc, positive_nat_Z
      by (rewrite shr_m_record_of_loc; lia).
    repeat split.
    + apply Z.div_pos; lia.
    + lia.
    + intros Hpos He.
      destruct m as [|p|p]; try lia.
      pose proof (digits2_pos_bounds p) as [Hlo _].
      assert (Z.pos n <= Z.pos (digits2_pos p) - 1).
      { simpl Zdigits2 in Hn. unfold fexp, emin64, emin, prec, emax in *. lia. }
      assert (2 ^ Z.pos n <= Z.pos p).
      { etransitivity; [|exact Hlo]. apply Z.pow_le_mono_r; lia. }
      apply Z.div_str_pos. lia.
  - rewrite shr_m_record_of_loc. repeat split; lia.
Qed.

Lemma round_nearest_even_ge m l : m <= round_nearest_even m l.
Proof. destruct l as [|[]]; simpl; try lia. destruct (Z.even m); lia. Qed.

Lemma binary_round_aux_spec sx m e l :
  0 <= m ->
  rounded sx (binary_round_aux prec emax sx m e l) /\
  (0 < m -> emin64 <= e -> is_zero (binary_round_aux prec emax sx m e l) = false).
Proof.
  intros Hm. unfold binary_round_aux.
  pose proof (shr_fexp_spec m e l Hm) as H1.
  destruct (shr_fexp prec emax m e l) as [r1 e1].
  destruct H1 as (Hr1 & He1 & Hp1).
  pose proof (round_nearest_even_ge (shr_m r1) (loc_of_shr_record r1)) as Hrnd.
  set (m2 := round_nearest_even (shr_m r1) (loc_of_shr_record r1)) in *.
  assert (Hm2 : 0 <= m2) by lia.
  pose proof (shr_fexp_spec m2 e1 loc_Exact Hm2) as H2.
  destruct (shr_fexp prec emax m2 e1 loc_Exact) as [r2 e2].
  destruct H2 as (Hr2 & He2 & Hp2).
  destruct (shr_m r2) as [|p|p] eqn:Hs; try lia.
  - split; [reflexivity|]. intros Hpos He. specialize (Hp1 Hpos He). lia.
  - destruct (e2 <=? emax - prec); simpl; auto.
Qed.

Lemma shl_align_exp mx ex ex' : Z.min ex ex' <= snd (shl_align mx ex ex').
Proof. unfold shl_align. destruct (ex' - ex) eqn:H; simpl; lia. Qed.

Lemma binary_round_spec sx mx ex :
  emin64 <= ex ->
  rounded sx (binary_round prec emax sx mx ex) /\
  is_zero (binary_round prec emax sx mx ex) = false.
Proof.
  intros He. unfold binary_round.
  pose proof (shl_align_exp mx ex (fexp prec emax (Z.pos (digits2_pos mx) + ex))) as Ha.
  pose proof (fexp_ge_emin (Z.pos (digits2_pos mx) + ex)) as Hf.
  destruct (shl_align mx ex _) as [mz ez]. simpl in Ha.
  destruct (binary_round_aux_spec sx (Z.pos mz) ez loc_Exact) as [H1 H2]; [lia|].
  split; [exact H1|]. apply H2; lia.
Qed.

Lemma rounded_nonneg f : rounded false f -> nonneg f.
Proof. destruct f; simpl; auto. Qed.

Lemma nonneg_fge0 f : nonneg f -> fge0 f = true.
Proof. destruct f as [s|s| |s m e]; simpl; try tauto; intros; try subst; try reflexivity.
  destruct H as [-> _]. reflexivity. Qed.

Lemma feq0_is_zero f : feq0 f = is_zero f.
Proof. destruct f as [s|[]| |[] m e]; reflexivity. Qed.

Lemma float_of_Z_spec z :
  0 <= z -> nonneg (float_of_Z z) /\ is_zero (float_of_Z z) = (z =? 0).
Proof.
  intros Hz. unfold float_of_Z, binary_normalize.
  destruct z as [|p|p]; try lia.
  - split; simpl; auto.
  - destruct (binary_round_spec false p 0) as [H1 H2]; [unfold emin64, emin, prec, emax; lia|].
    split; [now apply rounded_nonneg | exact H2].
Qed.

Lemma fadd_nonneg x y :
  nonneg x -> nonneg y ->
  nonneg (fadd x y) /\ is_zero (fadd x y) = is_zero x && is_zero y.
Proof.
  destruct x as [sx|sx| |sx mx ex], y as [sy|sy| |sy my ey]; simpl;
    try tauto; intros Hx Hy; try subst; try (split; [simpl; tauto | reflexivity]).
  - destruct sx, sy; simpl; auto.
  - destruct Hx as [-> Hx], Hy as [-> Hy]. unfold fadd, SFadd, cond_Zopp.
    rewrite <- Pos2Z.inj_add. unfold binary_normalize.
    destruct (binary_round_spec false
      (fst (shl_align mx ex (Z.min ex ey)) + fst (shl_align my ey (Z.min ex ey)))
      (Z.min ex ey)) as [H1 H2]; [lia|].
    split; [now apply rounded_nonneg | exact H2].
Qed.

Lemma fmul_self_nonneg x :
  is_nan x = false -> nonneg (fmul x x).
Proof.
  destruct x as [s|s| |s m e]; simpl; try discriminate; intros _.
  - exact I.
  - now destruct s.
  - unfold fmul, SFmul. replace (xorb s s) with false by now destruct s.
    apply rounded_nonneg, binary_round_aux_spec. lia.
Qed.

Lemma iter_xO_value p k : Z.pos (Pos.iter xO p k) = Z.pos p * 2 ^ Z.pos k.
Proof.
  induction k as [|k IH] using Pos.peano_ind.
  - simpl. lia.
  - rewrite Pos.iter_succ, Pos2Z.inj_xO, IH, Pos2Z.inj_succ, Z.pow_succ_r by lia. lia.
Qed.

Lemma iter_xO_digits p k :
  Z.pos (digits2_pos (Pos.iter xO p k)) = Z.pos (digits2_pos p) + Z.pos k.
Proof.
  induction k as [|k IH] using Pos.peano_ind.
  - simpl. lia.
  - rewrite Pos.iter_succ. cbn [digits2_pos]. rewrite Pos2Z.inj_succ, IH. lia.
Qed.

(** A full-width mantissa at an exponent of the normal range is kept as it is. *)
Lemma binary_round_aux_exact m e :
  Z.pos (digits2_pos m) = prec -> emin64 <= e <= emax - prec ->
  binary_round_aux prec emax false (Z.pos m) e loc_Exact = S754_finite false m e.
Proof.
  intros Hd He. unfold binary_round_aux.
  assert (Hsh : forall l, shr_fexp prec emax (Z.pos m) e l = (shr_record_of_loc (Z.pos m) l, e)).
  { intros l. unfold shr_fexp, shr. cbn [Zdigits2]. rewrite Hd.
    replace (fexp prec emax (prec + e) - e) with 0; [reflexivity|].
    unfold fexp, emin64, emin, prec, emax in *. lia. }
  rewrite Hsh. cbn [shr_record_of_loc shr_m loc_of_shr_record round_nearest_even].
  rewrite Hsh. cbn [shr_record_of_loc shr_m].
  destruct He as [_ He]. apply Z.leb_le in He. now rewrite He.
Qed.

(** Integers below 2^53 convert without rounding. *)
Lemma float_of_Z_exact z :
  0 < z < 2 ^ 53 ->
  exists m e, float_of_Z z = S754_finite false m e /\ -52 <= e <= 0 /\ Z.pos m = z * 2 ^ (- e).
Proof.
  intros [Hpos Hlt]. destruct z as [|p|p]; try lia.
  unfold float_of_Z, binary_normalize, binary_round.
  pose proof (digits2_pos_bounds p) as [Hlo _].
  assert (Hd : Z.pos (digits2_pos p) <= 53).
  { destruct (Z_le_gt_dec (Z.pos (digits2_pos p)) 53) as [|Hgt]; [assumption|].
    assert (2 ^ 53 <= 2 ^ (Z.pos (digits2_pos p) - 1)) by (apply Z.pow_le_mono_r; lia). lia. }
  unfold shl_align.
  replace (fexp prec emax (Z.pos (digits2_pos p) + 0) - 0) with (Z.pos (digits2_pos p) - 53)
    by (unfold fexp, emin, prec, emax; lia).
  replace (fexp prec emax (Z.pos (digits2_pos p) + 0)) with (Z.pos (digits2_pos p) - 53)
    by (unfold fexp, emin, prec, emax; lia).
  destruct (Z.pos (digits2_pos p) - 53) as [|k|k] eqn:Hk; try lia.
  - rewrite binary_round_aux_exact.
    + exists p, 0. repeat split; try lia.
    + unfold prec. lia.
    + unfold emin64, emin, prec, emax. lia.
  - rewrite binary_round_aux_exact.
    + exists (Pos.iter xO p k), (Z.neg k). repeat split; try lia.
      rewrite iter_xO_value. reflexivity.
    + rewrite iter_xO_digits. unfold prec. lia.
    + unfold emin64, emin, prec, emax. lia.
Qed.

Lemma nonneg_not_nan x : nonneg x -> is_nan x = false.
Proof. destruct x; simpl; tauto. Qed.

Lemma fadd_nan_l y : fadd S754_nan y = S754_nan.
Proof. reflexivity. Qed.

Lemma fadd_nan_r x : fadd x S754_nan = S754_nan.
Proof. now destruct x. Qed.

Lemma fmul_self_nan x : is_nan (fmul x x) = is_nan x.
Proof.
  destruct (is_nan x) eqn:Hx.
  - destruct x; try discriminate. reflexivity.
  - apply nonneg_not_nan, fmul_self_nonneg, Hx.
Qed.

Lemma fmul_neg_neg x : fmul (fneg x) (fneg x) = fmul x x.
Proof. destruct x as [s|s| |s m e]; simpl; try reflexivity; now destruct s. Qed.

(** One right shift to the format's exponent keeps a positive mantissa
    positive when the value is at least the smallest subnormal. *)
Lemma shr_fexp_pos m e l :
  0 < m -> emin64 < Zdigits2 m + e -> 0 < shr_m (fst (shr_fexp prec emax m e l)).
Proof.
  intros Hm He. unfold shr_fexp, shr.
  destruct (fexp prec emax (Zdigits2 m + e) - e) as [|n|n] eqn:Hn; cbn [fst].
  - now rewrite shr_m_record_of_loc.
  - rewrite iter_pos_nat, iter_shr_1_m, shr_m_record_of_loc, positive_nat_Z
      by (rewrite shr_m_record_of_loc; lia).
    destruct m as [|p|p]; try lia.
    pose proof (digits2_pos_bounds p) as [Hlo _].
    assert (Z.pos n <= Z.pos (digits2_pos p) - 1).
    { simpl Zdigits2 in *. unfold fexp, emin64, emin, prec, emax in *. lia. }
    assert (2 ^ Z.pos n <= Z.pos p).
    { etransitivity; [|exact Hlo]. apply Z.pow_le_mono_r; lia. }
    apply Z.div_str_pos. lia.
  - now rewrite shr_m_record_of_loc.
Qed.

Lemma Zdigits2_pos m : 0 < m -> 0 < Zdigits2 m.
Proof. destruct m; simpl; lia. Qed.

Lemma binary_round_aux_nonzero sx m e l :
  0 < m -> emin64 < Zdigits2 m + e ->
  is_zero (binary_round_aux prec emax sx m e l) = false /\
  is_nan (binary_round_aux prec emax sx m e l) = false.
Proof.
  intros Hm He. unfold binary_round_aux.
  pose proof (shr_fexp_pos m e l Hm He) as H1.
  pose proof (shr_fexp_spec m e l ltac:(lia)) as H1'.
  destruct (shr_fexp prec emax m e l) as [r1 e1]. cbn [fst] in H1.
  destruct H1' as (_ & He1 & _).
  pose proof (round_nearest_even_ge (shr_m r1) (loc_of_shr_record r1)) as Hrnd.
  set (m2 := round_nearest_even (shr_m r1) (loc_of_shr_record r1)) in *.
  assert (Hm2 : 0 < m2) by lia.
  pose proof (shr_fexp_pos m2 e1 loc_Exact Hm2) as H2.
  destruct (shr_fexp prec emax m2 e1 loc_Exact) as [r2 e2]. cbn [fst] in H2.
  pose proof (Zdigits2_pos m2 Hm2).
  destruct (shr_m r2) as [|p|p]; try lia.
  destruct (e2 <=? emax - prec); auto.
Qed.

Lemma valid_exponent s m e : valid_binary prec emax (S754_finite s m e) = true -> emin64 <= e.
Proof.
  unfold valid_binary, bounded, canonical_mantissa. intros H.
  apply andb_true_iff in H as [H _]. apply Z.eqb_eq in H.
  rewrite <- H. apply fexp_ge_emin.
Qed.

(** ** Strings and the pattern of get_stoich *)

Section StringFacts.

Lemma string_app_cons c s t : String c s +:+ t = String c (s +:+ t).
Proof. reflexivity. Qed.

Lemma string_app_nil t : "" +:+ t = t.
Proof. reflexivity. Qed.

Lemma strip_prefix_app p s : Str.strip_prefix p (p +:+ s) = Some s.
Proof.
  induction p as [|a p IH]; [reflexivity|].
  rewrite string_app_cons. simpl. now rewrite Ascii.eqb_refl.
Qed.

Lemma strip_prefix_Some p s r : Str.strip_prefix p s = Some r -> s = p +:+ r.
Proof.
  revert s. induction p as [|a p IH]; intros s; simpl.
  - now intros [= ->].
  - destruct s as [|b s]; [discriminate|].
    destruct (Ascii.eqb_spec a b) as [->|]; [|discriminate].
    intros H. now rewrite (IH _ H), string_app_cons.
Qed.

Lemma take_drop k s : Str.take k s +:+ Str.drop k s = s.
Proof.
  revert s. induction k as [|k IH]; intros [|c s]; simpl; try reflexivity.
  rewrite string_app_cons. f_equal. apply IH.
Qed.

Lemma run_length_take cls s : Str.all cls (Str.take (Str.run_length cls s) s) = true.
Proof.
  induction s as [|c s IH]; simpl; [reflexivity|].
  destruct (cls c) eqn:Hc; simpl; [|reflexivity]. now rewrite Hc.
Qed.

Lemma run_length_drop cls s : Str.starts_in cls (Str.drop (Str.run_length cls s) s) = false.
Proof.
  induction s as [|c s IH]; simpl; [reflexivity|].
  destruct (cls c) eqn:Hc; simpl; [exact IH | exact Hc].
Qed.

Lemma drop_below_run cls s j :
  (j < Str.run_length cls s)%nat -> Str.starts_in cls (Str.drop j s) = true.
Proof.
  revert j. induction s as [|c s IH]; intros j; simpl; [lia|].
  destruct (cls c) eqn:Hc; [|lia].
  destruct j as [|j]; simpl; [intros _; exact Hc|]. intros H. apply IH. lia.
Qed.

Lemma run_length_app cls d r :
  Str.all cls d = true -> Str.starts_in cls r = false ->
  Str.run_length cls (d +:+ r) = String.length d.
Proof.
  intros Hd Hr. induction d as [|c d IH].
  - rewrite string_app_nil. destruct r as [|c r]; simpl in *; [reflexivity | now rewrite Hr].
  - rewrite string_app_cons. simpl in *.
    apply andb_true_iff in Hd as [Hc Hd]. rewrite Hc. now rewrite IH.
Qed.

Lemma take_app_length d r : Str.take (String.length d) (d +:+ r) = d.
Proof.
  induction d as [|c d IH]; [now destruct r|].
  rewrite string_app_cons. simpl. now rewrite IH.
Qed.

Lemma drop_app_length d r : Str.drop (String.length d) (d +:+ r) = r.
Proof. induction d as [|c d IH]; [now destruct r | exact IH]. Qed.

End StringFacts.

Section Backtracking.

Lemma backtrack_fail rest s k :
  (forall j, (j <= k)%nat -> rest (Str.drop j s) = None) -> Re.backtrack rest s k = None.
Proof.
  induction k as [|k IH]; intros H; cbn [Re.backtrack]; rewrite H by lia; [reflexivity|].
  apply IH. intros j Hj. apply H. lia.
Qed.

Lemma backtrack_first rest s k groups :
  rest (Str.drop k s) = Some groups ->
  Re.backtrack rest s k = Some (Str.take k s :: groups).
Proof. intros H. destruct k; cbn [Re.backtrack]; now rewrite H. Qed.

(** A starred class followed by a literal that starts outside the class
    never gains from giving characters back. *)
Lemma backtrack_greedy cls rest s :
  (forall t, Str.starts_in cls t = true -> rest t = None) ->
  Re.backtrack rest s (Str.run_length cls s) =
  match rest (Str.drop (Str.run_length cls s) s) with
  | Some groups => Some (Str.take (Str.run_length cls s) s :: groups)
  | None => None
  end.
Proof.
  intros Hrest.
  destruct (rest (Str.drop (Str.run_length cls s) s)) as [groups|] eqn:Hk.
  - now apply backtrack_first.
  - apply backtrack_fail. intros j Hj.
    destruct (Nat.eq_dec j (Str.run_length cls s)) as [->|Hne]; [exact Hk|].
    apply Hrest, drop_below_run. lia.
Qed.

End Backtracking.

Lemma Cu_after_digit t :
  Str.starts_in Str.is_digit t = true ->
  Re.match_here [Re.Lit "Cu"; Re.GroupStar Str.is_digit] t = None.
Proof.
  destruct t as [|c t]; [discriminate|]. cbn [Str.starts_in]. intros Hc.
  cbn [Re.match_here Str.strip_prefix].
  destruct (Ascii.eqb_spec "C"%char c) as [<-|]; [discriminate | reflexivity].
Qed.

(** The match of the whole pattern, in one equation. *)
Lemma re_match_AlCu s :
  Re.re_match AlCu_re s =
  match Str.strip_prefix "Al" s with
  | None => None
  | Some s1 =>
      let k1 := Str.run_length Str.is_digit s1 in
      match Str.strip_prefix "Cu" (Str.drop k1 s1) with
      | None => None
      | Some s2 =>
          let k2 := Str.run_length Str.is_digit s2 in
          Some [Str.take k1 s1; Str.take k2 s2]
      end
  end.
Proof.
  unfold Re.re_match, AlCu_re.
  change (Re.match_here (Re.Lit "Al" :: ?p) s)
    with (match Str.strip_prefix "Al" s with Some s' => Re.match_here p s' | None => None end).
  destruct (Str.strip_prefix "Al" s) as [s1|]; [|reflexivity].
  change (Re.match_here (Re.GroupStar ?c :: ?p) s1)
    with (Re.backtrack (Re.match_here p) s1 (Str.run_length c s1)).
  rewrite backtrack_greedy by apply Cu_after_digit.
  cbv zeta.
  change (Re.match_here (Re.Lit "Cu" :: ?p) ?t)
    with (match Str.strip_prefix "Cu" t with Some s' => Re.match_here p s' | None => None end).
  destruct (Str.strip_prefix "Cu" _) as [s2|]; [|reflexivity].
  change (Re.match_here [Re.GroupStar ?c] s2)
    with (Re.backtrack (Re.match_here []) s2 (Str.run_length c s2)).
  now rewrite (backtrack_first _ _ _ []).
Qed.

Lemma stoich_count_eq d :
  (if (0 <? String.length d)%nat then Float (float_of_digits d) else Int 1) = stoich_count d.
Proof. destruct d; reflexivity. Qed.

Lemma starts_in_digit t : Str.starts_in Str.is_digit t = starts_with_digit t.
Proof. reflexivity. Qed.

(** [get_stoich] meets its specification on every string. *)
Lemma get_stoich_matches s : stoich_spec s (get_stoich s).
Proof.
  unfold get_stoich. rewrite re_match_AlCu.
  destruct (Str.strip_prefix "Al" s) as [s1|] eqn:HAl.
  - apply strip_prefix_Some in HAl. cbv zeta.
    destruct (Str.strip_prefix "Cu" _) as [s2|] eqn:HCu.
    + apply strip_prefix_Some in HCu.
      unfold Re.group. cbn [nth Nat.sub]. rewrite !stoich_count_eq.
      set (d1 := Str.take (Str.run_length Str.is_digit s1) s1) in *.
      set (d2 := Str.take (Str.run_length Str.is_digit s2) s2).
      assert (Hs : s = "Al" +:+ d1 +:+ "Cu" +:+ d2 +:+ Str.drop (Str.run_length Str.is_digit s2) s2).
      { rewrite HAl at 1. f_equal.
        rewrite <- (take_drop (Str.run_length Str.is_digit s1) s1) at 1. fold d1.
        rewrite HCu. unfold d2. now rewrite take_drop. }
      rewrite Hs at 1. constructor.
      * apply run_length_take.
      * apply run_length_take.
      * rewrite <- starts_in_digit. apply run_length_drop.
    + apply stoich_no_match. intros d1 rest Hd1 Hs.
      rewrite HAl in Hs. rewrite !string_app_cons, !string_app_nil in Hs. injection Hs as ->.
      rewrite (run_length_app _ d1 ("Cu" +:+ rest)), drop_app_length in HCu
        by (auto; reflexivity).
      discriminate.
  - apply stoich_no_match. intros d1 rest _ ->.
    rewrite strip_prefix_app in HAl. discriminate.
Qed.

(** C3: for every input string, [get_stoich] returns (0, 0) when the string
    does not begin with a match of the pattern Al, digits, Cu, digits, and
    otherwise the pair of the two digit groups read as numbers, with 1 for
    an empty group; AlCu gives (1, 1) and Al2Cu3 gives (2.0, 3.0).  A digit
    group below 2^53 is converted without rounding. *)
Theorem get_stoich_correct :
  (forall s, stoich_spec s (get_stoich s)) /\
  get_stoich "AlCu" = (Int 1, Int 1) /\
  get_stoich "Al2Cu3" = (Float (float_of_Z 2), Float (float_of_Z 3)) /\
  float_of_Z 2 = S754_finite false 4503599627370496 (-51) /\
  float_of_Z 3 = S754_finite false 6755399441055744 (-51) /\
  (forall digits, 0 < Str.decimal digits < 2 ^ 53 ->
     exists m e, float_of_digits digits = S754_finite false m e /\
                 -52 <= e <= 0 /\ Z.pos m = Str.decimal digits * 2 ^ (- e)).
Proof.
  split; [exact get_stoich_matches|].
  repeat (split; [reflexivity|]).
  intros digits H. apply float_of_Z_exact, H.
Qed.

(** ** The phase diagram and the toy function *)

(** *** Python numbers that are non-negative *)

Lemma nonneg_fgt0 f : nonneg f -> fgt0 f = negb (is_zero f).
Proof.
  destruct f as [s|s| |s m e]; simpl; try tauto.
  - now intros ->.
  - now intros [-> _].
Qed.

Lemma num_nonneg_ge0 a : num_nonneg a -> ge0 a = true.
Proof.
  destruct a as [z|f]; simpl; intros H; [lia | now apply nonneg_fge0].
Qed.

Lemma num_nonneg_gt0 a : num_nonneg a -> gt0 a = negb (eq0 a).
Proof.
  destruct a as [z|f]; simpl; intros H.
  - lia.
  - rewrite feq0_is_zero. now apply nonneg_fgt0.
Qed.

Lemma to_float_nonneg a :
  num_nonneg a -> nonneg (to_float a) /\ is_zero (to_float a) = eq0 a.
Proof.
  destruct a as [z|f]; simpl; intros H.
  - now apply float_of_Z_spec.
  - now rewrite feq0_is_zero.
Qed.

Lemma add_nonneg a b :
  num_nonneg a -> num_nonneg b ->
  num_nonneg (add a b) /\ eq0 (add a b) = eq0 a && eq0 b.
Proof.
  intros Ha Hb.
  destruct (to_float_nonneg a Ha) as [Hfa Hza], (to_float_nonneg b Hb) as [Hfb Hzb].
  destruct (fadd_nonneg _ _ Hfa Hfb) as [Hs Hz].
  destruct a as [x|f], b as [y|g]; cbn [add num_nonneg eq0];
    try (rewrite feq0_is_zero, Hz, Hza, Hzb; split; [exact Hs | reflexivity]).
  simpl in *. split; lia.
Qed.

Lemma decimal_from_nonneg s acc :
  Str.all Str.is_digit s = true -> 0 <= acc -> 0 <= Str.decimal_from acc s.
Proof.
  revert acc. induction s as [|c s IH]; intros acc; simpl; [auto|].
  intros H Hacc. apply andb_true_iff in H as [Hc Hs].
  apply IH; [exact Hs|].
  unfold Str.is_digit in Hc. apply andb_true_iff in Hc as [Hlo _].
  apply Nat.leb_le in Hlo. unfold Str.digit_value. lia.
Qed.

Lemma stoich_count_nonneg d :
  Str.all Str.is_digit d = true -> num_nonneg (stoich_count d).
Proof.
  intros Hd. destruct d as [|c d]; simpl; [lia|].
  apply float_of_Z_spec. now apply decimal_from_nonneg.
Qed.

Lemma get_stoich_nonneg s :
  num_nonneg (fst (get_stoich s)) /\ num_nonneg (snd (get_stoich s)).
Proof.
  destruct (get_stoich_matches s); simpl; [|lia].
  split; now apply stoich_count_nonneg.
Qed.

Lemma truediv_ok a b : eq0 b = false -> truediv a b = Ok (Float (fdiv (to_float a) (to_float b))).
Proof. unfold truediv. now intros ->. Qed.

(** C8: [get_stoich] returns two non-negative numbers whose sum is zero only
    when both are zero (and is positive otherwise); the loop body skips
    exactly the pairs that are zero twice, and for every other PIF
    [enthalpy_of_formation] and the Cu fraction are computed without a
    [ZeroDivisionError]; so the whole loop returns its list of points. *)
Theorem phase_diagram_divisor energy_Al energy_Cu AlCu_pifs :
  (forall s,
     ge0 (fst (get_stoich s)) = true /\ ge0 (snd (get_stoich s)) = true /\
     eq0 (add (fst (get_stoich s)) (snd (get_stoich s)))
       = eq0 (fst (get_stoich s)) && eq0 (snd (get_stoich s)) /\
     gt0 (add (fst (get_stoich s)) (snd (get_stoich s)))
       = negb (eq0 (fst (get_stoich s)) && eq0 (snd (get_stoich s)))) /\
  (forall p,
     let n_Al := fst (get_stoich (chemical_formula p)) in
     let n_Cu := snd (get_stoich (chemical_formula p)) in
     if eq0 n_Al && eq0 n_Cu
     then phase_point energy_Al energy_Cu p = Ok None
     else exists x h,
       enthalpy_of_formation (total_energy p) n_Al n_Cu energy_Al energy_Cu = Ok h /\
       phase_point energy_Al energy_Cu p = Ok (Some (x, h))) /\
  (exists points, phase_diagram energy_Al energy_Cu AlCu_pifs = Ok points).
Proof.
  assert (Hsum : forall s,
     eq0 (add (fst (get_stoich s)) (snd (get_stoich s)))
       = eq0 (fst (get_stoich s)) && eq0 (snd (get_stoich s)) /\
     eq0 (add (snd (get_stoich s)) (fst (get_stoich s)))
       = eq0 (fst (get_stoich s)) && eq0 (snd (get_stoich s)) /\
     num_nonneg (add (fst (get_stoich s)) (snd (get_stoich s)))).
  { intros s. destruct (get_stoich_nonneg s) as [Ha Hb].
    destruct (add_nonneg _ _ Ha Hb) as [H1 H2], (add_nonneg _ _ Hb Ha) as [_ H3].
    rewrite H2, H3. repeat split; auto. apply andb_comm. }
  assert (Hpoint : forall p,
     let n_Al := fst (get_stoich (chemical_formula p)) in
     let n_Cu := snd (get_stoich (chemical_formula p)) in
     if eq0 n_Al && eq0 n_Cu
     then phase_point energy_Al energy_Cu p = Ok None
     else exists x h,
       enthalpy_of_formation (total_energy p) n_Al n_Cu energy_Al energy_Cu = Ok h /\
       phase_point energy_Al energy_Cu p = Ok (Some (x, h))).
  { intros p. cbv zeta. unfold phase_point, enthalpy_of_formation.
    destruct (Hsum (chemical_formula p)) as (H1 & H2 & _).
    destruct (get_stoich (chemical_formula p)) as [n_Al n_Cu]. cbn [fst snd] in *.
    destruct (eq0 n_Al && eq0 n_Cu) eqn:Hskip; [reflexivity|].
    rewrite !truediv_ok by assumption. eexists _, _. split; reflexivity. }
  split; [|split].
  - intros s. destruct (get_stoich_nonneg s) as [Ha Hb].
    destruct (Hsum s) as (H1 & _ & Hn).
    rewrite (num_nonneg_gt0 _ Hn), H1.
    repeat split; auto using num_nonneg_ge0.
  - exact Hpoint.
  - unfold phase_diagram. generalize [(Float pos_zero, Float pos_zero); (Float (float_of_Z 1), Float pos_zero)].
    induction AlCu_pifs as [|p rest IH]; intros points; simpl; [eauto|].
    specialize (Hpoint p). cbv zeta in Hpoint.
    destruct (eq0 _ && eq0 _).
    + rewrite Hpoint. simpl. apply IH.
    + destruct Hpoint as (x & h & _ & ->). simpl. apply IH.
Qed.

(** *** Sums in any order *)

Lemma add_all_sums a l res : sums l res -> sums (l ++ a) (add_all res a).
Proof.
  revert l res. induction a as [|x a IH]; intros l res H; simpl.
  - now rewrite app_nil_r.
  - replace (l ++ x :: a) with ((l ++ [x]) ++ a) by now rewrite <- app_assoc.
    apply IH. apply sums_add; [exact H | constructor].
Qed.

Lemma accumulate_step cols r blk :
  Forall2 sums cols r -> length blk = length r ->
  Forall2 sums (zip_with (fun c x => c ++ [x]) cols blk) (zip_with fadd r blk) /\
  Permutation (concat (zip_with (fun c x => c ++ [x]) cols blk)) (concat cols ++ blk).
Proof.
  intros H. revert blk. induction H as [|c x cols r Hc _ IH]; intros [|y blk] Hlen;
    try discriminate; simpl.
  - split; constructor.
  - injection Hlen as Hlen. destruct (IH blk Hlen) as [H1 H2]. split.
    + constructor; [|exact H1]. apply sums_add; [exact Hc | constructor].
    + rewrite H2, <- !app_assoc. apply Permutation_app_head.
      rewrite (app_assoc [y]). rewrite (Permutation_app_comm [y] (concat cols)).
      now rewrite <- app_assoc.
Qed.

Lemma accumulate_sums blocks : forall cols r a,
  Forall2 sums cols r -> length r = 8%nat -> (8 * blocks <= length a)%nat ->
  exists cols',
    Forall2 sums cols' (accumulate r a blocks) /\
    length (accumulate r a blocks) = 8%nat /\
    Permutation (concat cols') (concat cols ++ take (8 * blocks) a).
Proof.
  induction blocks as [|blocks IH]; intros cols r a Hr Hlen Ha.
  - exists cols. simpl. rewrite app_nil_r. auto.
  - cbn [accumulate].
    assert (Hblk : length (take 8 a) = length r) by (rewrite length_take; lia).
    destruct (accumulate_step cols r (take 8 a) Hr Hblk) as [H1 H2].
    destruct (IH _ _ (drop 8 a) H1) as (cols' & H3 & H4 & H5).
    + rewrite length_zip_with, length_take. lia.
    + rewrite length_drop. lia.
    + exists cols'. split; [exact H3|]. split; [exact H4|].
      rewrite H5, H2, <- app_assoc. apply Permutation_app_head.
      replace (8 * S blocks)%nat with (8 + 8 * blocks)%nat by lia.
      now rewrite <- take_take_drop.
Qed.

Lemma add_pairs_sums cols r :
  Forall2 sums cols r -> length r = 8%nat -> sums (concat cols) (add_pairs r).
Proof.
  intros H Hlen.
  do 9 (destruct H as [|? ? ? ? ? H]; try discriminate). clear Hlen. simpl.
  rewrite app_nil_r.
  match goal with |- sums (?a0 ++ ?a1 ++ ?a2 ++ ?a3 ++ ?a4 ++ ?a5 ++ ?a6 ++ ?a7) _ =>
    replace (a0 ++ a1 ++ a2 ++ a3 ++ a4 ++ a5 ++ a6 ++ a7)
      with (((a0 ++ a1) ++ (a2 ++ a3)) ++ ((a4 ++ a5) ++ (a6 ++ a7)))
      by (now rewrite <- !app_assoc) end.
  repeat apply sums_add; assumption.
Qed.

Lemma block_sum_sums a : (8 <= length a)%nat -> sums a (block_sum a).
Proof.
  intros Hn. unfold block_sum. set (n := length a) in *.
  pose proof (Nat.div_mod_eq n 8) as Hdiv.
  pose proof (Nat.mod_upper_bound n 8 ltac:(lia)) as Hmod.
  assert (Hq : (1 <= n / 8)%nat) by (apply Nat.div_le_lower_bound; lia).
  destruct (accumulate_sums (n / 8 - 1) (map (fun x => [x]) (take 8 a)) (take 8 a) (drop 8 a))
    as (cols & H1 & H2 & H3).
  - clear. induction (take 8 a); constructor; [constructor | assumption].
  - rewrite length_take. fold n. lia.
  - rewrite length_drop. fold n. lia.
  - replace a with (take (n - n mod 8) a ++ drop (n - n mod 8) a) at 1
      by apply firstn_skipn.
    apply add_all_sums. apply (sums_perm (concat cols)); [|now apply add_pairs_sums].
    rewrite H3. replace (concat (map (fun x => [x]) (take 8 a))) with (take 8 a)
      by (clear; induction (take 8 a); simpl; congruence).
    rewrite take_take_drop. replace (8 + 8 * (n / 8 - 1))%nat with (n - n mod 8)%nat by lia.
    reflexivity.
Qed.

Lemma pairwise_sum_sums depth a : sums a (pairwise_sum depth a).
Proof.
  revert a. induction depth as [|depth IH]; intros a; cbn [pairwise_sum];
    destruct (Nat.ltb_spec (length a) 8);
    try (apply (add_all_sums a [] neg_zero); now constructor);
    destruct (Nat.leb_spec (length a) 128); try (now apply block_sum_sums).
  rewrite <- (firstn_skipn (length a / 2 - (length a / 2) mod 8) a) at 1.
  apply sums_add; apply IH.
Qed.

Lemma float64_sum_sums a : sums a (float64_sum a).
Proof.
  apply (sums_add [] a); [now constructor | apply pairwise_sum_sums].
Qed.


Lemma forallb_perm {A} (f : A -> bool) a b : Permutation a b -> forallb f a = forallb f b.
Proof.
  induction 1; simpl; try congruence.
  now rewrite !andb_assoc, (andb_comm (f y)).
Qed.

Lemma existsb_perm {A} (f : A -> bool) a b : Permutation a b -> existsb f a = existsb f b.
Proof.
  induction 1; simpl; try congruence.
  now rewrite !orb_assoc, (orb_comm (f y)).
Qed.

Lemma is_zero_nonneg z : is_zero z = true -> nonneg z.
Proof. destruct z; simpl; auto; discriminate. Qed.

(** A sum of non-negative items, in any order, is non-negative, and zero
    exactly when every item is zero. *)
Lemma sums_nonneg a r :
  sums a r -> Forall nonneg a -> nonneg r /\ is_zero r = forallb is_zero a.
Proof.
  induction 1 as [z Hz|x|a b x y _ IHa _ IHb|a b x Hp _ IH]; intros Ha.
  - split; [now apply is_zero_nonneg | exact Hz].
  - apply Forall_cons in Ha as [Hx _]. split; [exact Hx | simpl; now rewrite andb_true_r].
  - apply Forall_app in Ha as [Ha Hb].
    destruct (IHa Ha) as [Hx Zx], (IHb Hb) as [Hy Zy].
    destruct (fadd_nonneg x y Hx Hy) as [Hs Zs].
    split; [exact Hs|]. now rewrite Zs, Zx, Zy, forallb_app.
  - rewrite <- Hp in Ha. destruct (IH Ha) as [Hx Zx].
    split; [exact Hx|]. now rewrite Zx, (forallb_perm _ _ _ Hp).
Qed.

(** A sum of items that are non-negative or NaN is NaN exactly when an item
    is. *)
Lemma sums_nan a r :
  sums a r -> Forall (fun x => nonneg x \/ x = S754_nan) a ->
  (nonneg r \/ r = S754_nan) /\ is_nan r = existsb is_nan a.
Proof.
  induction 1 as [z Hz|x|a b x y _ IHa _ IHb|a b x Hp _ IH]; intros Ha.
  - split; [left; now apply is_zero_nonneg | now destruct z].
  - apply Forall_cons in Ha as [Hx _]. split; [exact Hx | simpl; now rewrite orb_false_r].
  - apply Forall_app in Ha as [Ha Hb].
    destruct (IHa Ha) as [Hx Nx], (IHb Hb) as [Hy Ny].
    rewrite existsb_app, <- Nx, <- Ny.
    destruct Hx as [Hx | ->]; [destruct Hy as [Hy | ->]|].
    + destruct (fadd_nonneg x y Hx Hy) as [Hs _]. split; [now left|].
      now rewrite !nonneg_not_nan.
    + rewrite fadd_nan_r. split; [now right | simpl; now rewrite orb_true_r].
    + rewrite fadd_nan_l. split; [now right | reflexivity].
  - rewrite <- Hp in Ha. destruct (IH Ha) as [Hx Nx].
    split; [exact Hx|]. now rewrite Nx, (existsb_perm _ _ _ Hp).
Qed.

Lemma fadd_infinite x y :
  nonneg x -> nonneg y -> is_infinite x || is_infinite y = true ->
  fadd x y = S754_infinity false.
Proof.
  destruct x as [sa|sa| |sa ma ea], y as [sx|sx| |sx mx ex]; simpl;
    try discriminate; try tauto; intros; subst; reflexivity.
Qed.

(** A sum of non-negative items with an infinite one is plus infinity. *)
Lemma sums_infinite a r :
  sums a r -> Forall nonneg a -> existsb is_infinite a = true -> r = S754_infinity false.
Proof.
  induction 1 as [z Hz|x|a b x y Sa IHa Sb IHb|a b x Hp _ IH]; intros Ha Hinf.
  - discriminate.
  - apply Forall_cons in Ha as [Hx _]. simpl in Hinf. rewrite orb_false_r in Hinf.
    destruct x as [| [] | |]; simpl in *; try discriminate; reflexivity.
  - apply Forall_app in Ha as [Ha Hb].
    destruct (sums_nonneg _ _ Sa Ha) as [Hx _], (sums_nonneg _ _ Sb Hb) as [Hy _].
    rewrite existsb_app in Hinf. apply fadd_infinite; [exact Hx | exact Hy |].
    destruct (existsb is_infinite a) eqn:Ea.
    + now rewrite (IHa Ha eq_refl).
    + simpl in Hinf. rewrite (IHb Hb Hinf). apply orb_true_r.
  - rewrite <- Hp in Ha. apply IH; [exact Ha|]. now rewrite (existsb_perm _ _ _ Hp).
Qed.

(** *** toy_func *)

Lemma squares_nonneg (a : list float) :
  Forall (fun x => is_nan x = false) a -> Forall nonneg (map (fun x => fmul x x) a).
Proof. intros H. apply Forall_map. eapply Forall_impl; [exact H|]. apply fmul_self_nonneg. Qed.

Lemma int64_wrap_small z : in_int64 z -> int64_wrap z = z.
Proof. unfold in_int64, int64_wrap. intros H. rewrite Z.mod_small; lia. Qed.

Lemma sum_squares_nonneg a : 0 <= sum_squares a.
Proof. induction a as [|x a IH]; simpl; nia. Qed.

Lemma sum_squares_zero a : sum_squares a = 0 <-> Forall (fun x => x = 0) a.
Proof.
  induction a as [|x a IH]; simpl.
  - split; [constructor | reflexivity].
  - pose proof (sum_squares_nonneg a). split.
    + intros H0. constructor; [nia|]. apply IH. nia.
    + intros H0. apply Forall_cons in H0 as [-> H0]. apply IH in H0. lia.
Qed.

(** Below 2^63 the int64 arithmetic does not wrap. *)
Lemma int64_sum_squares a res :
  0 <= res -> res + sum_squares a < 2 ^ 63 ->
  fold_left (fun res x => int64_wrap (res + x)) (map (fun x => int64_wrap (x * x)) a) res
  = res + sum_squares a.
Proof.
  revert res. induction a as [|x a IH]; intros res Hres Hsum; simpl in *; [lia|].
  pose proof (sum_squares_nonneg a).
  rewrite (int64_wrap_small (x * x)) by (unfold in_int64; nia).
  rewrite (int64_wrap_small (res + x * x)) by (unfold in_int64; nia).
  rewrite IH by nia. lia.
Qed.

(** C4, amended: [toy_func] is the sum of the squares of its inputs as
    numpy computes it.  For an array of binary64 inputs without NaN the
    result is a float that is non-negative, that is zero exactly when the
    square of every input rounds to zero, and so is zero when every input is
    zero.  For an array of int64 inputs whose squares add up to less than
    2^63 the result is that sum, an integer that is non-negative and zero
    exactly when every input is zero. *)
Theorem toy_func_sign :
  (forall a, Forall (fun x => is_nan x = false) a ->
     exists r,
       toy_func (Float64 a) = Float r /\
       fge0 r = true /\
       feq0 r = forallb (fun x => feq0 (fmul x x)) a /\
       (Forall (fun x => feq0 x = true) a -> feq0 r = true)) /\
  (forall a, sum_squares a < 2 ^ 63 ->
     toy_func (Int64 a) = Int (sum_squares a) /\
     0 <= sum_squares a /\
     (sum_squares a = 0 <-> Forall (fun x => x = 0) a)).
Proof.
  split.
  - intros a Ha. exists (float64_sum (map (fun x => fmul x x) a)).
    split; [reflexivity|].
    destruct (sums_nonneg _ _ (float64_sum_sums _) (squares_nonneg a Ha)) as [Hn Hz].
    assert (Heq : feq0 (float64_sum (map (fun x => fmul x x) a))
                  = forallb (fun x => feq0 (fmul x x)) a).
    { rewrite feq0_is_zero, Hz. clear. induction a as [|x a IH]; simpl; [reflexivity|].
      now rewrite IH, feq0_is_zero. }
    split; [now apply nonneg_fge0|]. split; [exact Heq|].
    intros Hall. rewrite Heq. apply forallb_forall. intros x Hx.
    rewrite Forall_forall in Hall. apply list_elem_of_In in Hx. specialize (Hall x Hx).
    destruct x as [s|[]| |[] m e]; try discriminate. now destruct s.
  - intros a Ha. split; [|split].
    + unfold toy_func, np_square, np_sum. f_equal.
      rewrite int64_sum_squares; [lia | lia | exact Ha].
    + apply sum_squares_nonneg.
    + apply sum_squares_zero.
Qed.

(** C4 as stated fails: 2^-600 is a binary64 other than zero whose square
    underflows, so [toy_func] is zero on it. *)
Lemma toy_func_underflow :
  valid_binary prec emax tiny = true /\
  feq0 tiny = false /\ toy_func (Float64 [tiny]) = Float pos_zero.
Proof. vm_compute. auto. Qed.

(** It fails on integers too: the square of 2^32 wraps around to 0, and the
    square of 3037000500 to a negative number. *)
Lemma toy_func_wraps :
  toy_func (Int64 [4294967296]) = Int 0 /\
  toy_func (Int64 [3037000500]) = Int (-9223372036709301616).
Proof. split; reflexivity. Qed.

(** The amended C4 at the floats 3.0 and 4.0 and at the integers 3 and 4. *)
Lemma toy_func_sign_witness :
  (exists r,
     toy_func (Float64 [three; four]) = Float r /\
     fge0 r = true /\
     feq0 r = forallb (fun x => feq0 (fmul x x)) [three; four] /\
     (Forall (fun x => feq0 x = true) [three; four] -> feq0 r = true)) /\
  (toy_func (Int64 [3; 4]) = Int 25 /\ 0 <= 25 /\
   (25 = 0 <-> Forall (fun x => x = 0) [3; 4])).
Proof.
  destruct toy_func_sign as [Hfloat Hint]. split.
  - apply (Hfloat [three; four]). repeat constructor.
  - apply (Hint [3; 4]). reflexivity.
Defined.

(** ** The likelihood of improvement *)

Lemma sqrt2_value : sqrt2 = S754_finite false 6369051672525773 (-52).
Proof. vm_compute. reflexivity. Qed.

(** The divisor of the quotient is not zero: sigma times the square root of
    two does not underflow. *)
Lemma sigma_sqrt2_positive sigma :
  valid_binary prec emax sigma = true -> fgt0 sigma = true ->
  exists m e, fmul sigma sqrt2 = S754_finite false m e \/ fmul sigma sqrt2 = S754_infinity false.
Proof.
  intros Hv Hpos. rewrite sqrt2_value.
  destruct sigma as [s|[]| |[] m e]; try discriminate.
  - exists 1%positive, 0. now right.
  - apply valid_exponent in Hv. unfold fmul, SFmul. cbn [xorb].
    destruct (binary_round_aux_spec false (Z.pos (m * 6369051672525773)) (e + -52) loc_Exact)
      as [Hr _]; [lia|].
    destruct (binary_round_aux_nonzero false (Z.pos (m * 6369051672525773)) (e + -52) loc_Exact)
      as [Hz _]; [lia| |].
    + cbn [Zdigits2]. pose proof (digits2_pos_bounds (m * 6369051672525773)) as [_ Hhi].
      assert (52 < Z.pos (digits2_pos (m * 6369051672525773))); [|lia].
      destruct (Z_lt_le_dec 52 (Z.pos (digits2_pos (m * 6369051672525773)))) as [|Hle];
        [assumption|].
      assert (2 ^ Z.pos (digits2_pos (m * 6369051672525773)) <= 2 ^ 52)
        by (apply Z.pow_le_mono_r; lia).
      rewrite Pos2Z.inj_mul in Hhi. lia.
    + destruct (binary_round_aux prec emax false _ _ _) as [s'|s'| |s' m' e'];
        simpl in *; try discriminate; try tauto.
      * exists 1%positive, 0. right. now subst.
      * exists m', e'. left. now destruct Hr as [-> _].
Qed.

(** ** Shifting keeps the location *)


Lemma loc_record_id r :
  shr_record_of_loc (shr_m r) (loc_of_shr_record r) = r.
Proof. destruct r as [m [] []]; reflexivity. Qed.

Lemma record_loc_id m l : loc_of_shr_record (shr_record_of_loc m l) = l.
Proof. destruct l as [|[]]; reflexivity. Qed.

Lemma located_shr_1 n d r :
  located n d (shr_m r) (loc_of_shr_record r) ->
  located n (2 * d) (shr_m (shr_1 r)) (loc_of_shr_record (shr_1 r)).
Proof.
  intros (Hd & Hn & Hm & Hl).
  pose proof (Z.div_mod n d ltac:(lia)) as Hdm.
  pose proof (Z.mod_pos_bound n d Hd) as Hr.
  assert (Hm0 : 0 <= shr_m r) by (rewrite Hm; apply Z.div_pos; lia).
  pose proof (Z.div_mod (shr_m r) 2 ltac:(lia)) as Hdm2.
  pose proof (Z.mod_pos_bound (shr_m r) 2 ltac:(lia)) as Hr2.
  set (R := n mod d) in *. set (q := shr_m r / 2) in *. set (b := shr_m r mod 2) in *.
  assert (Hq : n / (2 * d) = q /\ n mod (2 * d) = b * d + R).
  { assert (n = (2 * d) * q + (b * d + R)) by nia.
    split; [symmetry; apply (Z.div_unique_pos n (2 * d) q (b * d + R))
           | symmetry; apply (Z.mod_unique_pos n (2 * d) q (b * d + R))]; nia. }
  destruct Hq as [Hq1 Hq2].
  assert (Hs : orb (shr_r r) (shr_s r) = negb (R =? 0)).
  { unfold locate in Hl. destruct r as [m [] []]; simpl in *;
      destruct (R =? 0) eqn:E; try discriminate; try reflexivity;
      destruct (2 * R ?= d); discriminate. }
  assert (Hm' : shr_m (shr_1 r) = q /\ shr_r (shr_1 r) = (b =? 1)
                /\ shr_s (shr_1 r) = negb (R =? 0)).
  { rewrite <- Hs. subst q b. clear -Hm0. destruct r as [[|[p|p|]|p] rr ss]; simpl in *;
      try lia; repeat split; try reflexivity.
    - rewrite Pos2Z.inj_xI. rewrite (Z.mul_comm 2), Z.div_add_l by lia. reflexivity.
    - rewrite Pos2Z.inj_xI. rewrite (Z.mul_comm 2), Z.add_comm, Z.mod_add by lia. reflexivity.
    - rewrite Pos2Z.inj_xO. rewrite (Z.mul_comm 2), Z.div_mul by lia. reflexivity.
    - rewrite Pos2Z.inj_xO. rewrite (Z.mul_comm 2), Z.mod_mul by lia. reflexivity. }
  destruct Hm' as (E1 & E2 & E3).
  repeat split; try lia.
  rewrite Hq2. unfold locate.
  destruct (shr_1 r) as [m' r' s']. simpl in *. subst m' r' s'.
  assert (b = 0 \/ b = 1) as [-> | ->] by lia; simpl;
    rewrite ?Z.mul_0_l, ?Z.add_0_l, ?Z.mul_1_l.
  - destruct (R =? 0) eqn:E; simpl.
    + reflexivity.
    + apply Z.eqb_neq in E. replace (2 * R ?= 2 * d) with Lt; [reflexivity|].
      symmetry. apply Z.compare_lt_iff. lia.
  - replace (d + R =? 0) with false by (symmetry; apply Z.eqb_neq; lia).
    destruct (R =? 0) eqn:E; simpl.
    + apply Z.eqb_eq in E. replace (2 * (d + R) ?= 2 * d) with Eq; [reflexivity|].
      symmetry. apply Z.compare_eq_iff. lia.
    + apply Z.eqb_neq in E. replace (2 * (d + R) ?= 2 * d) with Gt; [reflexivity|].
      symmetry. apply Z.compare_gt_iff. lia.
Qed.

Lemma located_iter n d r k :
  located n d (shr_m r) (loc_of_shr_record r) ->
  located n (d * 2 ^ Z.of_nat k) (shr_m (Nat.iter k shr_1 r))
    (loc_of_shr_record (Nat.iter k shr_1 r)).
Proof.
  intros H. induction k as [|k IH].
  - simpl. now rewrite Z.mul_1_r.
  - rewrite Nat2Z.inj_succ, Z.pow_succ_r by lia. simpl.
    replace (d * (2 * 2 ^ Z.of_nat k)) with (2 * (d * 2 ^ Z.of_nat k)) by lia.
    now apply located_shr_1.
Qed.

(** A shift by [k >= 0] places. *)
Lemma located_shr n d m l e k :
  located n d m l -> 0 <= k ->
  exists r, shr (shr_record_of_loc m l) e k = (r, e + k) /\
    located n (d * 2 ^ k) (shr_m r) (loc_of_shr_record r).
Proof.
  intros H Hk. unfold shr. destruct k as [|p|p]; try lia.
  - exists (shr_record_of_loc m l). rewrite Z.add_0_r, Z.mul_1_r, shr_m_record_of_loc, record_loc_id.
    auto.
  - exists (SpecFloat.iter_pos shr_1 p (shr_record_of_loc m l)). split; [reflexivity|].
    rewrite iter_pos_nat. rewrite <- (positive_nat_Z p).
    apply located_iter. now rewrite shr_m_record_of_loc, record_loc_id.
Qed.

Lemma rne_located n d m l :
  located n d m l -> round_nearest_even m l = rnd n d.
Proof.
  intros (Hd & Hn & -> & ->). unfold rnd, locate, round_nearest_even.
  pose proof (Z.mod_pos_bound n d Hd) as Hr.
  destruct (n mod d =? 0) eqn:E.
  - apply Z.eqb_eq in E. rewrite E. cbv zeta. change (2 * 0) with 0.
    replace (d <? 0) with false by (symmetry; apply Z.ltb_ge; lia).
    replace (0 =? d) with false by (symmetry; apply Z.eqb_neq; lia). reflexivity.
  - cbv zeta. destruct (2 * (n mod d) ?= d) eqn:C.
    + apply Z.compare_eq_iff in C. rewrite C, Z.ltb_irrefl, Z.eqb_refl.
      rewrite <- Z.negb_even. destruct (Z.even (n / d)); reflexivity.
    + change (2 * (n mod d) < d) in C.
      replace (d <? 2 * (n mod d)) with false by (symmetry; apply Z.ltb_ge; lia).
      replace (2 * (n mod d) =? d) with false by (symmetry; apply Z.eqb_neq; lia). reflexivity.
    + change (2 * (n mod d) > d) in C.
      replace (d <? 2 * (n mod d)) with true by (symmetry; apply Z.ltb_lt; lia). reflexivity.
Qed.

Lemma rnd_bounds n d : 0 < d -> n / d <= rnd n d <= n / d + 1.
Proof. intros. unfold rnd. destruct (_ || _); lia. Qed.

Lemma rnd_mono n1 n2 d : 0 < d -> n1 <= n2 -> rnd n1 d <= rnd n2 d.
Proof.
  intros Hd Hn.
  pose proof (Z.div_le_mono n1 n2 d Hd Hn) as Hq.
  pose proof (rnd_bounds n1 d Hd). pose proof (rnd_bounds n2 d Hd).
  destruct (Z.eq_dec (n1 / d) (n2 / d)) as [E|E]; [|lia].
  pose proof (Z.div_mod n1 d ltac:(lia)) as H1.
  pose proof (Z.div_mod n2 d ltac:(lia)) as H2.
  assert (Hr : n1 mod d <= n2 mod d) by (rewrite E in H1; lia).
  unfold rnd. rewrite E.
  destruct (d <? 2 * (n1 mod d)) eqn:A1; simpl.
  - apply Z.ltb_lt in A1.
    replace (d <? 2 * (n2 mod d)) with true by (symmetry; apply Z.ltb_lt; lia). simpl. lia.
  - destruct ((2 * (n1 mod d) =? d) && Z.odd (n2 / d)) eqn:B1.
    + apply andb_true_iff in B1 as [B1 B2]. apply Z.eqb_eq in B1.
      destruct (d <? 2 * (n2 mod d)) eqn:A2; simpl; [lia|].
      apply Z.ltb_ge in A2.
      replace (2 * (n2 mod d) =? d) with true by (symmetry; apply Z.eqb_eq; lia).
      rewrite B2. simpl. lia.
    + destruct (_ || _); lia.
Qed.

Lemma rnd_exact m d : 0 < d -> rnd (m * d) d = m.
Proof.
  intros Hd. unfold rnd. rewrite Z.div_mul, Z.mod_mul by lia. cbv zeta. change (2 * 0) with 0.
  replace (d <? 0) with false by (symmetry; apply Z.ltb_ge; lia).
  replace (0 =? d) with false by (symmetry; apply Z.eqb_neq; lia). reflexivity.
Qed.

(** ** Binary digits *)

Lemma Zdigits2_bounds x : 0 < x -> 2 ^ (Zdigits2 x - 1) <= x < 2 ^ Zdigits2 x.
Proof. destruct x as [|p|p]; try lia. intros _. apply digits2_pos_bounds. Qed.

Lemma Zdigits2_le x k : 0 <= x -> 0 <= k -> x < 2 ^ k -> Zdigits2 x <= k.
Proof.
  intros Hx Hk Hlt. destruct (Z.eq_dec x 0) as [->|Hne]; [simpl; lia|].
  pose proof (Zdigits2_bounds x ltac:(lia)) as [Hlo _].
  destruct (Z_le_gt_dec (Zdigits2 x) k) as [|Hgt]; [assumption|].
  assert (2 ^ k <= 2 ^ (Zdigits2 x - 1)) by (apply Z.pow_le_mono_r; lia). lia.
Qed.

Lemma Zdigits2_gt x k : 0 <= k -> 2 ^ k <= x -> k < Zdigits2 x.
Proof.
  intros Hk Hle. assert (0 < 2 ^ k) by (apply Z.pow_pos_nonneg; lia).
  pose proof (Zdigits2_bounds x ltac:(lia)) as [_ Hhi].
  pose proof (Zdigits2_pos x ltac:(lia)).
  destruct (Z_lt_le_dec k (Zdigits2 x)) as [|Hge]; [assumption|].
  assert (2 ^ Zdigits2 x <= 2 ^ k) by (apply Z.pow_le_mono_r; lia). lia.
Qed.

Lemma Zdigits2_mono x y : 0 <= x <= y -> Zdigits2 x <= Zdigits2 y.
Proof.
  intros [Hx Hxy]. destruct (Z.eq_dec y 0) as [->|Hy].
  - replace x with 0 by lia. lia.
  - pose proof (Zdigits2_bounds y ltac:(lia)) as [_ Hhi].
    pose proof (Zdigits2_pos y ltac:(lia)).
    apply Zdigits2_le; lia.
Qed.

Lemma Zdigits2_shift x k :
  0 <= k -> 2 ^ k <= x -> Zdigits2 (x / 2 ^ k) = Zdigits2 x - k.
Proof.
  intros Hk Hle. assert (Hp : 0 < 2 ^ k) by (apply Z.pow_pos_nonneg; lia).
  pose proof (Zdigits2_bounds x ltac:(lia)) as [Hlo Hhi].
  pose proof (Zdigits2_gt x k Hk Hle) as Hd.
  assert (Hq : 0 < x / 2 ^ k) by (apply Z.div_str_pos; lia).
  pose proof (Zdigits2_bounds (x / 2 ^ k) Hq) as [Hlo' Hhi'].
  pose proof (Zdigits2_pos _ Hq) as Hd'.
  apply Z.le_antisymm.
  - apply Zdigits2_le; try lia.
    apply Z.div_lt_upper_bound; [lia|].
    rewrite <- Z.pow_add_r by lia. now replace (k + (Zdigits2 x - k)) with (Zdigits2 x) by lia.
  - assert (Zdigits2 x - k - 1 < Zdigits2 (x / 2 ^ k)); [|lia].
    apply Zdigits2_gt; [lia|].
    apply Z.div_le_lower_bound; [lia|].
    rewrite <- Z.pow_add_r by lia. now replace (k + (Zdigits2 x - k - 1)) with (Zdigits2 x - 1) by lia.
Qed.

(** ** The rounding of SpecFloat is [Round] *)

Lemma fexp_eq b : fexp prec emax b = Z.max (b - 53) (-1074).
Proof. reflexivity. Qed.

Lemma emin64_eq : emin64 = -1074.
Proof. reflexivity. Qed.

Lemma canon_exp n d e0 e :
  0 < d -> 0 <= n -> e0 <= e -> e0 <= emin64 ->
  e <= fexp prec emax (Zdigits2 (n / (d * 2 ^ (e - e0))) + e) ->
  fexp prec emax (Zdigits2 (n / (d * 2 ^ (e - e0))) + e)
  = fexp prec emax (Zdigits2 (n / d) + e0).
Proof.
  intros Hd Hn He0 Hmin Hpre. rewrite emin64_eq in Hmin.
  assert (Hp : 0 < 2 ^ (e - e0)) by (apply Z.pow_pos_nonneg; lia).
  rewrite <- Z.div_div in * by lia.
  assert (Hq : 0 <= n / d) by (apply Z.div_pos; lia).
  set (q := n / d) in *.
  destruct (Z_lt_le_dec (q / 2 ^ (e - e0)) 1) as [Hz|Hpos].
  - assert (Hm : q / 2 ^ (e - e0) = 0).
    { pose proof (Z.div_pos q (2 ^ (e - e0)) Hq Hp). lia. }
    assert (q < 2 ^ (e - e0)) by (apply Z.div_small_iff in Hm; lia).
    rewrite Hm in *. simpl Zdigits2 in *. rewrite !fexp_eq in *.
    pose proof (Zdigits2_le q (e - e0) Hq ltac:(lia) H). lia.
  - assert (2 ^ (e - e0) <= q).
    { destruct (Z_lt_le_dec q (2 ^ (e - e0))) as [Hlt|]; [|assumption].
      rewrite Z.div_small in Hpos by lia. lia. }
    rewrite Zdigits2_shift by lia. f_equal. lia.
Qed.

Lemma rnd_canon_bounds n d e0 :
  0 < d -> 0 <= n -> e0 <= emin64 ->
  let c := fexp prec emax (Zdigits2 (n / d) + e0) in
  0 <= rnd n (d * 2 ^ (c - e0)) <= 2 ^ 53.
Proof.
  intros Hd Hn Hmin c. rewrite emin64_eq in Hmin.
  assert (Hc : -1074 <= c /\ Zdigits2 (n / d) + e0 - 53 <= c) by (subst c; rewrite fexp_eq; lia).
  assert (Hp : 0 < 2 ^ (c - e0)) by (apply Z.pow_pos_nonneg; lia).
  assert (Hq : 0 <= n / d) by (apply Z.div_pos; lia).
  pose proof (rnd_bounds n (d * 2 ^ (c - e0)) ltac:(nia)) as Hb.
  rewrite <- Z.div_div in Hb by lia.
  assert (0 <= n / d / 2 ^ (c - e0)) by (apply Z.div_pos; lia).
  assert (n / d / 2 ^ (c - e0) < 2 ^ 53); [|lia].
  apply Z.div_lt_upper_bound; [lia|].
  rewrite <- Z.pow_add_r by lia.
  destruct (Z.eq_dec (n / d) 0) as [->|Hne]; [apply Z.pow_pos_nonneg; lia|].
  pose proof (Zdigits2_bounds (n / d) ltac:(lia)) as [_ Hhi].
  eapply Z.lt_le_trans; [exact Hhi|]. apply Z.pow_le_mono_r; lia.
Qed.

(** After the rounding, the second alignment only acts on 2^53. *)
Lemma shr_fexp_rounded sx m c :
  emin64 <= c -> 0 <= m <= 2 ^ 53 ->
  let '(r, e) := shr_fexp prec emax m c loc_Exact in
  mk sx (shr_m r) e = finish sx m c.
Proof.
  intros Hc Hm. rewrite emin64_eq in Hc. unfold shr_fexp, finish.
  destruct (Z.eq_dec m (2 ^ 53)) as [->|Hne].
  - change (Zdigits2 (2 ^ 53)) with 54. rewrite fexp_eq.
    replace (Z.max (54 + c - 53) (-1074) - c) with 1 by lia.
    reflexivity.
  - replace (m =? 2 ^ prec) with false by (symmetry; apply Z.eqb_neq; exact Hne).
    assert (Zdigits2 m <= 53) by (apply Zdigits2_le; lia).
    rewrite fexp_eq. unfold shr.
    destruct (Z.max (Zdigits2 m + c - 53) (-1074) - c) eqn:E; try lia; reflexivity.
Qed.

Theorem binary_round_aux_Round sx n d e0 m e l :
  0 < d -> e0 <= e -> e0 <= emin64 ->
  located n (d * 2 ^ (e - e0)) m l ->
  e <= fexp prec emax (Zdigits2 m + e) ->
  binary_round_aux prec emax sx m e l = Round sx n d e0.
Proof.
  intros Hd He0 Hmin Hloc Hpre.
  pose proof Hloc as (HD & Hn & Hm & _).
  unfold binary_round_aux. unfold shr_fexp at 1.
  set (k := fexp prec emax (Zdigits2 m + e) - e).
  destruct (located_shr _ _ _ _ e k Hloc ltac:(lia)) as (r & -> & Hloc').
  rewrite (rne_located _ _ _ _ Hloc').
  assert (Hc : e + k = fexp prec emax (Zdigits2 (n / d) + e0)).
  { subst k. rewrite Hm in *. rewrite canon_exp in * by assumption. lia. }
  rewrite Hc. set (c := fexp prec emax (Zdigits2 (n / d) + e0)) in *.
  assert (emin64 <= c) by (subst c; apply fexp_ge_emin).
  replace (d * 2 ^ (e - e0) * 2 ^ k) with (d * 2 ^ (c - e0)).
  2:{ rewrite <- Z.mul_assoc, <- Z.pow_add_r by lia. do 2 f_equal. lia. }
  pose proof (rnd_canon_bounds n d e0 Hd Hn Hmin) as Hb. cbv zeta in Hb. fold c in Hb.
  pose proof (shr_fexp_rounded sx _ c H Hb) as Hfin.
  destruct (shr_fexp prec emax _ c loc_Exact) as [r2 e2].
  unfold Round. fold c. rewrite <- Hfin. reflexivity.
Qed.

(** ** [Round] is monotone *)

Lemma compare_cont_Eq p q : Pos.compare_cont Eq p q = (p ?= q)%positive.
Proof. reflexivity. Qed.

Lemma mk_le m1 e1 m2 e2 :
  0 <= m1 -> 0 <= m2 ->
  (e1 < e2 /\ 0 < m2) \/ (e1 = e2 /\ m1 <= m2) ->
  SFleb (mk false m1 e1) (mk false m2 e2) = true.
Proof.
  intros H1 H2 H. unfold mk.
  destruct m1 as [|p1|p1]; try lia.
  - destruct m2 as [|p2|p2]; try lia; [reflexivity|].
    destruct (e2 <=? emax - prec); reflexivity.
  - destruct m2 as [|p2|p2]; try lia.
    destruct (e1 <=? emax - prec) eqn:E1, (e2 <=? emax - prec) eqn:E2;
      try reflexivity.
    + unfold SFleb, SFcompare. destruct H as [[H _]|[-> H]].
      * apply Z.compare_lt_iff in H. now rewrite H.
      * rewrite Z.compare_refl, compare_cont_Eq. simpl.
        destruct (p1 ?= p2)%positive eqn:C; try reflexivity.
        apply Pos.compare_gt_iff in C. lia.
    + apply Z.leb_le in E2. apply Z.leb_gt in E1. lia.
Qed.

Lemma finish_le m1 c1 m2 c2 :
  0 <= m1 <= 2 ^ 53 -> 0 <= m2 <= 2 ^ 53 ->
  (c1 = c2 /\ m1 <= m2) \/ (c1 < c2 /\ 2 ^ 52 <= m2) ->
  SFleb (finish false m1 c1) (finish false m2 c2) = true.
Proof.
  intros H1 H2 H. unfold finish. change (2 ^ prec) with (2 ^ 53).
  change (2 ^ (prec - 1)) with (2 ^ 52).
  destruct (Z.eqb_spec m1 (2 ^ 53)), (Z.eqb_spec m2 (2 ^ 53)); apply mk_le; lia.
Qed.

Lemma rnd_canon_normal n d e0 :
  0 < d -> 0 <= n -> e0 <= emin64 ->
  let c := fexp prec emax (Zdigits2 (n / d) + e0) in
  emin64 < c -> 2 ^ 52 <= rnd n (d * 2 ^ (c - e0)).
Proof.
  intros Hd Hn Hmin c Hc. rewrite emin64_eq in *.
  assert (Hc' : c = Zdigits2 (n / d) + e0 - 53) by (subst c; rewrite fexp_eq in *; lia).
  assert (Hp : 0 < 2 ^ (c - e0)) by (apply Z.pow_pos_nonneg; lia).
  pose proof (rnd_bounds n (d * 2 ^ (c - e0)) ltac:(nia)) as Hb.
  rewrite <- Z.div_div in Hb by lia.
  assert (2 ^ 52 <= n / d / 2 ^ (c - e0)); [|lia].
  assert (Hq : 0 < n / d).
  { destruct (Z.eq_dec (n / d) 0) as [E|E].
    - rewrite E in Hc'. simpl in Hc'. lia.
    - pose proof (Z.div_pos n d Hn Hd). lia. }
  pose proof (Zdigits2_bounds _ Hq) as [Hlo _].
  apply Z.div_le_lower_bound; [lia|].
  rewrite <- Z.pow_add_r by lia.
  now replace (c - e0 + 52) with (Zdigits2 (n / d) - 1) by lia.
Qed.

Theorem Round_mono n1 n2 d e0 :
  0 < d -> 0 <= n1 <= n2 -> e0 <= emin64 ->
  SFleb (Round false n1 d e0) (Round false n2 d e0) = true.
Proof.
  intros Hd [H1 H12] Hmin. unfold Round.
  pose proof (rnd_canon_bounds n1 d e0 Hd H1 Hmin) as B1.
  pose proof (rnd_canon_bounds n2 d e0 Hd ltac:(lia) Hmin) as B2.
  pose proof (rnd_canon_normal n2 d e0 Hd ltac:(lia) Hmin) as N2.
  cbv zeta in *.
  assert (Hq : 0 <= n1 / d <= n2 / d).
  { split; [apply Z.div_pos; lia | apply Z.div_le_mono; lia]. }
  pose proof (Zdigits2_mono _ _ Hq) as Hdig.
  set (c1 := fexp prec emax (Zdigits2 (n1 / d) + e0)) in *.
  set (c2 := fexp prec emax (Zdigits2 (n2 / d) + e0)) in *.
  assert (Hc : emin64 <= c1 <= c2).
  { subst c1 c2. rewrite emin64_eq, !fexp_eq. lia. }
  apply finish_le; try assumption.
  destruct (Z.eq_dec c1 c2) as [E|E].
  - left. split; [assumption|]. rewrite E. apply rnd_mono; [|lia].
    apply Z.mul_pos_pos; [lia|]. apply Z.pow_pos_nonneg; lia.
  - right. split; [lia|]. apply N2. lia.
Qed.

(** ** The result of [Round] is a valid float of the given sign *)

Lemma canonical_facts m e :
  canonical_mantissa prec emax m e = true ->
  emin64 <= e /\ Zpos m < 2 ^ 53 /\ (emin64 < e -> 2 ^ 52 <= Zpos m).
Proof.
  unfold canonical_mantissa. intros H. apply Z.eqb_eq in H.
  rewrite fexp_eq in H. rewrite emin64_eq.
  pose proof (digits2_pos_bounds m) as [Hlo Hhi].
  repeat split; try lia.
  - eapply Z.lt_le_trans; [exact Hhi|]. apply Z.pow_le_mono_r; lia.
  - intros He. etransitivity; [|exact Hlo]. apply Z.pow_le_mono_r; lia.
Qed.

Lemma canonical_intro m e :
  emin64 <= e -> 0 < m < 2 ^ 53 -> (emin64 < e -> 2 ^ 52 <= m) ->
  fexp prec emax (Zdigits2 m + e) = e.
Proof.
  rewrite emin64_eq, fexp_eq. intros He Hm Hn.
  assert (Zdigits2 m <= 53) by (apply Zdigits2_le; lia).
  destruct (Z.eq_dec e (-1074)) as [->|E]; [lia|].
  assert (52 < Zdigits2 m) by (apply Zdigits2_gt; lia). lia.
Qed.

Lemma Round_valid sx n d e0 :
  0 < d -> 0 <= n -> e0 <= emin64 ->
  valid_binary prec emax (Round sx n d e0) = true.
Proof.
  intros Hd Hn Hmin. unfold Round.
  pose proof (rnd_canon_bounds n d e0 Hd Hn Hmin) as B.
  pose proof (rnd_canon_normal n d e0 Hd Hn Hmin) as N.
  cbv zeta in *.
  set (c := fexp prec emax (Zdigits2 (n / d) + e0)) in *.
  assert (Hc : emin64 <= c) by (subst c; apply fexp_ge_emin).
  set (m := rnd n (d * 2 ^ (c - e0))) in *.
  unfold finish. change (2 ^ prec) with (2 ^ 53).
  destruct (m =? 2 ^ 53) eqn:E.
  - unfold mk. change (2 ^ (prec - 1)) with (Zpos 4503599627370496).
    destruct (c + 1 <=? emax - prec) eqn:L; [|reflexivity].
    simpl. unfold bounded. rewrite L, andb_true_r. unfold canonical_mantissa.
    apply Z.eqb_eq. change (Z.pos (digits2_pos 4503599627370496)) with 53.
    rewrite fexp_eq. rewrite emin64_eq in Hc. lia.
  - apply Z.eqb_neq in E. unfold mk. destruct m as [|p|p] eqn:Em; try reflexivity.
    destruct (c <=? emax - prec) eqn:L; [|reflexivity].
    simpl. unfold bounded. rewrite L, andb_true_r. unfold canonical_mantissa.
    apply Z.eqb_eq. apply (canonical_intro (Zpos p) c); try lia. 
Qed.

Lemma Round_rounded sx n d e0 :
  0 < d -> 0 <= n -> e0 <= emin64 -> rounded sx (Round sx n d e0).
Proof.
  intros Hd Hn Hmin. unfold Round.
  pose proof (rnd_canon_bounds n d e0 Hd Hn Hmin) as B. cbv zeta in B.
  set (c := fexp prec emax (Zdigits2 (n / d) + e0)) in *.
  assert (Hc : emin64 <= c) by (subst c; apply fexp_ge_emin).
  set (m := rnd n (d * 2 ^ (c - e0))) in *.
  unfold finish. destruct (m =? 2 ^ prec).
  - unfold mk. change (2 ^ (prec - 1)) with (Zpos 4503599627370496).
    destruct (c + 1 <=? emax - prec); simpl; auto. split; [reflexivity|lia].
  - unfold mk. destruct m as [|p|p]; try lia; simpl; auto.
    destruct (c <=? emax - prec); simpl; auto.
Qed.

Lemma Round_opp n d e0 : Round true n d e0 = SFopp (Round false n d e0).
Proof.
  unfold Round, finish.
  assert (H : forall m e, mk true m e = SFopp (mk false m e)).
  { intros m e. unfold mk. destruct m; try reflexivity. now destruct (e <=? _). }
  destruct (_ =? _); apply H.
Qed.

Lemma Zdigits2_mul_pow x k : 0 < x -> 0 <= k -> Zdigits2 (x * 2 ^ k) = Zdigits2 x + k.
Proof.
  intros Hx Hk. assert (Hp : 0 < 2 ^ k) by (apply Z.pow_pos_nonneg; lia).
  pose proof (Zdigits2_shift (x * 2 ^ k) k Hk ltac:(nia)) as H.
  rewrite Z.div_mul in H by lia. lia.
Qed.

(** A float is the rounding of its own value. *)
Theorem Round_canonical s m e e0 :
  valid_binary prec emax (S754_finite s m e) = true -> e0 <= emin64 ->
  Round s (Zpos m * 2 ^ (e - e0)) 1 e0 = S754_finite s m e.
Proof.
  simpl. unfold bounded. intros H Hmin. apply andb_true_iff in H as [Hc Hb].
  pose proof (canonical_facts m e Hc) as (He & Hlt & _).
  unfold canonical_mantissa in Hc. apply Z.eqb_eq in Hc.
  unfold Round. rewrite Z.div_1_r, Zdigits2_mul_pow by lia.
  replace (Zdigits2 (Z.pos m) + (e - e0) + e0) with (Z.pos (digits2_pos m) + e)
    by (simpl; lia).
  rewrite Hc, Z.mul_1_l, rnd_exact by (apply Z.pow_pos_nonneg; lia).
  unfold finish. change (2 ^ prec) with (2 ^ 53).
  replace (Z.pos m =? 2 ^ 53) with false by (symmetry; apply Z.eqb_neq; lia).
  unfold mk. now rewrite Hb.
Qed.

(** ** Order *)

Lemma SFleb_opp a b :
  is_nan a = false -> is_nan b = false ->
  SFleb (SFopp a) (SFopp b) = SFleb b a.
Proof.
  destruct a as [s1|s1| |s1 m1 e1], b as [s2|s2| |s2 m2 e2]; try discriminate; intros _ _;
    try (destruct s1; reflexivity); try (destruct s2; reflexivity);
    try (destruct s1, s2; reflexivity).
  unfold SFleb, SFcompare, SFopp.
  destruct s1, s2; cbn [negb]; try reflexivity;
    rewrite (Z.compare_antisym e1 e2), ?(compare_cont_Eq m1 m2), ?(compare_cont_Eq m2 m1),
      (Pos.compare_antisym m1 m2);
    destruct (e1 ?= e2); simpl; try reflexivity; destruct (m1 ?= m2)%positive; reflexivity.
Qed.

Lemma rounded_not_nan sx f : rounded sx f -> is_nan f = false.
Proof. destruct f; simpl; tauto. Qed.


Lemma rounded_le f g : rounded true f -> rounded false g -> SFleb f g = true.
Proof. intros H1 H2. destruct f, g; simpl in *; try tauto;
  repeat match goal with H : _ /\ _ |- _ => destruct H end; subst; reflexivity. Qed.

Lemma zero_le_rounded f s : rounded false f -> SFleb (S754_zero s) f = true.
Proof. intros H. destruct f; simpl in *; try tauto;
  repeat match goal with H : _ /\ _ |- _ => destruct H end; subst; reflexivity. Qed.

Lemma rounded_le_zero f s : rounded true f -> SFleb f (S754_zero s) = true.
Proof. intros H. destruct f; simpl in *; try tauto;
  repeat match goal with H : _ /\ _ |- _ => destruct H end; subst; reflexivity. Qed.

Theorem Rs_mono d e0 z1 z2 :
  0 < d -> e0 <= emin64 -> z1 <= z2 -> SFleb (Rs d e0 z1) (Rs d e0 z2) = true.
Proof.
  intros Hd Hmin Hz.
  destruct z1 as [|p1|p1], z2 as [|p2|p2]; try lia; unfold Rs.
  - reflexivity.
  - apply zero_le_rounded, Round_rounded; lia.
  - apply Round_mono; lia.
  - apply rounded_le_zero, Round_rounded; lia.
  - apply rounded_le; apply Round_rounded; lia.
  - rewrite !Round_opp, SFleb_opp.
    + apply Round_mono; lia.
    + eapply rounded_not_nan, Round_rounded; lia.
    + eapply rounded_not_nan, Round_rounded; lia.
Qed.

Lemma Rs_valid d e0 z : 0 < d -> e0 <= emin64 -> valid_binary prec emax (Rs d e0 z) = true.
Proof. intros. destruct z; simpl; try reflexivity; apply Round_valid; lia. Qed.

Lemma Rs_not_nan d e0 z : 0 < d -> e0 <= emin64 -> is_nan (Rs d e0 z) = false.
Proof.
  intros. destruct z; simpl; try reflexivity; eapply rounded_not_nan, Round_rounded; lia.
Qed.

(** The order of valid floats is the order of their values. *)
Lemma pos_scaled_lt m1 e1 m2 e2 e0 :
  0 < m1 < 2 ^ 53 -> 2 ^ 52 <= m2 -> e1 < e2 -> e0 <= e1 ->
  m1 * 2 ^ (e1 - e0) < m2 * 2 ^ (e2 - e0).
Proof.
  intros Hm1 Hm2 He H0.
  assert (Hp : 0 < 2 ^ (e1 - e0)) by (apply Z.pow_pos_nonneg; lia).
  assert (2 * 2 ^ (e1 - e0) <= 2 ^ (e2 - e0)).
  { rewrite <- Z.pow_succ_r by lia. apply Z.pow_le_mono_r; lia. }
  change (2 ^ 53) with (2 * 2 ^ 52) in Hm1. nia.
Qed.


Lemma Zval_mono e0 x y :
  e0 <= emin64 -> finite_valid x -> finite_valid y ->
  SFleb x y = true -> Zval e0 x <= Zval e0 y.
Proof.
  intros Hmin [Vx Fx] [Vy Fy] Hle.
  destruct x as [s1|s1| |s1 m1 e1], y as [s2|s2| |s2 m2 e2]; try discriminate;
    unfold Zval, cond_Zopp.
  - destruct s2; [discriminate|]. pose proof (Z.pow_nonneg 2 (e2 - e0)). nia.
  - destruct s1; [|discriminate]. pose proof (Z.pow_nonneg 2 (e1 - e0)). nia.
  - simpl in Vx, Vy. unfold bounded in *.
    apply andb_true_iff in Vx as [Cx _]. apply andb_true_iff in Vy as [Cy _].
    pose proof (canonical_facts _ _ Cx) as (Ex & Ux & Lx).
    pose proof (canonical_facts _ _ Cy) as (Ey & Uy & Ly).
    assert (P1 : 0 < 2 ^ (e1 - e0)) by (apply Z.pow_pos_nonneg; lia).
    assert (P2 : 0 < 2 ^ (e2 - e0)) by (apply Z.pow_pos_nonneg; lia).
    unfold SFleb, SFcompare in Hle. rewrite compare_cont_Eq in Hle.
    destruct s1, s2; try discriminate; try nia.
    + destruct (e1 ?= e2) eqn:C.
      * apply Z.compare_eq_iff in C. subst e2.
        destruct (m1 ?= m2)%positive eqn:Cm; try discriminate.
        -- apply Pos.compare_eq_iff in Cm. subst. lia.
        -- change (m1 > m2)%positive in Cm. nia.
      * discriminate.
      * change (e1 > e2) in C.
        pose proof (pos_scaled_lt (Zpos m2) e2 (Zpos m1) e1 e0 ltac:(lia) ltac:(lia) ltac:(lia) ltac:(lia)).
        lia.
    + destruct (e1 ?= e2) eqn:C.
      * apply Z.compare_eq_iff in C. subst e2.
        destruct (m1 ?= m2)%positive eqn:Cm; try discriminate.
        -- apply Pos.compare_eq_iff in Cm. subst. lia.
        -- change (m1 < m2)%positive in Cm. nia.
      * change (e1 < e2) in C.
        pose proof (pos_scaled_lt (Zpos m1) e1 (Zpos m2) e2 e0 ltac:(lia) ltac:(lia) ltac:(lia) ltac:(lia)).
        lia.
      * discriminate.
Qed.

(** ** The operations as roundings of exact values *)


Lemma same_refl a : same a a.
Proof. now left. Qed.

Lemma SFleb_same a a' b b' : same a a' -> same b b' -> SFleb a b = SFleb a' b'.
Proof.
  intros [Ha|[Ha Ha']] [Hb|[Hb Hb']].
  - now subst.
  - subst a. destruct a', b, b'; try discriminate; reflexivity.
  - subst b. destruct a, a', b'; try discriminate; reflexivity.
  - destruct a, a', b, b'; try discriminate; reflexivity.
Qed.

Lemma Rs_pos d e0 n : 0 < n -> Rs d e0 n = Round false n d e0.
Proof. destruct n; try lia. reflexivity. Qed.

Lemma Rs_neg d e0 n : 0 < n -> Rs d e0 (- n) = Round true n d e0.
Proof. destruct n; try lia. reflexivity. Qed.

Lemma Rs_signed d e0 s n : 0 < n -> Rs d e0 (cond_Zopp s n) = Round s n d e0.
Proof. destruct s; simpl; [apply Rs_neg | apply Rs_pos]. Qed.

Lemma located_exact m k : 0 <= m -> 0 < k -> located (m * k) k m loc_Exact.
Proof.
  intros Hm Hk. repeat split; try nia.
  - now rewrite Z.div_mul by lia.
  - rewrite Z.mod_mul by lia. reflexivity.
Qed.

Lemma binary_round_Round sx p ez :
  emin64 <= ez ->
  binary_round prec emax sx p ez = Round sx (Zpos p * 2 ^ (ez - emin64)) 1 emin64.
Proof.
  intros He. unfold binary_round, shl_align.
  pose proof (fexp_ge_emin (Z.pos (digits2_pos p) + ez)) as Hf.
  destruct (fexp prec emax (Z.pos (digits2_pos p) + ez) - ez) as [|k|k] eqn:Hk.
  - apply binary_round_aux_Round; try lia.
    + rewrite Z.mul_1_l. apply located_exact; [lia|]. apply Z.pow_pos_nonneg; lia.
    + simpl Zdigits2. lia.
  - apply binary_round_aux_Round; try lia.
    + rewrite Z.mul_1_l. apply located_exact; [lia|]. apply Z.pow_pos_nonneg; lia.
    + simpl Zdigits2. lia.
  - set (c := fexp prec emax (Z.pos (digits2_pos p) + ez)) in *.
    apply binary_round_aux_Round; try lia.
    + rewrite Z.mul_1_l, iter_xO_value.
      replace (Z.pos p * 2 ^ (ez - emin64))
        with (Z.pos p * 2 ^ Z.pos k * 2 ^ (c - emin64)).
      * apply located_exact; [lia|]. apply Z.pow_pos_nonneg; lia.
      * rewrite <- Z.mul_assoc, <- Z.pow_add_r by lia. do 2 f_equal. lia.
    + simpl Zdigits2. rewrite iter_xO_digits.
      replace (Z.pos (digits2_pos p) + Z.pos k + c) with (Z.pos (digits2_pos p) + ez) by lia.
      fold c. lia.
Qed.

Lemma binary_normalize_Rs m ez :
  emin64 <= ez ->
  binary_normalize prec emax m ez false = Rs 1 emin64 (m * 2 ^ (ez - emin64)).
Proof.
  intros He. assert (Hp : 0 < 2 ^ (ez - emin64)) by (apply Z.pow_pos_nonneg; lia).
  destruct m as [|p|p]; unfold binary_normalize.
  - reflexivity.
  - rewrite binary_round_Round, Rs_pos by lia. reflexivity.
  - rewrite binary_round_Round by lia.
    replace (Z.neg p * 2 ^ (ez - emin64)) with (- (Z.pos p * 2 ^ (ez - emin64))) by lia.
    rewrite Rs_neg by lia. reflexivity.
Qed.

Lemma shl_align_fst mx ex ez :
  ez <= ex -> Zpos (fst (shl_align mx ex ez)) = Zpos mx * 2 ^ (ex - ez).
Proof.
  intros H. unfold shl_align. destruct (ez - ex) as [|k|k] eqn:E; try lia; simpl.
  - replace (ex - ez) with 0 by lia. lia.
  - rewrite iter_xO_value. f_equal. f_equal. lia.
Qed.

Lemma valid_finite_exp s m e :
  valid_binary prec emax (S754_finite s m e) = true -> emin64 <= e.
Proof.
  simpl. unfold bounded. intros H. apply andb_true_iff in H as [H _].
  now apply canonical_facts in H.
Qed.

Lemma Zval_finite_self s m e :
  valid_binary prec emax (S754_finite s m e) = true ->
  Rs 1 emin64 (Zval emin64 (S754_finite s m e)) = S754_finite s m e.
Proof.
  intros H. pose proof (valid_finite_exp _ _ _ H) as He.
  assert (Hp : 0 < 2 ^ (e - emin64)) by (apply Z.pow_pos_nonneg; lia).
  unfold Zval. rewrite Rs_signed by lia. apply Round_canonical; [assumption|lia].
Qed.

Lemma scaled_add m e ez e0 :
  e0 <= ez <= e -> m * 2 ^ (e - ez) * 2 ^ (ez - e0) = m * 2 ^ (e - e0).
Proof.
  intros H. rewrite <- Z.mul_assoc, <- Z.pow_add_r by lia. do 2 f_equal. lia.
Qed.

Lemma cond_Zopp_mul s a b : cond_Zopp s a * b = cond_Zopp s (a * b).
Proof. destruct s; simpl; lia. Qed.

Lemma cond_Zopp_negb s a : cond_Zopp (negb s) a = - cond_Zopp s a.
Proof. destruct s; simpl; lia. Qed.

Theorem fsub_Rs x y :
  finite_valid x -> finite_valid y ->
  same (fsub x y) (Rs 1 emin64 (Zval emin64 x - Zval emin64 y)).
Proof.
  intros [Vx Fx] [Vy Fy].
  destruct x as [sx|sx| |sx mx ex], y as [sy|sy| |sy my ey]; try discriminate.
  - right. split; [|reflexivity]. destruct sx, sy; reflexivity.
  - left. change (Zval emin64 (S754_zero sx)) with 0. rewrite Z.sub_0_l.
    unfold fsub, SFsub.
    rewrite <- (Zval_finite_self (negb sy) my ey) by exact Vy.
    f_equal. unfold Zval. now rewrite cond_Zopp_negb.
  - left. change (Zval emin64 (S754_zero sy)) with 0. rewrite Z.sub_0_r.
    unfold fsub, SFsub. now rewrite Zval_finite_self.
  - left. pose proof (valid_finite_exp _ _ _ Vx). pose proof (valid_finite_exp _ _ _ Vy).
    unfold fsub, SFsub. rewrite binary_normalize_Rs by lia. f_equal.
    rewrite !shl_align_fst by lia. unfold Zval.
    rewrite Z.mul_sub_distr_r, !cond_Zopp_mul, !scaled_add by lia. reflexivity.
Qed.

Theorem fadd_Rs x y :
  finite_valid x -> finite_valid y ->
  same (fadd x y) (Rs 1 emin64 (Zval emin64 x + Zval emin64 y)).
Proof.
  intros [Vx Fx] [Vy Fy].
  destruct x as [sx|sx| |sx mx ex], y as [sy|sy| |sy my ey]; try discriminate.
  - right. split; [|reflexivity]. destruct sx, sy; reflexivity.
  - left. change (Zval emin64 (S754_zero sx)) with 0. rewrite Z.add_0_l.
    unfold fadd, SFadd. now rewrite Zval_finite_self.
  - left. change (Zval emin64 (S754_zero sy)) with 0. rewrite Z.add_0_r.
    unfold fadd, SFadd. now rewrite Zval_finite_self.
  - left. pose proof (valid_finite_exp _ _ _ Vx). pose proof (valid_finite_exp _ _ _ Vy).
    unfold fadd, SFadd. rewrite binary_normalize_Rs by lia. f_equal.
    rewrite !shl_align_fst by lia. unfold Zval.
    rewrite Z.mul_add_distr_r, !cond_Zopp_mul, !scaled_add by lia. reflexivity.
Qed.

Lemma same_valid a b : same a b -> valid_binary prec emax b = true ->
  valid_binary prec emax a = true.
Proof. intros [->|[H _]]; [auto|]. now destruct a. Qed.

Lemma same_not_nan a b : same a b -> is_nan b = false -> is_nan a = false.
Proof. intros [->|[H _]]; [auto|]. now destruct a. Qed.

Lemma fsub_mono x1 x2 b :
  finite_valid x1 -> finite_valid x2 -> finite_valid b ->
  SFleb x1 x2 = true -> SFleb (fsub x1 b) (fsub x2 b) = true.
Proof.
  intros H1 H2 Hb Hle.
  rewrite (SFleb_same _ _ _ _ (fsub_Rs x1 b H1 Hb) (fsub_Rs x2 b H2 Hb)).
  apply Rs_mono; try lia. pose proof (Zval_mono emin64 x1 x2 ltac:(lia) H1 H2 Hle). lia.
Qed.

Lemma fadd_mono a y1 y2 :
  finite_valid a -> finite_valid y1 -> finite_valid y2 ->
  SFleb y1 y2 = true -> SFleb (fadd a y1) (fadd a y2) = true.
Proof.
  intros Ha H1 H2 Hle.
  rewrite (SFleb_same _ _ _ _ (fadd_Rs a y1 Ha H1) (fadd_Rs a y2 Ha H2)).
  apply Rs_mono; try lia. pose proof (Zval_mono emin64 y1 y2 ltac:(lia) H1 H2 Hle). lia.
Qed.

Lemma fsub_valid x y :
  finite_valid x -> finite_valid y ->
  valid_binary prec emax (fsub x y) = true /\ is_nan (fsub x y) = false.
Proof.
  intros Hx Hy. pose proof (fsub_Rs x y Hx Hy) as H. split.
  - eapply same_valid; [exact H|]. apply Rs_valid; lia.
  - eapply same_not_nan; [exact H|]. apply Rs_not_nan; lia.
Qed.

Lemma fadd_valid x y :
  finite_valid x -> finite_valid y ->
  valid_binary prec emax (fadd x y) = true /\ is_nan (fadd x y) = false.
Proof.
  intros Hx Hy. pose proof (fadd_Rs x y Hx Hy) as H. split.
  - eapply same_valid; [exact H|]. apply Rs_valid; lia.
  - eapply same_not_nan; [exact H|]. apply Rs_not_nan; lia.
Qed.

Theorem fmul_half_Rs y :
  finite_valid y ->
  same (fmul half y) (Rs 1 (emin64 - 53) (Zval emin64 y * 2 ^ 52)).
Proof.
  intros [Vy Fy]. destruct y as [sy|sy| |sy my ey]; try discriminate.
  - right. split; reflexivity.
  - left. pose proof (valid_finite_exp _ _ _ Vy) as He.
    assert (Hp : 0 < 2 ^ (ey - emin64)) by (apply Z.pow_pos_nonneg; lia).
    unfold Zval. rewrite cond_Zopp_mul, Rs_signed by lia.
    unfold fmul, half, SFmul. cbn [xorb].
    apply binary_round_aux_Round; try lia.
    + rewrite Z.mul_1_l, Pos2Z.inj_mul.
      replace (Z.pos my * 2 ^ (ey - emin64) * 2 ^ 52)
        with (Z.pos 4503599627370496 * Z.pos my * 2 ^ (-53 + ey - (emin64 - 53))).
      * apply located_exact; [lia|]. apply Z.pow_pos_nonneg; lia.
      * replace (-53 + ey - (emin64 - 53)) with (ey - emin64) by lia.
        change (2 ^ 52) with (Z.pos 4503599627370496). lia.
    + rewrite Pos2Z.inj_mul. change (Z.pos 4503599627370496) with (2 ^ 52).
      rewrite (Z.mul_comm (2 ^ 52)), Zdigits2_mul_pow by lia.
      pose proof (Zdigits2_pos (Z.pos my) ltac:(lia)). rewrite fexp_eq. lia.
Qed.

Lemma fmul_half_mono y1 y2 :
  finite_valid y1 -> finite_valid y2 ->
  SFleb y1 y2 = true -> SFleb (fmul half y1) (fmul half y2) = true.
Proof.
  intros H1 H2 Hle.
  rewrite (SFleb_same _ _ _ _ (fmul_half_Rs y1 H1) (fmul_half_Rs y2 H2)).
  pose proof (Zval_mono emin64 y1 y2 ltac:(lia) H1 H2 Hle).
  apply Rs_mono; [lia | rewrite emin64_eq; lia | ].
  apply Z.mul_le_mono_nonneg_r; [|assumption]. apply Z.pow_nonneg. lia.
Qed.

(** Division *)

Lemma new_location_locate d r : 0 < d -> 0 <= r < d -> new_location d r = locate r d.
Proof.
  intros Hd Hr. unfold new_location, new_location_even, new_location_odd, locate.
  destruct (Z.even d) eqn:E; [reflexivity|].
  destruct (r =? 0); [reflexivity|]. f_equal.
  assert (Ho : Z.odd d = true) by (rewrite <- Z.negb_even, E; reflexivity).
  apply Z.odd_spec in Ho as [k Hk].
  destruct (2 * r + 1 ?= d) eqn:C1.
  - apply Z.compare_eq_iff in C1. symmetry. apply Z.compare_lt_iff. lia.
  - change (2 * r + 1 < d) in C1. symmetry. apply Z.compare_lt_iff. lia.
  - change (2 * r + 1 > d) in C1. symmetry. apply Z.compare_gt_iff. lia.
Qed.

Lemma locate_scale r d c : 0 < c -> locate (r * c) (d * c) = locate r d.
Proof.
  intros Hc. unfold locate.
  replace (r * c =? 0) with (r =? 0).
  2:{ destruct (Z.eqb_spec r 0), (Z.eqb_spec (r * c) 0); try reflexivity; nia. }
  destruct (r =? 0); [reflexivity|]. f_equal.
  replace (2 * (r * c)) with ((2 * r) * c) by lia.
  destruct (2 * r ?= d) eqn:C.
  - apply Z.compare_eq_iff in C. apply Z.compare_eq_iff. nia.
  - change (2 * r < d) in C. apply Z.compare_lt_iff. nia.
  - change (2 * r > d) in C. apply Z.compare_gt_iff. nia.
Qed.


Theorem fdiv_Rs x md ed :
  finite_valid x ->
  valid_binary prec emax (S754_finite false md ed) = true ->
  same (fdiv x (S754_finite false md ed))
       (Rs (Zpos md) div_e0 (Zval emin64 x * 2 ^ (emax - ed))).
Proof.
  intros [Vx Fx] Vd. destruct x as [sx|sx| |sx mx ex]; try discriminate.
  - right. split; reflexivity.
  - left. pose proof (valid_finite_exp _ _ _ Vx) as Hex.
    pose proof (valid_finite_exp _ _ _ Vd) as Hed.
    assert (Hed' : ed <= emax - prec).
    { simpl in Vd. unfold bounded in Vd. apply andb_true_iff in Vd as [_ Vd].
      now apply Z.leb_le in Vd. }
    rewrite emin64_eq in *. unfold emax, prec in Hed'.
    assert (Hp : 0 < 2 ^ (ex - -1074)) by (apply Z.pow_pos_nonneg; lia).
    assert (Hp' : 0 < 2 ^ (emax - ed)) by (apply Z.pow_pos_nonneg; unfold emax; lia).
    unfold Zval. rewrite cond_Zopp_mul, Rs_signed by nia.
    unfold fdiv, SFdiv, SFdiv_core_binary.
    set (d1 := Zdigits2 (Z.pos mx)). set (d2 := Zdigits2 (Z.pos md)).
    set (e' := Z.min (fexp prec emax (d1 + ex - (d2 + ed))) (ex - ed)).
    set (s := ex - ed - e').
    assert (Hs : 0 <= s) by (subst s e'; lia).
    assert (Hm' : match s with Z.pos _ => Z.shiftl (Z.pos mx) s | 0 => Z.pos mx | Z.neg _ => 0 end
                  = Z.pos mx * 2 ^ s).
    { clearbody s. destruct s as [|p|p].
      - now rewrite Z.pow_0_r, Z.mul_1_r.
      - rewrite Z.shiftl_mul_pow2 by lia. reflexivity.
      - lia. }
    rewrite Hm'. set (m' := Z.pos mx * 2 ^ s).
    assert (Hps : 0 < 2 ^ s) by (apply Z.pow_pos_nonneg; lia).
    pose proof (Z.div_eucl_eq m' (Z.pos md) ltac:(lia)) as Heq.
    pose proof (Z.mod_pos_bound m' (Z.pos md) ltac:(lia)) as Hr.
    assert (Hq : Z.div_eucl m' (Z.pos md) = (m' / Z.pos md, m' mod Z.pos md)).
    { unfold Z.div, Z.modulo. now destruct (Z.div_eucl m' (Z.pos md)). }
    rewrite Hq. cbn [xorb]. rewrite xorb_false_r.
    assert (He' : div_e0 <= e').
    { unfold div_e0. rewrite emin64_eq. subst e'. rewrite fexp_eq. unfold emax. lia. }
    assert (Hk : 0 < 2 ^ (e' - div_e0)) by (apply Z.pow_pos_nonneg; lia).
    assert (Hn : Z.pos mx * 2 ^ (ex - -1074) * 2 ^ (emax - ed) = m' * 2 ^ (e' - div_e0)).
    { subst m'. rewrite <- !Z.mul_assoc, <- !Z.pow_add_r by (unfold emax; lia).
      do 2 f_equal. subst s. unfold div_e0. rewrite emin64_eq. lia. }
    rewrite Hn.
    apply binary_round_aux_Round; try lia.
    + unfold div_e0. rewrite emin64_eq. unfold emax. lia.
    + repeat split; try nia.
      * now rewrite Z.div_mul_cancel_r by lia.
      * rewrite Z.mul_mod_distr_r by lia. rewrite locate_scale by lia.
        apply new_location_locate; lia.
    + rewrite fexp_eq. destruct (Z_le_gt_dec e' (-1074)) as [|Hgt]; [lia|].
      assert (Hde : 53 <= d1 + ex - (d2 + ed) - e').
      { subst e'. rewrite fexp_eq in *. lia. }
      assert (d1 + ex - (d2 + ed) - e' - 1 < Zdigits2 (m' / Z.pos md)); [|lia].
      apply Zdigits2_gt; [lia|].
      apply Z.div_le_lower_bound; [lia|].
      pose proof (Zdigits2_bounds (Z.pos mx) ltac:(lia)) as [Hlo _].
      pose proof (Zdigits2_bounds (Z.pos md) ltac:(lia)) as [_ Hhi].
      fold d1 in Hlo. fold d2 in Hhi.
      set (t := d1 + ex - (d2 + ed) - e' - 1) in *.
      assert (Hd2 : 0 < d2) by (apply Zdigits2_pos; lia).
      assert (Hd1 : 0 < d1) by (apply Zdigits2_pos; lia).
      assert (Ht : 2 ^ d2 * 2 ^ t = 2 ^ (d1 - 1) * 2 ^ s).
      { rewrite <- !Z.pow_add_r by lia. f_equal. subst t s. lia. }
      assert (0 < 2 ^ t) by (apply Z.pow_pos_nonneg; lia).
      subst m'. nia.
Qed.

Lemma neg_inf_le f : is_nan f = false -> SFleb (S754_infinity true) f = true.
Proof. destruct f as [s|[]| |[] m e]; try discriminate; reflexivity. Qed.

Lemma le_pos_inf f : is_nan f = false -> SFleb f (S754_infinity false) = true.
Proof. destruct f as [s|[]| |[] m e]; try discriminate; reflexivity. Qed.

Lemma SFleb_not_nan a b : SFleb a b = true -> is_nan a = false /\ is_nan b = false.
Proof. destruct a, b; try discriminate; auto. Qed.

Lemma fdiv_valid x md ed :
  valid_binary prec emax x = true -> is_nan x = false ->
  valid_binary prec emax (S754_finite false md ed) = true ->
  valid_binary prec emax (fdiv x (S754_finite false md ed)) = true
  /\ is_nan (fdiv x (S754_finite false md ed)) = false.
Proof.
  intros Vx Nx Vd. destruct x as [sx|sx| |sx mx ex] eqn:Ex; try discriminate;
    try (split; reflexivity).
  rewrite <- Ex. assert (Hx : finite_valid x) by (subst x; split; [assumption|reflexivity]).
  pose proof (fdiv_Rs x md ed Hx Vd) as H. split.
  - eapply same_valid; [exact H|]. apply Rs_valid; [lia|]. unfold div_e0, emax. lia.
  - eapply same_not_nan; [exact H|]. apply Rs_not_nan; [lia|]. unfold div_e0, emax. lia.
Qed.

Theorem fdiv_mono x1 x2 md ed :
  valid_binary prec emax x1 = true -> valid_binary prec emax x2 = true ->
  valid_binary prec emax (S754_finite false md ed) = true ->
  SFleb x1 x2 = true ->
  SFleb (fdiv x1 (S754_finite false md ed)) (fdiv x2 (S754_finite false md ed)) = true.
Proof.
  intros V1 V2 Vd Hle.
  pose proof (SFleb_not_nan _ _ Hle) as [N1 N2].
  pose proof (fdiv_valid x1 md ed V1 N1 Vd) as [_ Nq1].
  pose proof (fdiv_valid x2 md ed V2 N2 Vd) as [_ Nq2].
  destruct (is_finite x1) eqn:F1, (is_finite x2) eqn:F2.
  - rewrite (SFleb_same _ _ _ _ (fdiv_Rs x1 md ed (conj V1 F1) Vd)
                                (fdiv_Rs x2 md ed (conj V2 F2) Vd)).
    pose proof (Zval_mono emin64 x1 x2 ltac:(lia) (conj V1 F1) (conj V2 F2) Hle).
    apply Rs_mono; [lia | unfold div_e0, emax; lia |].
    apply Z.mul_le_mono_nonneg_r; [|assumption]. apply Z.pow_nonneg. lia.
  - destruct x2 as [s|[]| |s m e]; try discriminate.
    + destruct x1 as [s|[]| |[] m e]; discriminate.
    + apply le_pos_inf. exact Nq1.
  - destruct x1 as [s|[]| |s m e]; try discriminate.
    + apply neg_inf_le. exact Nq2.
    + destruct x2 as [s|[]| |[] m e]; discriminate.
  - destruct x1 as [s|[]| |s m e], x2 as [s'|[]| |s' m' e']; try discriminate; reflexivity.
Qed.

Lemma sigma_sqrt2_valid sigma :
  finite_valid sigma -> valid_binary prec emax (fmul sigma sqrt2) = true.
Proof.
  intros [Vs Fs]. rewrite sqrt2_value.
  destruct sigma as [s|s| |s m e]; try discriminate; [reflexivity|].
  pose proof (valid_finite_exp _ _ _ Vs) as He. rewrite emin64_eq in He.
  unfold fmul, SFmul.
  rewrite (binary_round_aux_Round _ (Z.pos (m * 6369051672525773) * 2 ^ (e + -52 - (emin64 - 52)))
             1 (emin64 - 52)).
  - apply Round_valid; rewrite ?emin64_eq; lia.
  - lia.
  - rewrite emin64_eq. lia.
  - rewrite emin64_eq. lia.
  - rewrite Z.mul_1_l. apply located_exact; [lia|].
    apply Z.pow_pos_nonneg; rewrite ?emin64_eq; lia.
  - rewrite Pos2Z.inj_mul, fexp_eq.
    assert (Zdigits2 (Z.pos m) + 52 - 1 < Zdigits2 (Z.pos m * Z.pos 6369051672525773)); [|
      pose proof (Zdigits2_pos (Z.pos m) ltac:(lia)); lia].
    pose proof (Zdigits2_pos (Z.pos m) ltac:(lia)).
    apply Zdigits2_gt; [lia|].
    pose proof (Zdigits2_bounds (Z.pos m) ltac:(lia)) as [Hlo _].
    replace (Zdigits2 (Z.pos m) + 52 - 1) with (Zdigits2 (Z.pos m) - 1 + 52) by lia.
    rewrite Z.pow_add_r by lia.
    apply Z.mul_le_mono_nonneg; lia.
Qed.

Lemma between_finite lo e hi :
  is_finite lo = true -> is_finite hi = true ->
  SFleb lo e = true -> SFleb e hi = true -> is_finite e = true.
Proof.
  intros Hlo Hhi H1 H2.
  destruct e as [s|[]| |s m x]; try reflexivity.
  - destruct lo as [s|[]| |[] m x]; discriminate.
  - destruct hi as [s|[]| |[] m x]; discriminate.
  - destruct lo; discriminate.
Qed.

(** ** The likelihood of improvement *)

Lemma fsub_equal mean baseline :
  is_finite mean = true -> SFeqb mean baseline = true ->
  exists s, fsub mean baseline = S754_zero s.
Proof.
  intros Hfin Heq.
  destruct mean as [s1|s1| |s1 m1 e1], baseline as [s2|s2| |s2 m2 e2]; try discriminate;
    try (destruct s1; discriminate); try (destruct s2; discriminate).
  - destruct s1, s2; eauto.
  - exists false. unfold SFeqb, SFcompare in Heq.
    assert (s1 = s2 /\ e1 = e2 /\ m1 = m2) as (-> & -> & ->).
    { destruct s1, s2; try discriminate;
        destruct (e1 ?= e2) eqn:He; try discriminate; apply Z.compare_eq in He;
        destruct (Pos.compare_cont Eq m1 m2) eqn:Hm; try discriminate;
        apply Pos.compare_eq in Hm; auto. }
    unfold fsub, SFsub. rewrite Z.sub_diag. reflexivity.
Qed.


Section ImprovementFacts.
Variable erf : float -> float.
Variables sigma baseline : float.
Hypothesis Vsigma : valid_binary prec emax sigma = true.
Hypothesis Psigma : fgt0 sigma = true.

Lemma divisor :
  (exists md ed, fmul sigma sqrt2 = S754_finite false md ed /\
     valid_binary prec emax (S754_finite false md ed) = true)
  \/ fmul sigma sqrt2 = S754_infinity false.
Proof.
  destruct (sigma_sqrt2_positive sigma Vsigma Psigma) as (m & e & [H|H]).
  - left. exists m, e. split; [assumption|]. rewrite <- H. apply sigma_sqrt2_valid.
    split; [assumption|]. destruct sigma as [s|[]| |[] ms es]; try discriminate; reflexivity.
  - now right.
Qed.

Lemma improvement_eq mean :
  probability_improvement erf mean sigma baseline
  = Ok (fmul half (fadd one (erf (quotient mean sigma baseline)))).
Proof.
  unfold probability_improvement, float_truediv, quotient.
  destruct divisor as [(md & ed & -> & _) | ->]; reflexivity.
Qed.

Lemma improvement_at_baseline mean :
  (forall s, erf (S754_zero s) = S754_zero s) ->
  is_finite mean = true -> SFeqb mean baseline = true ->
  probability_improvement erf mean sigma baseline = Ok half.
Proof.
  intros erf_zero Hfin Heq. rewrite improvement_eq. unfold quotient.
  destruct (fsub_equal mean baseline Hfin Heq) as [s ->].
  destruct divisor as [(md & ed & -> & _) | ->]; cbn; rewrite erf_zero; now destruct s.
Qed.

Hypothesis Herf : erf_like erf.
Hypothesis Vb : finite_valid baseline.

Lemma quotient_valid mean :
  finite_valid mean -> no_double_overflow mean sigma baseline = true ->
  valid_binary prec emax (quotient mean sigma baseline) = true
  /\ is_nan (quotient mean sigma baseline) = false.
Proof.
  intros Hm Hno. unfold quotient, no_double_overflow in *.
  destruct (fsub_valid mean baseline Hm Vb) as [Vx Nx].
  destruct divisor as [(md & ed & -> & Vd) | Hd].
  - now apply fdiv_valid.
  - rewrite Hd in *. rewrite orb_false_r in Hno.
    destruct (fsub mean baseline) as [s|s| |s m e]; try discriminate; split; reflexivity.
Qed.

Lemma quotient_mono mean1 mean2 :
  finite_valid mean1 -> finite_valid mean2 ->
  no_double_overflow mean1 sigma baseline = true ->
  no_double_overflow mean2 sigma baseline = true ->
  SFleb mean1 mean2 = true ->
  SFleb (quotient mean1 sigma baseline) (quotient mean2 sigma baseline) = true.
Proof.
  intros H1 H2 O1 O2 Hle. unfold quotient, no_double_overflow in *.
  destruct divisor as [(md & ed & -> & Vd) | Hd].
  - apply fdiv_mono; try assumption.
    + now apply fsub_valid.
    + now apply fsub_valid.
    + now apply fsub_mono.
  - rewrite Hd in *. rewrite orb_false_r in O1, O2.
    destruct (fsub mean1 baseline) as [s|s| |s m e]; try discriminate;
      destruct (fsub mean2 baseline) as [s'|s'| |s' m' e']; try discriminate; reflexivity.
Qed.

Lemma erf_finite x :
  valid_binary prec emax x = true -> is_nan x = false -> finite_valid (erf x).
Proof.
  intros V N. split; [now apply (erf_valid erf Herf)|].
  destruct (erf_range erf Herf x V N) as [Hlo Hhi].
  now apply (between_finite (SFopp one) _ one).
Qed.

Lemma one_plus_erf x :
  valid_binary prec emax x = true -> is_nan x = false ->
  finite_valid (fadd one (erf x)) /\
  SFleb pos_zero (fadd one (erf x)) = true /\
  SFleb (fadd one (erf x)) (float_of_Z 2) = true.
Proof.
  intros V N. pose proof (erf_finite x V N) as He.
  destruct (erf_range erf Herf x V N) as [Hlo Hhi].
  assert (H1 : finite_valid one) by (split; reflexivity).
  assert (Hm1 : finite_valid (SFopp one)) by (split; reflexivity).
  pose proof (fadd_mono one _ _ H1 Hm1 He Hlo) as L.
  pose proof (fadd_mono one _ _ H1 He H1 Hhi) as U.
  change (fadd one (SFopp one)) with pos_zero in L.
  change (fadd one one) with (float_of_Z 2) in U.
  repeat split; try assumption.
  - now apply fadd_valid.
  - now apply (between_finite pos_zero _ (float_of_Z 2)).
Qed.

Lemma improvement_range mean :
  finite_valid mean -> no_double_overflow mean sigma baseline = true ->
  exists p, probability_improvement erf mean sigma baseline = Ok p /\
    SFleb pos_zero p = true /\ SFleb p one = true.
Proof.
  intros Hm Hno. rewrite improvement_eq. eexists. split; [reflexivity|].
  destruct (quotient_valid mean Hm Hno) as [V N].
  destruct (one_plus_erf _ V N) as (Fs & L & U).
  assert (F0 : finite_valid pos_zero) by (split; reflexivity).
  assert (F2 : finite_valid (float_of_Z 2)) by (split; reflexivity).
  split.
  - exact (fmul_half_mono _ _ F0 Fs L).
  - exact (fmul_half_mono _ _ Fs F2 U).
Qed.

Lemma improvement_mono mean1 mean2 :
  finite_valid mean1 -> finite_valid mean2 ->
  no_double_overflow mean1 sigma baseline = true ->
  no_double_overflow mean2 sigma baseline = true ->
  SFleb mean1 mean2 = true ->
  exists p1 p2,
    probability_improvement erf mean1 sigma baseline = Ok p1 /\
    probability_improvement erf mean2 sigma baseline = Ok p2 /\
    SFleb p1 p2 = true.
Proof.
  intros H1 H2 O1 O2 Hle. rewrite !improvement_eq. do 2 eexists. do 2 (split; [reflexivity|]).
  destruct (quotient_valid mean1 H1 O1) as [V1 N1].
  destruct (quotient_valid mean2 H2 O2) as [V2 N2].
  pose proof (quotient_mono _ _ H1 H2 O1 O2 Hle) as Hq.
  pose proof (erf_mono erf Herf _ _ V1 V2 Hq) as He.
  destruct (one_plus_erf _ V1 N1) as (Fs1 & _).
  destruct (one_plus_erf _ V2 N2) as (Fs2 & _).
  apply fmul_half_mono; try assumption.
  apply fadd_mono; try assumption.
  - split; reflexivity.
  - now apply erf_finite.
  - now apply erf_finite.
Qed.

End ImprovementFacts.

Lemma sign_like : erf_like sign.
Proof.
  split.
  - reflexivity.
  - intros [s|[]| |[] m e] V N; try discriminate; try reflexivity.
  - intros [s|[]| |[] m e] V N; try discriminate; split; try reflexivity; now destruct s.
  - intros [s|[]| |[] m e] [s'|[]| |[] m' e'] _ _ H; try discriminate; reflexivity.
Qed.


(** With the mean and sigma at the top of the binary64 range and the
    baseline at its bottom, the difference and the divisor both overflow and
    the argument of erf is not a number. *)
Lemma quotient_double_overflow :
  no_double_overflow largest largest (fneg largest) = false /\
  quotient largest largest (fneg largest) = S754_nan.
Proof. split; vm_compute; reflexivity. Qed.



Local Close Scope Z_scope.

(** ** The CSV template *)

Lemma string_app_assoc (s t u : string) : (s +:+ t) +:+ u = s +:+ t +:+ u.
Proof. induction s as [|c s IH]; [reflexivity|]. rewrite !string_app_cons. now rewrite IH. Qed.

Lemma string_app_nil_r (s : string) : s +:+ "" = s.
Proof. induction s as [|c s IH]; [reflexivity|]. rewrite string_app_cons. now rewrite IH. Qed.

Section WriteCsv.

Lemma no_newline_app s t :
  Str.no_newline (s +:+ t) = Str.no_newline s && Str.no_newline t.
Proof.
  unfold Str.no_newline. induction s as [|c s IH]; [reflexivity|].
  rewrite string_app_cons. simpl. now rewrite IH, andb_assoc.
Qed.

(** A line without line feeds, then a line feed: one more line. *)
Lemma lines_from_line cur s rest :
  Str.no_newline s = true ->
  Str.lines_from cur (s +:+ Str.nl +:+ rest) = (cur +:+ s) :: Str.lines_from "" rest.
Proof.
  revert cur. induction s as [|c s IH]; intros cur Hs.
  - rewrite string_app_nil, string_app_nil_r. unfold Str.nl. rewrite string_app_cons, string_app_nil.
    cbn [Str.lines_from]. now rewrite Ascii.eqb_refl.
  - rewrite string_app_cons. cbn [Str.lines_from].
    unfold Str.no_newline in Hs. cbn [Str.all] in Hs.
    apply andb_true_iff in Hs as [Hc Hs]. apply negb_true_iff in Hc. rewrite Hc.
    rewrite IH by exact Hs. now rewrite string_app_assoc, string_app_cons, string_app_nil.
Qed.

Lemma format_row_single_line r :
  single_line_fields r ->
  format_row r = Ok (row_line r +:+ Str.nl) /\ Str.no_newline (row_line r) = true.
Proof.
  intros (formula & ZT & Hf & Hz & Hnf & Hnz).
  unfold format_row, getitem, row_line. rewrite Hf, Hz. simpl. split.
  - now rewrite !string_app_assoc.
  - rewrite !no_newline_app, Hnf, Hnz. reflexivity.
Qed.

Lemma write_rows_lines rows f :
  Forall single_line_fields rows ->
  exists text,
    write_rows rows f = (f +:+ text, Ok ()) /\
    Str.lines_from "" text = map row_line rows.
Proof.
  intros Hrows. revert f. induction Hrows as [|r rows Hr Hrows IH]; intros f; simpl.
  - exists "". now rewrite string_app_nil_r.
  - destruct (format_row_single_line r Hr) as [-> Hn].
    destruct (IH (f +:+ row_line r +:+ Str.nl)) as (text & -> & Hl).
    exists (row_line r +:+ Str.nl +:+ text). split.
    + now rewrite !string_app_assoc.
    + rewrite lines_from_line by exact Hn. now rewrite Hl.
Qed.

(** C7, amended: when every row has the string fields formula and ZT and
    neither holds a line feed, [write_csv] succeeds and the file it writes
    has exactly [length rows + 1] lines: the header, then the line of each
    row, in order. *)
Theorem write_csv_lines name rows fs :
  Forall single_line_fields rows ->
  exists text,
    write_csv name rows fs = (<[name := text]> fs, Ok ()) /\
    Str.lines text = header :: map row_line rows /\
    length (Str.lines text) = S (length rows).
Proof.
  intros Hrows. unfold write_csv.
  destruct (write_rows_lines rows (header +:+ Str.nl) Hrows) as (text & -> & Hl).
  exists ((header +:+ Str.nl) +:+ text). split; [reflexivity|].
  assert (Str.lines ((header +:+ Str.nl) +:+ text) = header :: map row_line rows) as ->.
  { unfold Str.lines. rewrite string_app_assoc, lines_from_line by reflexivity. now rewrite Hl. }
  split; [reflexivity|]. simpl. now rewrite length_map.
Qed.

(** The amended C7 at two rows. *)
Lemma write_csv_lines_witness :
  exists text,
    write_csv "known_thermoelectrics.csv" sample_rows ∅
      = (<["known_thermoelectrics.csv" := text]> ∅, Ok ()) /\
    Str.lines text = header :: map row_line sample_rows /\
    length (Str.lines text) = S (length sample_rows).
Proof.
  apply (write_csv_lines "known_thermoelectrics.csv" sample_rows ∅).
  repeat constructor.
  - exists "Bi2Te3", "1.1". repeat split; reflexivity.
  - exists "PbTe", "0.8". repeat split; reflexivity.
Defined.

(** C7 as stated fails: a row with string fields whose formula holds a line
    feed gives a file of three lines for one row. *)
Lemma write_csv_two_line_field :
  string_fields two_line_row /\
  exists text,
    write_csv "known_thermoelectrics.csv" [two_line_row] ∅
      = (<["known_thermoelectrics.csv" := text]> ∅, Ok ()) /\
    Str.lines text = [header; "Bi2"; "Te3, 1.1"] /\
    length (Str.lines text) <> S (length [two_line_row]).
Proof.
  split.
  - split; eexists; reflexivity.
  - eexists. split; [reflexivity|]. split; [reflexivity|]. simpl. lia.
Qed.

End WriteCsv.

(** ** The alloy formulas *)

Section SMA.
Variable str : float -> string.

Lemma cell_entry data i el :
  well_formed data -> i < shape0 data -> el ∈ elements ->
  cell data el i = Ok (entry data i el).
Proof.
  intros Hwf Hi Hel. destruct (Hwf el Hel) as (c & Hc & Hlen).
  unfold entry, cell. rewrite Hc.
  destruct (lookup_lt_is_Some_2 c i) as [v Hv]; [lia|]. now rewrite Hv.
Qed.

Lemma append_elements_spec data i els text :
  well_formed data -> i < shape0 data -> els ⊆ elements ->
  append_elements str data i els text =
  Ok (text +:+ fold_right (fun el acc => el +:+ str (percent (entry data i el)) +:+ acc) ""
                 (filter (fun el => gt0 (entry data i el) = true) els)).
Proof.
  intros Hwf Hi. revert text. induction els as [|el els IH]; intros text Hsub.
  - simpl. now rewrite string_app_nil_r.
  - assert (Hel : el ∈ elements) by (apply Hsub; left).
    assert (Hsub' : els ⊆ elements) by (intros x Hx; apply Hsub; now right).
    cbn [append_elements]. rewrite (cell_entry _ _ _ Hwf Hi Hel). simpl.
    rewrite filter_cons. destruct (gt0 (entry data i el)) eqn:Hgt.
    + rewrite decide_True by reflexivity. rewrite IH by exact Hsub'.
      simpl. now rewrite !string_app_assoc.
    + rewrite decide_False by discriminate. now apply IH.
Qed.

Lemma formula_loop_spec data i count :
  well_formed data -> i + count <= shape0 data ->
  exists fs,
    formula_loop str data i count = Ok fs /\ length fs = count /\
    forall j, j < count -> fs !! j = Some ("Ti0.5" +:+ formula_text str data (i + j)).
Proof.
  intros Hwf. revert i. induction count as [|count IH]; intros i Hi; simpl.
  - exists []. repeat split; auto. intros j Hj. lia.
  - unfold row_formula. rewrite append_elements_spec by (auto; lia).
    destruct (IH (S i)) as (fs & -> & Hlen & Hfs); [lia|]. simpl.
    eexists. split; [reflexivity|]. split; [simpl; now rewrite Hlen|].
    intros [|j] Hj; simpl.
    + now rewrite Nat.add_0_r.
    + rewrite Hfs by lia. do 3 f_equal. lia.
Qed.

Lemma entry_lookup data el i c v :
  columns data !! el = Some c -> c !! i = Some v -> entry data i el = v.
Proof. intros Hc Hv. unfold entry, cell. now rewrite Hc, Hv. Qed.

Lemma formula_text_spec data i :
  "Ti0.5" +:+ formula_text str data i =
  row_formula_spec str (entry data i "Ni") (entry data i "Cu") (entry data i "Fe")
    (entry data i "Pd").
Proof.
  unfold formula_text, positive_elements, elements, row_formula_spec, part_spec, percent.
  rewrite !filter_cons, filter_nil.
  destruct (gt0 (entry data i "Ni")), (gt0 (entry data i "Cu")),
    (gt0 (entry data i "Fe")), (gt0 (entry data i "Pd"));
    repeat (rewrite decide_True by reflexivity || rewrite decide_False by discriminate);
    simpl; rewrite ?string_app_nil, ?string_app_nil_r, ?string_app_assoc; reflexivity.
Qed.

(** C9: on a table whose columns Ni, Cu, Fe and Pd hold one value per row,
    the loop gives every row a formula: Ti0.5 followed, in the order Ni, Cu,
    Fe, Pd, by the symbol and the value divided by 100 of exactly the
    elements whose value in that row is greater than 0; a row without a
    positive value gets Ti0.5 alone. *)
Theorem formulas_spec data (Ni Cu Fe Pd : list num) :
  columns data !! "Ni" = Some Ni -> columns data !! "Cu" = Some Cu ->
  columns data !! "Fe" = Some Fe -> columns data !! "Pd" = Some Pd ->
  length Ni = shape0 data -> length Cu = shape0 data ->
  length Fe = shape0 data -> length Pd = shape0 data ->
  exists fs,
    formulas str data = Ok fs /\ length fs = shape0 data /\
    forall i ni cu fe pd,
      Ni !! i = Some ni -> Cu !! i = Some cu -> Fe !! i = Some fe -> Pd !! i = Some pd ->
      fs !! i = Some (row_formula_spec str ni cu fe pd) /\
      (gt0 ni = false -> gt0 cu = false -> gt0 fe = false -> gt0 pd = false ->
       fs !! i = Some "Ti0.5").
Proof.
  intros HNi HCu HFe HPd LNi LCu LFe LPd.
  assert (Hwf : well_formed data).
  { intros el Hel. unfold elements in Hel.
    repeat (apply elem_of_cons in Hel as [->|Hel]; [eauto|]).
    now apply elem_of_nil in Hel. }
  destruct (formula_loop_spec data 0 (shape0 data) Hwf) as (fs & H & Hlen & Hfs); [lia|].
  exists fs. split; [exact H|]. split; [exact Hlen|].
  intros i ni cu fe pd Hni Hcu Hfe Hpd.
  assert (Hi : i < shape0 data) by (rewrite <- LNi; eapply lookup_lt_Some; eauto).
  specialize (Hfs i Hi). simpl in Hfs. rewrite formula_text_spec in Hfs.
  rewrite (entry_lookup _ _ _ _ _ HNi Hni), (entry_lookup _ _ _ _ _ HCu Hcu),
    (entry_lookup _ _ _ _ _ HFe Hfe), (entry_lookup _ _ _ _ _ HPd Hpd) in Hfs.
  split; [exact Hfs|].
  intros G1 G2 G3 G4. rewrite Hfs. unfold row_formula_spec, part_spec.
  now rewrite G1, G2, G3, G4.
Qed.

End SMA.

(** C9 at a table of two alloys, Ti50 Ni25 Cu25 and one with no positive
    entry. *)
Lemma formulas_spec_witness :
  exists fs,
    formulas sample_str sample = Ok fs /\ length fs = shape0 sample /\
    forall i ni cu fe pd,
      [Int 25; Int 0] !! i = Some ni -> [Int 25; Int 0] !! i = Some cu ->
      [Int 0; Int 0] !! i = Some fe -> [Int 0; Int 0] !! i = Some pd ->
      fs !! i = Some (row_formula_spec sample_str ni cu fe pd) /\
      (gt0 ni = false -> gt0 cu = false -> gt0 fe = false -> gt0 pd = false ->
       fs !! i = Some "Ti0.5").
Proof.
  apply (formulas_spec sample_str sample [Int 25; Int 0] [Int 25; Int 0]
           [Int 0; Int 0] [Int 0; Int 0]); reflexivity.
Defined.

(** ** The sequential-learning driver *)

Section DriverFacts.
Context {St : Type} (client : Service St) (true_function : Laboratory St).

(** The second of two steps runs in the state the first one leaves. *)
Lemma bind_Some {S A B} (m : M S A) (k : A -> M S B) s a s' :
  m s = (Some a, s') -> (m ≫= k) s = k a s'.
Proof. unfold mbind, M_bind. now intros ->. Qed.

Lemma bind_None {S A B} (m : M S A) (k : A -> M S B) s s' :
  m s = (None, s') -> (m ≫= k) s = (None, s').
Proof. unfold mbind, M_bind. now intros ->. Qed.

Lemma exec_record f e (s : St) log :
  exec (record_do f e) (s, log) = (Some (), (f s, log ++ [e])).
Proof. reflexivity. Qed.

Lemma call_record {A} (f : St -> A * St) (e : A -> event) (s : St) log :
  call (record_call f e) (s, log) = (Some (f s).1, ((f s).2, log ++ [e (f s).1])).
Proof. unfold call, record_call. now destruct (f s). Qed.

(** *** Traces *)

Lemma trace_app s l1 s1 l2 s2 :
  trace client true_function s l1 s1 -> trace client true_function s1 l2 s2 ->
  trace client true_function s (l1 ++ l2) s2.
Proof. induction 1; simpl; [auto|]. intros. econstructor; eauto. Qed.

Lemma trace_one e s s' :
  performs client true_function e s s' -> trace client true_function s [e] s'.
Proof. intros. econstructor; [eassumption | constructor]. Qed.

(** *** The polling loop *)

Lemma status_performs status poll s :
  status_request client status poll ->
  performs client true_function (poll (status s).1) s (status s).2.
Proof. destruct 1; constructor. Qed.

(** A polling loop that returns has been refused [i] times, has slept after
    each refusal, and has then been answered ready; one that runs out of
    fuel has been refused [fuel] times. *)
Lemma wait_until_ready_log status poll w fuel s log :
  status_request client status poll ->
  exists s',
    (exists i, i < fuel /\
       wait_until_ready (recording client) (record_call status poll) w fuel (s, log)
         = (Some (), (s', log ++ polling poll w i)) /\
       trace client true_function s (polling poll w i) s') \/
    (wait_until_ready (recording client) (record_call status poll) w fuel (s, log)
       = (None, (s', log ++ refusals poll w fuel)) /\
     trace client true_function s (refusals poll w fuel) s').
Proof.
  intros Hst. revert s log. induction fuel as [|fuel IH]; intros s log.
  - exists s. right. simpl. rewrite app_nil_r. split; [reflexivity | constructor].
  - cbn [wait_until_ready].
    rewrite (bind_Some _ _ _ _ _ (call_record status poll s log)).
    pose proof (status_performs status poll s Hst) as Hp.
    destruct (status s) as [[] s1]; cbn [fst snd] in *.
    + exists s1. left. exists 0. split; [lia|]. split; [reflexivity|]. now apply trace_one.
    + change (sleep (recording client) w) with (record_do (sleep client w) (Sleep w)).
      rewrite (bind_Some _ _ _ _ _ (exec_record _ _ _ _)).
      destruct (IH (sleep client w s1) ((log ++ [poll false]) ++ [Sleep w])) as (s' & H).
      exists s'.
      assert (Hsl : trace client true_function s [poll false; Sleep w] (sleep client w s1)).
      { econstructor; [exact Hp|]. apply trace_one. constructor. }
      destruct H as [(i & Hi & -> & Ht)|[-> Ht]].
      * left. exists (S i). split; [lia|]. split.
        -- unfold polling. cbn [refusals]. now rewrite <- !app_assoc.
        -- apply (trace_app _ [poll false; Sleep w] _ _ _ Hsl Ht).
      * right. split.
        -- cbn [refusals]. now rewrite <- !app_assoc.
        -- apply (trace_app _ [poll false; Sleep w] _ _ _ Hsl Ht).
Qed.

(** Enough fuel: a status that turns ready within [k] requests ends the
    loop, in the same way whatever fuel is left over. *)
Lemma wait_until_ready_total status poll w k s :
  ready_within client status w k s = true ->
  exists i s', i < k /\
    forall fuel log, k <= fuel ->
      wait_until_ready (recording client) (record_call status poll) w fuel (s, log)
        = (Some (), (s', log ++ polling poll w i)).
Proof.
  revert s. induction k as [|k IH]; intros s; [discriminate|].
  cbn [ready_within]. destruct (status s) as [[] s1] eqn:Hs; cbn [orb].
  - intros _. exists 0, s1. split; [lia|]. intros [|fuel] log Hk; [lia|].
    cbn [wait_until_ready].
    rewrite (bind_Some _ _ _ _ _ (call_record status poll s log)), Hs. reflexivity.
  - intros H. destruct (IH _ H) as (i & s' & Hi & Hrun).
    exists (S i), s'. split; [lia|]. intros [|fuel] log Hk; [lia|].
    cbn [wait_until_ready].
    rewrite (bind_Some _ _ _ _ _ (call_record status poll s log)), Hs. cbn [fst snd].
    change (sleep (recording client) w) with (record_do (sleep client w) (Sleep w)).
    rewrite (bind_Some _ _ _ _ _ (exec_record _ _ _ _)).
    rewrite Hrun by lia. unfold polling. cbn [refusals]. now rewrite <- !app_assoc.
Qed.

(** *** The measurements *)

Lemma measure_all_log cs s :
  exists ys s',
    (forall log,
       measure_all (recording_function true_function) cs (s, log)
         = (Some ys, (s', log ++ zip_with Measure (map inputs cs) ys))) /\
    length ys = length cs /\
    trace client true_function s (zip_with Measure (map inputs cs) ys) s'.
Proof.
  revert s. induction cs as [|c cs IH]; intros s.
  - exists [], s. split; [|split; [reflexivity | constructor]].
    intros log. simpl. now rewrite app_nil_r.
  - destruct (IH (true_function (inputs c) s).2) as (ys & s' & Hrun & Hlen & Ht).
    exists ((true_function (inputs c) s).1 :: ys), s'. split; [|split].
    + intros log. cbn [measure_all].
      change (recording_function true_function (inputs c))
        with (record_call (true_function (inputs c)) (Measure (inputs c))).
      rewrite (bind_Some _ _ _ _ _ (call_record _ _ s log)).
      rewrite (bind_Some _ _ _ _ _ (Hrun _)). cbn. now rewrite <- app_assoc.
    + simpl. now rewrite Hlen.
    + cbn. econstructor; [constructor | exact Ht].
Qed.

(** *** One iteration, and the loop *)

Section Iterations.
Variables (num_candidates_per_iter design_effort wait_time fuel : nat).
Variable best : list float -> float.

Let iteration_of := sl_iteration (recording client) (recording_function true_function)
  num_candidates_per_iter design_effort wait_time fuel best.
Let loop_of := sl_loop (recording client) (recording_function true_function)
  num_candidates_per_iter design_effort wait_time fuel best.
Let log_of := iteration_log num_candidates_per_iter design_effort wait_time.

(** An iteration writes the record of its six steps, or stops in one of its
    two polling loops; the record is what the world did. *)
Lemma sl_iteration_log s log :
  exists o s' evs,
    iteration_of (s, log) = (o, (s', log ++ evs)) /\
    trace client true_function s evs s' /\
    match o with
    | Some r => exists it, within_fuel fuel it /\ evs = log_of it /\ r = recorded best it
    | None => unfinished num_candidates_per_iter design_effort wait_time fuel evs
    end.
Proof.
  unfold iteration_of, sl_iteration.
  change (submit_design_run (recording client) num_candidates_per_iter design_effort)
    with (record_do (submit_design_run client num_candidates_per_iter design_effort)
            (SubmitDesign num_candidates_per_iter design_effort)).
  change (design_status (recording client)) with (record_call (design_status client) PollDesign).
  change (view_status (recording client)) with (record_call (view_status client) PollView).
  change (design_results (recording client))
    with (record_call (design_results client) GetCandidates).
  change (retrain (recording client)) with (record_do (retrain client) Retrain).
  set (submit := SubmitDesign num_candidates_per_iter design_effort).
  rewrite (bind_Some _ _ _ _ _ (exec_record _ _ _ _)).
  set (s1 := submit_design_run client num_candidates_per_iter design_effort s).
  assert (T1 : trace client true_function s [submit] s1) by (apply trace_one; constructor).
  destruct (wait_until_ready_log (design_status client) PollDesign wait_time fuel s1
              (log ++ [submit]) (request_design client)) as (s2 & [(i & Hi & Hw & T2)|[Hw T2]]).
  2:{ rewrite (bind_None _ _ _ _ Hw). exists None, s2. eexists. split; [|split].
      - now rewrite <- app_assoc.
      - exact (trace_app _ _ _ _ _ T1 T2).
      - constructor. }
  rewrite (bind_Some _ _ _ _ _ Hw).
  rewrite (bind_Some _ _ _ _ _ (call_record _ _ _ _)).
  set (cs := (design_results client s2).1). set (s3 := (design_results client s2).2).
  assert (T3 : trace client true_function s2 [GetCandidates cs] s3)
    by (apply trace_one; constructor).
  match goal with |- context [(_ ≫= _) (s3, ?l)] => set (log3 := l) end.
  destruct (measure_all_log cs s3) as (ys & s4 & Hm & Hlen & T4).
  rewrite (bind_Some _ _ _ _ _ (Hm log3)).
  change (add_to_dataset (recording client) (zip cs ys))
    with (record_do (add_to_dataset client (zip cs ys)) (AddToDataset (zip cs ys))).
  rewrite (bind_Some _ _ _ _ _ (exec_record _ _ _ _)).
  rewrite (bind_Some _ _ _ _ _ (exec_record _ _ _ _)).
  set (s5 := add_to_dataset client (zip cs ys) s4). set (s6 := retrain client s5).
  assert (T5 : trace client true_function s4 [AddToDataset (zip cs ys); Retrain] s6).
  { econstructor; [constructor|]. apply trace_one. constructor. }
  match goal with |- context [(_ ≫= _) (s6, ?l)] => set (log6 := l) end.
  destruct (wait_until_ready_log (view_status client) PollView wait_time fuel s6 log6
              (request_view client)) as (s7 & [(j & Hj & Hv & T6)|[Hv T6]]).
  - rewrite (bind_Some _ _ _ _ _ Hv).
    set (it := {| design_refusals := i; candidates := cs; measured := ys; view_refusals := j |}).
    exists (Some (recorded best it)), s7, (log_of it). split; [|split].
    + unfold mret, M_ret, log6, log3, log_of, iteration_log, measurements, it, recorded.
      cbn [design_refusals candidates measured view_refusals].
      do 2 f_equal. rewrite <- !app_assoc. reflexivity.
    + unfold log_of, iteration_log, measurements, it.
      cbn [design_refusals candidates measured view_refusals].
      apply (trace_app _ [submit] _ _ _ T1). apply (trace_app _ _ _ _ _ T2).
      apply (trace_app _ [GetCandidates cs] _ _ _ T3). apply (trace_app _ _ _ _ _ T4).
      apply (trace_app _ [AddToDataset (zip cs ys); Retrain] _ _ _ T5). exact T6.
    + exists it. repeat split; assumption.
  - rewrite (bind_None _ _ _ _ Hv).
    set (it := {| design_refusals := i; candidates := cs; measured := ys; view_refusals := 0 |}).
    exists None, s7. eexists. split; [|split].
    + unfold log6, log3. rewrite <- !app_assoc. reflexivity.
    + apply (trace_app _ [submit] _ _ _ T1). apply (trace_app _ _ _ _ _ T2).
      apply (trace_app _ [GetCandidates cs] _ _ _ T3). apply (trace_app _ _ _ _ _ T4).
      apply (trace_app _ [AddToDataset (zip cs ys); Retrain] _ _ _ T5). exact T6.
    + apply (unfinished_view _ _ _ _ it). exact Hlen.
Qed.

(** The loop writes the records of its finished iterations one after the
    other; when it returns, every iteration has finished and the two lists
    hold what each has recorded, in order. *)
Lemma sl_loop_log n preds meas s log :
  exists o s' its rest,
    loop_of n preds meas (s, log) = (o, (s', log ++ concat (map log_of its) ++ rest)) /\
    trace client true_function s (concat (map log_of its) ++ rest) s' /\
    Forall (within_fuel fuel) its /\
    match o with
    | Some r =>
        rest = [] /\ length its = n /\
        r = (preds ++ map (fun it => (recorded best it).1) its,
             meas ++ map (fun it => (recorded best it).2) its)
    | None =>
        length its < n /\
        unfinished num_candidates_per_iter design_effort wait_time fuel rest
    end.
Proof.
  revert preds meas s log. induction n as [|n IH]; intros preds meas s log.
  - exists (Some (preds, meas)), s, [], []. simpl. rewrite !app_nil_r.
    repeat split; constructor.
  - unfold loop_of. cbn [sl_loop]. fold loop_of. fold iteration_of.
    destruct (sl_iteration_log s log) as (o & s1 & evs & Hrun & T1 & Ho).
    destruct o as [r|].
    + destruct Ho as (it & Hfuel & -> & ->).
      rewrite (bind_Some _ _ _ _ _ Hrun).
      destruct (IH (preds ++ [(recorded best it).1]) (meas ++ [(recorded best it).2]) s1
                  (log ++ log_of it)) as (o & s' & its & rest & Hloop & T2 & Hall & Ho).
      exists o, s', (it :: its), rest. split; [|split; [|split]].
      * rewrite Hloop. cbn [map concat]. now rewrite <- !app_assoc.
      * cbn [map concat]. rewrite <- app_assoc. exact (trace_app _ _ _ _ _ T1 T2).
      * now constructor.
      * destruct o as [r|].
        -- destruct Ho as (-> & <- & ->). cbn [map length]. now rewrite <- !app_assoc.
        -- destruct Ho as [Hlt Hun]. cbn [length]. split; [lia | exact Hun].
    + rewrite (bind_None _ _ _ _ Hrun).
      exists None, s1, [], evs. cbn [map concat app length].
      repeat split; [exact T1 | constructor | lia | exact Ho].
Qed.

End Iterations.

(** *** Enough fuel *)

Section Totality.
Variables (num_candidates_per_iter design_effort wait_time : nat).
Variable best : list float -> float.
Hypothesis design_ready :
  forall s, exists k, ready_within client (design_status client) wait_time k s = true.
Hypothesis view_ready :
  forall s, exists k, ready_within client (view_status client) wait_time k s = true.

Let log_of := iteration_log num_candidates_per_iter design_effort wait_time.

(** When every job turns ready at some request, an iteration ends, and it
    ends in the same way with any larger fuel. *)
Lemma sl_iteration_total s :
  exists fuel0 it s', well_measured it /\
    forall fuel log, fuel0 <= fuel ->
      sl_iteration (recording client) (recording_function true_function)
        num_candidates_per_iter design_effort wait_time fuel best (s, log)
      = (Some (recorded best it), (s', log ++ log_of it)).
Proof.
  set (submit := SubmitDesign num_candidates_per_iter design_effort).
  set (s1 := submit_design_run client num_candidates_per_iter design_effort s).
  destruct (design_ready s1) as [k1 Hk1].
  destruct (wait_until_ready_total (design_status client) PollDesign wait_time k1 s1 Hk1)
    as (i & s2 & Hi & Hw).
  set (cs := (design_results client s2).1). set (s3 := (design_results client s2).2).
  destruct (measure_all_log cs s3) as (ys & s4 & Hm & Hlen & _).
  set (s6 := retrain client (add_to_dataset client (zip cs ys) s4)).
  destruct (view_ready s6) as [k2 Hk2].
  destruct (wait_until_ready_total (view_status client) PollView wait_time k2 s6 Hk2)
    as (j & s7 & Hj & Hv).
  set (it := {| design_refusals := i; candidates := cs; measured := ys; view_refusals := j |}).
  exists (Nat.max k1 k2), it, s7. split; [exact Hlen|].
  intros fuel log Hfuel. unfold sl_iteration.
  change (submit_design_run (recording client) num_candidates_per_iter design_effort)
    with (record_do (submit_design_run client num_candidates_per_iter design_effort) submit).
  change (design_status (recording client)) with (record_call (design_status client) PollDesign).
  change (view_status (recording client)) with (record_call (view_status client) PollView).
  change (design_results (recording client))
    with (record_call (design_results client) GetCandidates).
  change (retrain (recording client)) with (record_do (retrain client) Retrain).
  rewrite (bind_Some _ _ _ _ _ (exec_record _ _ _ _)).
  rewrite (bind_Some _ _ _ _ _ (Hw fuel _ ltac:(lia))).
  rewrite (bind_Some _ _ _ _ _ (call_record _ _ _ _)). fold cs s3.
  rewrite (bind_Some _ _ _ _ _ (Hm _)).
  change (add_to_dataset (recording client) (zip cs ys))
    with (record_do (add_to_dataset client (zip cs ys)) (AddToDataset (zip cs ys))).
  rewrite (bind_Some _ _ _ _ _ (exec_record _ _ _ _)).
  rewrite (bind_Some _ _ _ _ _ (exec_record _ _ _ _)).
  rewrite (bind_Some _ _ _ _ _ (Hv fuel _ ltac:(lia))).
  unfold mret, M_ret, log_of, iteration_log, measurements, it, recorded.
  cbn [design_refusals candidates measured view_refusals].
  do 2 f_equal. rewrite <- !app_assoc. reflexivity.
Qed.

Lemma sl_loop_total n s :
  exists fuel0 its s', length its = n /\ Forall well_measured its /\
    forall fuel preds meas log, fuel0 <= fuel ->
      sl_loop (recording client) (recording_function true_function)
        num_candidates_per_iter design_effort wait_time fuel best n preds meas (s, log)
      = (Some (preds ++ map (fun it => (recorded best it).1) its,
               meas ++ map (fun it => (recorded best it).2) its),
         (s', log ++ concat (map log_of its))).
Proof.
  revert s. induction n as [|n IH]; intros s.
  - exists 0, [], s. repeat split; [constructor|].
    intros fuel preds meas log _. simpl. now rewrite !app_nil_r.
  - destruct (sl_iteration_total s) as (f1 & it & s1 & Hit & Hrun).
    destruct (IH s1) as (f2 & its & s' & Hlen & Hall & Hloop).
    exists (Nat.max f1 f2), (it :: its), s'. split; [simpl; lia|]. split; [now constructor|].
    intros fuel preds meas log Hfuel. cbn [sl_loop].
    rewrite (bind_Some _ _ _ _ _ (Hrun fuel log ltac:(lia))).
    rewrite (Hloop fuel _ _ _ ltac:(lia)). cbn [map concat]. now rewrite <- !app_assoc.
Qed.

End Totality.

(** *** Keeping the record changes nothing

    A run in the recording world returns what the run in the world itself
    returns, and leaves that world in the same state. *)

Lemma call_eq {S A} (f : S -> A * S) s : call f s = (Some (f s).1, (f s).2).
Proof. unfold call. now destruct (f s). Qed.

Lemma wait_until_ready_erase status poll w fuel s log :
  exists log',
    wait_until_ready (recording client) (record_call status poll) w fuel (s, log)
    = ((wait_until_ready client status w fuel s).1,
       ((wait_until_ready client status w fuel s).2, log')).
Proof.
  revert s log. induction fuel as [|fuel IH]; intros s log; [now exists log|].
  cbn [wait_until_ready].
  rewrite (bind_Some _ _ _ _ _ (call_record status poll s log)).
  rewrite (bind_Some _ _ _ _ _ (call_eq status s)).
  destruct (status s) as [[] s1]; cbn [fst snd].
  - eexists. reflexivity.
  - change (sleep (recording client) w) with (record_do (sleep client w) (Sleep w)).
    rewrite (bind_Some _ _ _ _ _ (exec_record _ _ _ _)).
    rewrite (bind_Some (exec (sleep client w)) _ s1 () (sleep client w s1) eq_refl).
    apply IH.
Qed.

Lemma measure_all_erase cs s :
  exists ys s', measure_all true_function cs s = (Some ys, s') /\
    forall log, exists log',
      measure_all (recording_function true_function) cs (s, log) = (Some ys, (s', log')).
Proof.
  revert s. induction cs as [|c cs IH]; intros s.
  - exists [], s. split; [reflexivity|]. intros log. now exists log.
  - destruct (IH (true_function (inputs c) s).2) as (ys & s' & Hrun & Hrec).
    exists ((true_function (inputs c) s).1 :: ys), s'. split.
    + cbn [measure_all]. rewrite (bind_Some _ _ _ _ _ (call_eq _ s)).
      now rewrite (bind_Some _ _ _ _ _ Hrun).
    + intros log. cbn [measure_all].
      change (recording_function true_function (inputs c))
        with (record_call (true_function (inputs c)) (Measure (inputs c))).
      rewrite (bind_Some _ _ _ _ _ (call_record _ _ s log)).
      destruct (Hrec (log ++ [Measure (inputs c) (true_function (inputs c) s).1]))
        as [log' Hlog].
      rewrite (bind_Some _ _ _ _ _ Hlog). now exists log'.
Qed.

Section Erasure.
Variables (num_candidates_per_iter design_effort wait_time fuel : nat).
Variable best : list float -> float.

Lemma sl_iteration_erase s log :
  exists log',
    sl_iteration (recording client) (recording_function true_function)
      num_candidates_per_iter design_effort wait_time fuel best (s, log)
    = ((sl_iteration client true_function num_candidates_per_iter design_effort wait_time
          fuel best s).1,
       ((sl_iteration client true_function num_candidates_per_iter design_effort wait_time
           fuel best s).2, log')).
Proof.
  unfold sl_iteration.
  change (submit_design_run (recording client) num_candidates_per_iter design_effort)
    with (record_do (submit_design_run client num_candidates_per_iter design_effort)
            (SubmitDesign num_candidates_per_iter design_effort)).
  change (design_status (recording client)) with (record_call (design_status client) PollDesign).
  change (view_status (recording client)) with (record_call (view_status client) PollView).
  change (design_results (recording client))
    with (record_call (design_results client) GetCandidates).
  change (retrain (recording client)) with (record_do (retrain client) Retrain).
  rewrite (bind_Some _ _ _ _ _ (exec_record _ _ _ _)).
  rewrite (bind_Some (exec (submit_design_run client _ _)) _ s ()
             (submit_design_run client num_candidates_per_iter design_effort s) eq_refl).
  set (s1 := submit_design_run client num_candidates_per_iter design_effort s).
  match goal with |- context [(_ ≫= _) (s1, ?l)] => set (log1 := l) end.
  destruct (wait_until_ready_erase (design_status client) PollDesign wait_time fuel s1 log1)
    as [log2 Hw].
  destruct (wait_until_ready client (design_status client) wait_time fuel s1) as [[[]|] s2] eqn:Hw0;
    cbn [fst snd] in Hw.
  2:{ rewrite (bind_None _ _ _ _ Hw), (bind_None _ _ _ _ Hw0). now exists log2. }
  rewrite (bind_Some _ _ _ _ _ Hw), (bind_Some _ _ _ _ _ Hw0).
  rewrite (bind_Some _ _ _ _ _ (call_record _ _ _ _)).
  rewrite (bind_Some _ _ _ _ _ (call_eq (design_results client) s2)).
  set (cs := (design_results client s2).1). set (s3 := (design_results client s2).2).
  destruct (measure_all_erase cs s3) as (ys & s4 & Hm0 & Hm).
  match goal with |- context [(_ ≫= _) (s3, ?l)] => destruct (Hm l) as [log4 Hm4] end.
  rewrite (bind_Some _ _ _ _ _ Hm4), (bind_Some _ _ _ _ _ Hm0).
  change (add_to_dataset (recording client) (zip cs ys))
    with (record_do (add_to_dataset client (zip cs ys)) (AddToDataset (zip cs ys))).
  rewrite !(bind_Some _ _ _ _ _ (exec_record _ _ _ _)).
  rewrite (bind_Some (exec (add_to_dataset client (zip cs ys))) _ s4 ()
             (add_to_dataset client (zip cs ys) s4) eq_refl).
  rewrite (bind_Some (exec (retrain client)) _ _ ()
             (retrain client (add_to_dataset client (zip cs ys) s4)) eq_refl).
  set (s6 := retrain client (add_to_dataset client (zip cs ys) s4)).
  match goal with |- context [(_ ≫= _) (s6, ?l)] => set (log6 := l) end.
  destruct (wait_until_ready_erase (view_status client) PollView wait_time fuel s6 log6)
    as [log7 Hv].
  destruct (wait_until_ready client (view_status client) wait_time fuel s6) as [[[]|] s7] eqn:Hv0;
    cbn [fst snd] in Hv.
  - rewrite (bind_Some _ _ _ _ _ Hv), (bind_Some _ _ _ _ _ Hv0). now exists log7.
  - rewrite (bind_None _ _ _ _ Hv), (bind_None _ _ _ _ Hv0). now exists log7.
Qed.

Lemma sl_loop_erase n preds meas s log :
  exists log',
    sl_loop (recording client) (recording_function true_function)
      num_candidates_per_iter design_effort wait_time fuel best n preds meas (s, log)
    = ((sl_loop client true_function num_candidates_per_iter design_effort wait_time
          fuel best n preds meas s).1,
       ((sl_loop client true_function num_candidates_per_iter design_effort wait_time
           fuel best n preds meas s).2, log')).
Proof.
  revert preds meas s log. induction n as [|n IH]; intros preds meas s log; [now exists log|].
  cbn [sl_loop]. destruct (sl_iteration_erase s log) as [log1 Hit].
  destruct (sl_iteration client true_function num_candidates_per_iter design_effort
              wait_time fuel best s) as [[r|] s1] eqn:Hit0; cbn [fst snd] in Hit.
  - rewrite (bind_Some _ _ _ _ _ Hit), (bind_Some _ _ _ _ _ Hit0). apply IH.
  - rewrite (bind_None _ _ _ _ Hit), (bind_None _ _ _ _ Hit0). now exists log1.
Qed.

End Erasure.

End DriverFacts.

(** *** Reading a record *)

Section Split.
Context {A : Type} (P : A -> bool).

Lemma free_app l1 l2 : free P l1 -> free P l2 -> free P (l1 ++ l2).
Proof. apply Forall_app_2. Qed.

Lemma free_no_mark l l1 y l2 : free P l -> P y = true -> l <> l1 ++ y :: l2.
Proof.
  intros Hl Hy ->. apply Forall_app in Hl as [_ Hl]. apply Forall_cons in Hl as [Hl _].
  congruence.
Qed.

(** A marked element behind an unmarked prefix: it is the first one after
    the prefix, or it comes later. *)
Lemma split_free pre x post l1 y l2 :
  free P pre -> P y = true -> pre ++ x :: post = l1 ++ y :: l2 ->
  (l1 = pre /\ x = y /\ l2 = post) \/
  (exists l1', l1 = pre ++ x :: l1' /\ post = l1' ++ y :: l2).
Proof.
  intros Hpre Hy. revert l1. induction Hpre as [|p pre Hp _ IH]; intros l1 H.
  - destruct l1 as [|a l1]; simpl in H; injection H as -> ->; [left | right]; eauto.
  - destruct l1 as [|a l1]; simpl in H; injection H as -> H; [congruence|].
    destruct (IH _ H) as [(-> & -> & ->)|(l1' & -> & ->)]; [left | right]; eauto.
Qed.

Lemma free_prefix pre later l1 y l2 :
  free P pre -> P y = true -> pre ++ later = l1 ++ y :: l2 ->
  exists l1', l1 = pre ++ l1' /\ later = l1' ++ y :: l2.
Proof.
  intros Hpre Hy. revert l1. induction Hpre as [|p pre Hp _ IH]; intros l1 H.
  - now exists l1.
  - destruct l1 as [|a l1]; simpl in H; injection H as -> H; [congruence|].
    destruct (IH _ H) as (l1' & -> & ->). now exists l1'.
Qed.

End Split.

Section Marks.
Variable P : event -> bool.

Lemma refusals_free poll w i :
  P (poll false) = false -> P (Sleep w) = false -> free P (refusals poll w i).
Proof. intros H1 H2. induction i; simpl; repeat constructor; auto. Qed.

Lemma polling_free poll w i :
  P (poll false) = false -> P (poll true) = false -> P (Sleep w) = false ->
  free P (polling poll w i).
Proof.
  intros H1 H2 H3. apply free_app; [now apply refusals_free | repeat constructor; auto].
Qed.

Lemma measurements_free it :
  (forall x y, P (Measure x y) = false) -> free P (measurements it).
Proof.
  intros H. unfold measurements. generalize (map inputs (candidates it)), (measured it).
  induction l as [|x l IH]; intros [|y ys]; simpl; constructor; auto. apply IH.
Qed.

End Marks.

Section Reading.
Variables (num_candidates_per_iter design_effort wait_time fuel : nat).

Let log_of := iteration_log num_candidates_per_iter design_effort wait_time.
Let submit := SubmitDesign num_candidates_per_iter design_effort.

Lemma log_of_submit it : log_of it = submit :: after_submit wait_time it.
Proof. reflexivity. Qed.

Lemma log_of_retrain it :
  log_of it = before_retrain num_candidates_per_iter design_effort wait_time it ++ Retrain :: polling PollView wait_time (view_refusals it).
Proof.
  unfold log_of, iteration_log, before_retrain. cbn [app]. f_equal.
  rewrite <- app_assoc. cbn [app]. do 2 f_equal. now rewrite <- app_assoc.
Qed.

Lemma after_submit_free it : free is_submit (after_submit wait_time it).
Proof.
  unfold after_submit. apply free_app; [now apply polling_free|].
  constructor; [reflexivity|]. apply free_app; [now apply measurements_free|].
  constructor; [reflexivity|]. constructor; [reflexivity|]. now apply polling_free.
Qed.

Lemma before_retrain_free it : free is_retrain (before_retrain num_candidates_per_iter design_effort wait_time it).
Proof.
  unfold before_retrain. constructor; [reflexivity|].
  apply free_app; [now apply polling_free|].
  constructor; [reflexivity|]. apply free_app; [now apply measurements_free|].
  now repeat constructor.
Qed.

(** After a design job comes its polling loop, and the candidates are taken
    directly after the answer ready; the only other way for the record to go
    on is to end in refusals, out of fuel. *)
Lemma run_log_submit its rest l1 a b l2 :
  ended num_candidates_per_iter design_effort wait_time fuel rest -> run_log num_candidates_per_iter design_effort wait_time its rest = l1 ++ SubmitDesign a b :: l2 ->
  (l2 = refusals PollDesign wait_time fuel /\ rest <> []) \/
  (exists i cs l3, l2 = polling PollDesign wait_time i ++ GetCandidates cs :: l3).
Proof.
  intros Hrest. unfold run_log; fold log_of. revert l1.
  induction its as [|it its IH]; intros l1; cbn [map concat app].
  - destruct Hrest as [->|Hun]; [now destruct l1|].
    intros H. destruct Hun as [|it Hit].
    + destruct (split_free is_submit [] _ _ l1 (SubmitDesign a b) l2 ltac:(constructor) eq_refl H)
        as [(_ & _ & ->)|(l1' & _ & H')].
      * left. split; [reflexivity | discriminate].
      * exfalso. revert H'. apply (free_no_mark is_submit); [|reflexivity].
        now apply refusals_free.
    + destruct (split_free is_submit [] _ _ l1 (SubmitDesign a b) l2 ltac:(constructor) eq_refl H)
        as [(_ & _ & ->)|(l1' & _ & H')].
      * right. eexists _, _, _. reflexivity.
      * exfalso. revert H'. apply (free_no_mark is_submit); [|reflexivity].
        apply free_app; [now apply polling_free|].
        constructor; [reflexivity|]. apply free_app; [now apply measurements_free|].
        constructor; [reflexivity|]. constructor; [reflexivity|]. now apply refusals_free.
  - rewrite log_of_submit. cbn [app]. rewrite <- app_assoc. intros H.
    destruct (split_free is_submit [] _ _ l1 (SubmitDesign a b) l2 ltac:(constructor) eq_refl H)
      as [(_ & _ & ->)|(l1' & _ & H')].
    + right. unfold after_submit. rewrite <- !app_assoc. cbn [app].
      eexists _, _, _. reflexivity.
    + destruct (free_prefix is_submit _ _ _ (SubmitDesign a b) _ (after_submit_free it) eq_refl H')
        as (l1'' & _ & H''). eapply IH. exact H''.
Qed.

Lemma run_log_head its rest :
  ended num_candidates_per_iter design_effort wait_time fuel rest -> run_log num_candidates_per_iter design_effort wait_time its rest = [] \/ exists l, run_log num_candidates_per_iter design_effort wait_time its rest = submit :: l.
Proof.
  intros Hrest. unfold run_log; fold log_of. destruct its as [|it its]; cbn [map concat app].
  - destruct Hrest as [->|[|it Hit]]; eauto.
  - right. rewrite log_of_submit. cbn [app]. eauto.
Qed.

(** After a retraining comes its polling loop, and the next iteration, if
    there is one, begins directly after the answer ready. *)
Lemma run_log_retrain its rest l1 l2 :
  ended num_candidates_per_iter design_effort wait_time fuel rest -> run_log num_candidates_per_iter design_effort wait_time its rest = l1 ++ Retrain :: l2 ->
  (l2 = refusals PollView wait_time fuel /\ rest <> []) \/
  (exists j l3, l2 = polling PollView wait_time j ++ l3 /\
     (l3 = [] \/ exists l4, l3 = submit :: l4)).
Proof.
  intros Hrest. revert l1. induction its as [|it its IH]; intros l1.
  - unfold run_log; fold log_of. cbn [map concat app].
    destruct Hrest as [->|Hun]; [now destruct l1|].
    intros H. destruct Hun as [|it Hit].
    + exfalso. revert H. apply (free_no_mark is_retrain); [|reflexivity].
      constructor; [reflexivity|]. now apply refusals_free.
    + change (SubmitDesign num_candidates_per_iter design_effort
              :: polling PollDesign wait_time (design_refusals it)
              ++ GetCandidates (candidates it) :: measurements it
              ++ [AddToDataset (zip (candidates it) (measured it)); Retrain]
              ++ refusals PollView wait_time fuel)
        with (submit :: polling PollDesign wait_time (design_refusals it)
              ++ GetCandidates (candidates it) :: measurements it
              ++ [AddToDataset (zip (candidates it) (measured it))] ++ Retrain
              :: refusals PollView wait_time fuel) in H.
      assert (H0 : before_retrain num_candidates_per_iter design_effort wait_time it ++ Retrain :: refusals PollView wait_time fuel
                   = l1 ++ Retrain :: l2).
      { rewrite <- H. unfold before_retrain. cbn [app]. f_equal.
        rewrite <- app_assoc. cbn [app]. do 2 f_equal. now rewrite <- app_assoc. }
      destruct (split_free is_retrain _ _ _ l1 Retrain l2 (before_retrain_free it) eq_refl H0)
        as [(_ & _ & ->)|(l1' & _ & H')].
      * left. split; [reflexivity | discriminate].
      * exfalso. revert H'. apply (free_no_mark is_retrain); [|reflexivity].
        now apply refusals_free.
  - unfold run_log; fold log_of. cbn [map concat]. rewrite log_of_retrain, <- !app_assoc. cbn [app].
    fold (run_log num_candidates_per_iter design_effort wait_time its rest). intros H.
    destruct (split_free is_retrain _ _ _ l1 Retrain l2 (before_retrain_free it) eq_refl H)
      as [(_ & _ & ->)|(l1' & _ & H')].
    + right. exists (view_refusals it), (run_log num_candidates_per_iter design_effort wait_time its rest). split; [reflexivity|].
      now apply run_log_head.
    + destruct (free_prefix is_retrain _ _ _ Retrain _
                  (polling_free is_retrain PollView wait_time (view_refusals it)
                     eq_refl eq_refl eq_refl) eq_refl H')
        as (l1'' & _ & H''). eapply IH. exact H''.
Qed.

Lemma log_of_submits it : filter (fun e => is_submit e = true) (log_of it) = [submit].
Proof.
  rewrite log_of_submit, filter_cons, decide_True by reflexivity. f_equal.
  pose proof (after_submit_free it) as H. induction H as [|e l He _ IH]; [reflexivity|].
  rewrite filter_cons, decide_False by congruence. exact IH.
Qed.

(** A finished run has submitted one design job per iteration. *)
Lemma run_log_submits its :
  length (filter (fun e => is_submit e = true) (run_log num_candidates_per_iter design_effort wait_time its [])) = length its.
Proof.
  unfold run_log; fold log_of. rewrite app_nil_r. induction its as [|it its IH]; [reflexivity|].
  cbn [map concat]. rewrite filter_app, log_of_submits. simpl. now rewrite IH.
Qed.

End Reading.

(** *** The claims on the driver *)

Section Claims.
Context {St : Type} (client : Service St) (true_function : Laboratory St).
Variables (num_candidates_per_iter design_effort wait_time : nat).
Variable best : list float -> float.

Let run := run_sequential_learning client true_function
  num_candidates_per_iter design_effort wait_time.
Let recorded_run := run_sequential_learning (recording client)
  (recording_function true_function) num_candidates_per_iter design_effort wait_time.
Let log_of := iteration_log num_candidates_per_iter design_effort wait_time.

(** A run and its recorded twin. *)
Lemma run_erase fuel n s r s' log :
  recorded_run fuel best n (s, []) = (r, (s', log)) -> run fuel best n s = (r, s').
Proof.
  unfold recorded_run, run, run_sequential_learning. intros H.
  destruct (sl_loop_erase client true_function num_candidates_per_iter design_effort
              wait_time fuel best n [] [] s []) as [log' H'].
  rewrite H in H'. injection H' as -> -> _. apply surjective_pairing.
Qed.

(** C1, amended: when every design job and every retraining turns ready at
    some status request, a call with [num_sl_iterations = n] ends for every
    fuel from some bound on, always in the same way: the loop has run [n]
    iterations, [n] design jobs have been submitted, and the two lists
    returned hold, in order, the best predicted and the best measured value
    of each iteration. *)
Theorem run_sequential_learning_terminates num_sl_iterations s :
  (forall s', exists k, ready_within client (design_status client) wait_time k s' = true) ->
  (forall s', exists k, ready_within client (view_status client) wait_time k s' = true) ->
  exists fuel0 its s',
    length its = num_sl_iterations /\
    Forall well_measured its /\
    length (filter (fun e => is_submit e = true) (concat (map log_of its)))
      = num_sl_iterations /\
    forall fuel, fuel0 <= fuel ->
      run fuel best num_sl_iterations s
        = (Some (map (fun it => best (map predicted (candidates it))) its,
                 map (fun it => best (measured it)) its), s') /\
      recorded_run fuel best num_sl_iterations (s, [])
        = (Some (map (fun it => best (map predicted (candidates it))) its,
                 map (fun it => best (measured it)) its),
           (s', concat (map log_of its))).
Proof.
  intros Hd Hv.
  destruct (sl_loop_total client true_function num_candidates_per_iter design_effort
              wait_time best Hd Hv num_sl_iterations s)
    as (fuel0 & its & s' & Hlen & Hall & Hrun).
  exists fuel0, its, s'. split; [exact Hlen|]. split; [exact Hall|]. split.
  - rewrite <- Hlen.
    pose proof (run_log_submits num_candidates_per_iter design_effort wait_time its) as H.
    unfold run_log in H. now rewrite app_nil_r in H.
  - intros fuel Hfuel.
    assert (H : recorded_run fuel best num_sl_iterations (s, [])
                = (Some (map (fun it => best (map predicted (candidates it))) its,
                         map (fun it => best (measured it)) its),
                   (s', concat (map log_of its)))).
    { unfold recorded_run, run_sequential_learning. now rewrite (Hrun fuel [] [] [] Hfuel). }
    split; [exact (run_erase _ _ _ _ _ _ H) | exact H].
Qed.

(** C2: every run is a sequence of iterations that each perform, in this
    order, (1) the submission of a design job, (2) the polling of its status
    until the answer ready, (3) the request for the candidates, whose best
    prediction is recorded, (4) the measurement of each candidate with
    [true_function], whose best value is recorded, (5) the appending of the
    candidates with their measurements to the dataset, (6) the retraining
    and the polling of the view until the answer ready; only then the next
    iteration begins.  The record is what the world has done.  A run that
    returns has finished all its iterations; one that is out of fuel has
    stopped in a polling loop of an iteration it began. *)
Theorem run_sequential_learning_order fuel num_sl_iterations s :
  exists r s' its rest,
    run fuel best num_sl_iterations s = (r, s') /\
    recorded_run fuel best num_sl_iterations (s, [])
      = (r, (s', concat (map log_of its) ++ rest)) /\
    trace client true_function s (concat (map log_of its) ++ rest) s' /\
    Forall well_measured its /\
    match r with
    | Some (best_sl_pred_vals, best_sl_measured_vals) =>
        rest = [] /\ length its = num_sl_iterations /\
        best_sl_pred_vals = map (fun it => best (map predicted (candidates it))) its /\
        best_sl_measured_vals = map (fun it => best (measured it)) its
    | None =>
        length its < num_sl_iterations /\
        unfinished num_candidates_per_iter design_effort wait_time fuel rest
    end.
Proof.
  destruct (sl_loop_log client true_function num_candidates_per_iter design_effort
              wait_time fuel best num_sl_iterations [] [] s [])
    as (r & s' & its & rest & Hrun & Ht & Hall & Hr).
  exists r, s', its, rest.
  assert (H : recorded_run fuel best num_sl_iterations (s, [])
              = (r, (s', concat (map log_of its) ++ rest))) by exact Hrun.
  split; [exact (run_erase _ _ _ _ _ _ H)|]. split; [exact H|]. split; [exact Ht|]. split.
  - eapply Forall_impl; [exact Hall|]. now intros it [Hit _].
  - destruct r as [[preds meas]|]; [|exact Hr].
    destruct Hr as (-> & Hlen & [= -> ->]). auto.
Qed.


(** A run of at least one iteration, with fuel for one request, asks for
    the status of a design job. *)
Lemma run_polls fuel num_sl_iterations s :
  0 < fuel -> 0 < num_sl_iterations ->
  exists ready,
    PollDesign ready ∈ (recorded_run fuel best num_sl_iterations (s, [])).2.2.
Proof.
  intros Hfuel Hn.
  destruct (sl_loop_log client true_function num_candidates_per_iter design_effort
              wait_time fuel best num_sl_iterations [] [] s [])
    as (r & s' & its & rest & Hrun & _ & _ & Hr).
  unfold recorded_run, run_sequential_learning. rewrite Hrun. cbn [snd app].
  assert (Hpoll : forall i l, PollDesign true ∈ polling PollDesign wait_time i ++ l).
  { intros i l. unfold polling. rewrite !elem_of_app. left. right. constructor. }
  destruct its as [|it its].
  - destruct r as [r|]; [destruct Hr as (_ & Hlen & _); simpl in Hlen; lia|].
    destruct Hr as [_ Hun]. cbn [map concat app]. destruct Hun as [|it Hit].
    + exists false. destruct fuel as [|fuel]; [lia|]. cbn [refusals].
      apply elem_of_cons. right. apply elem_of_cons. now left.
    + exists true. apply elem_of_cons. right. apply Hpoll.
  - exists true. cbn [map concat]. unfold iteration_log at 1.
    rewrite <- !app_assoc. cbn [app]. apply elem_of_cons. right.
    rewrite <- app_assoc. apply Hpoll.
Qed.

End Claims.

(** C1 at the call of the notebook against a platform that is ready at the
    second request. *)
Lemma run_sequential_learning_terminates_witness :
  exists fuel0 its s',
    length its = 5 /\
    Forall well_measured its /\
    length (filter (fun e => is_submit e = true)
              (concat (map (iteration_log 10 10 10) its))) = 5 /\
    forall fuel, fuel0 <= fuel ->
      run_sequential_learning lab_service toy_laboratory 10 10 10 fuel first_value 5 empty_lab
        = (Some (map (fun it => first_value (map predicted (candidates it))) its,
                 map (fun it => first_value (measured it)) its), s') /\
      demo_run fuel
        = (Some (map (fun it => first_value (map predicted (candidates it))) its,
                 map (fun it => first_value (measured it)) its),
           (s', concat (map (iteration_log 10 10 10) its))).
Proof.
  apply (run_sequential_learning_terminates lab_service toy_laboratory 10 10 10 first_value
           5 empty_lab).
  - intros [[] d]; exists 2; reflexivity.
  - intros [[] d]; exists 2; reflexivity.
Defined.

(** A design job that never turns ready keeps the loop polling: whatever
    the fuel, the polling loop uses it up. *)
Lemma stuck_wait w fuel s log :
  exists s' log',
    wait_until_ready (recording stuck_service)
      (record_call (design_status stuck_service) PollDesign) w fuel (s, log)
    = (None, (s', log')).
Proof.
  revert s log. induction fuel as [|fuel IH]; intros s log; [now exists s, log|].
  cbn [wait_until_ready].
  rewrite (bind_Some _ _ _ _ _ (call_record _ PollDesign s log)). cbn [fst snd design_status stuck_service].
  change (sleep (recording stuck_service) w)
    with (record_do (sleep stuck_service w) (Sleep w)).
  rewrite (bind_Some _ _ _ _ _ (exec_record _ _ _ _)). apply IH.
Qed.

(** C1 as stated fails: against a platform whose design job never turns
    ready, no amount of fuel lets the call return. *)
Lemma run_sequential_learning_stuck : ~ exists fuel r, (stuck_run fuel).1 = Some r.
Proof.
  intros (fuel & r & H). revert H.
  unfold stuck_run, run_sequential_learning. cbn [sl_loop].
  assert (Hit : exists st,
            sl_iteration (recording stuck_service) (recording_function toy_laboratory)
              10 10 10 fuel first_value (empty_lab, []) = (None, st)).
  { unfold sl_iteration.
    change (submit_design_run (recording stuck_service) 10 10)
      with (record_do (submit_design_run stuck_service 10 10) (SubmitDesign 10 10)).
    change (design_status (recording stuck_service))
      with (record_call (design_status stuck_service) PollDesign).
    rewrite (bind_Some _ _ _ _ _ (exec_record _ _ _ _)).
    match goal with |- context [(_ ≫= _) (?s, ?l)] =>
      destruct (stuck_wait 10 fuel s l) as (s' & log' & Hw) end.
    rewrite (bind_None _ _ _ _ Hw). eauto. }
  destruct Hit as [st Hit]. rewrite (bind_None _ _ _ _ Hit). discriminate.
Qed.

(** The record of the notebook's call against the platform that is ready at
    the second request: five times the six steps, each polling loop with one
    refusal. *)
Lemma demo_run_record :
  (demo_run 2).2.2 =
  concat (replicate 5 (iteration_log 10 10 10
    {| design_refusals := 1; candidates := lab_candidates;
       measured := map (fun c => to_float (toy_func (Float64 (inputs c)))) lab_candidates;
       view_refusals := 1 |})).
Proof. vm_compute. reflexivity. Qed.


(** ** The notebooks *)

(** C5 as stated fails: the shape-memory-alloy demo is one of the five
    notebooks; it imports pandas and neither constructs a request, nor calls
    the platform, nor polls, nor plots. *)
Lemma sma_demo_activities :
  sma_demo ∈ notebooks /\ activities sma_demo = [true; false; false; false; false].
Proof. split; [|reflexivity]. unfold notebooks. set_solver. Qed.

(** C5, amended: every notebook is a linear script that imports a module
    from outside the standard library.  Of the other activities, in the
    code of the notebooks themselves: request objects are constructed in the
    experimental-design notebook only; endpoints of the client are called in
    the experimental-design and VASP-import notebooks only; no notebook
    polls; charts are drawn in the sequential-learning and PIF notebooks
    only.  The sequential-learning notebook hands its client to three
    wrappers, the last of which is [run_sequential_learning], and that
    function, as modelled from the spec, asks for the status of a design
    job as soon as it has fuel for one request. *)
Theorem notebooks_activities :
  Forall (fun nb => linear nb = true) notebooks /\
  Forall (fun nb => existsb imports_library (all_statements nb) = true) notebooks /\
  map activities notebooks =
    [ [true; true; true; false; false];
      [true; false; false; false; true];
      [true; false; true; false; false];
      [true; false; false; false; true];
      [true; false; false; false; false] ] /\
  map handed notebooks =
    [ []; ["upload_data_and_get_id"; "build_view_and_get_id"; "run_sequential_learning"];
      []; []; [] ] /\
  (forall (St : Type) (client : Service St) (true_function : Laboratory St) best fuel s,
     0 < fuel ->
     exists ready,
       PollDesign ready ∈
         (run_sequential_learning (recording client) (recording_function true_function)
            10 10 10 fuel best 5 (s, [])).2.2).
Proof.
  split; [repeat constructor|]. split; [repeat constructor|].
  split; [reflexivity|]. split; [reflexivity|].
  intros St client true_function best fuel s Hfuel.
  apply run_polls; [exact Hfuel | lia].
Qed.


(** * Further properties of the notebooks' code *)

Import DatasetNames.


(** ** More on the CSV template and the split of the hits *)

Section WriteCsvMore.

Lemma format_row_fields (r : row) formula ZT :
  r !! "formula" = Some formula -> r !! "ZT" = Some ZT ->
  format_row r = Ok (row_line r +:+ Str.nl).
Proof.
  intros Hf Hz. unfold format_row, getitem, row_line. rewrite Hf, Hz. simpl.
  now rewrite !string_app_assoc.
Qed.

(** The first field that [format_row] misses, formula before ZT. *)
Lemma format_row_missing (r : row) :
  ~ string_fields r ->
  exists k, format_row r = Raise (KeyError (Name k)) /\
            r !! k = None /\
            (k = "formula" \/ (k = "ZT" /\ is_Some (r !! "formula"))).
Proof.
  intros Hno. unfold format_row, getitem.
  destruct (r !! "formula") as [f|] eqn:Hf; simpl.
  - destruct (r !! "ZT") as [z|] eqn:Hz; simpl.
    + exfalso. apply Hno. split; eauto.
    + exists "ZT". eauto.
  - exists "formula". eauto.
Qed.

Lemma write_rows_app good rest f :
  Forall string_fields good ->
  write_rows (good ++ rest) f =
  write_rows rest (f +:+ fold_right (fun r text => row_line r +:+ Str.nl +:+ text) "" good).
Proof.
  intros Hgood. revert f. induction Hgood as [|r good [[fo Hf] [z Hz]] _ IH]; intros f.
  - simpl. now rewrite string_app_nil_r.
  - cbn [app write_rows fold_right]. rewrite (format_row_fields r fo z Hf Hz), IH.
    now rewrite !string_app_assoc.
Qed.

(** X1: a first row without one of the two fields stops [write_csv] with a
    [KeyError] of the missing field (formula when both are missing); the
    file then holds the header and the lines of the rows before it, and the
    rows after it are not written. *)
Theorem write_csv_missing_field name good bad rest fs :
  Forall string_fields good -> ~ string_fields bad ->
  exists k,
    write_csv name (good ++ bad :: rest) fs =
      (<[name := header +:+ Str.nl +:+
                 fold_right (fun r text => row_line r +:+ Str.nl +:+ text) "" good]> fs,
       Raise (KeyError (Name k))) /\
    bad !! k = None /\
    (k = "formula" \/ (k = "ZT" /\ is_Some (bad !! "formula"))).
Proof.
  intros Hgood Hbad. destruct (format_row_missing bad Hbad) as (k & Hk & Hnone & Hwhich).
  exists k. split; [|auto]. unfold write_csv.
  rewrite write_rows_app by exact Hgood. cbn [write_rows]. rewrite Hk.
  now rewrite string_app_assoc.
Qed.

Lemma write_csv_missing_field_witness :
  exists k,
    write_csv "unknown.csv" (sample_rows ++ unmeasured_row :: sample_rows) ∅ =
      (<["unknown.csv" := header +:+ Str.nl +:+
           fold_right (fun r text => row_line r +:+ Str.nl +:+ text) "" sample_rows]> ∅,
       Raise (KeyError (Name k))) /\
    unmeasured_row !! k = None /\
    (k = "formula" \/ (k = "ZT" /\ is_Some (unmeasured_row !! "formula"))).
Proof.
  apply (write_csv_missing_field "unknown.csv" sample_rows unmeasured_row sample_rows ∅).
  - repeat constructor; eexists; reflexivity.
  - intros [_ [z Hz]]. discriminate Hz.
Defined.

(** The loop that deletes ZT, on rows that all have it. *)
Lemma del_ZT_all (rows : list row) :
  Forall (fun x : row => is_Some (x !! "ZT")) rows ->
  del_ZT rows = (delete "ZT" <$> rows, Ok ()).
Proof.
  induction 1 as [|x rows [z Hz] _ IH]; [reflexivity|].
  cbn [del_ZT]. now rewrite Hz, IH.
Qed.

(** X3: when every hit has a ZT, the cell keeps the first twenty hits as
    they are and gives every later hit without its ZT and with its other
    fields untouched; no hit is lost or duplicated. *)
Theorem split_subsets_spec (full_data : list row) :
  Forall (fun x : row => is_Some (x !! "ZT")) full_data ->
  exists known_subset unknown_subset,
    split_subsets full_data = ((known_subset, unknown_subset), Ok ()) /\
    known_subset = take 20 full_data /\
    length known_subset + length unknown_subset = length full_data /\
    forall i x, unknown_subset !! i = Some x ->
      x !! "ZT" = None /\
      exists x0, full_data !! (20 + i) = Some x0 /\
                 forall k, k <> "ZT" -> x !! k = x0 !! k.
Proof.
  intros Hall. unfold split_subsets.
  rewrite del_ZT_all by (now apply Forall_drop).
  eexists _, _. split; [reflexivity|]. split; [reflexivity|]. split.
  - rewrite length_fmap, length_take, length_drop. lia.
  - intros i x Hx. rewrite list_lookup_fmap in Hx.
    destruct (drop 20 full_data !! i) as [x0|] eqn:Hx0; [|discriminate].
    injection Hx as <-. split; [apply lookup_delete_eq|].
    exists x0. rewrite lookup_drop in Hx0. split; [exact Hx0|].
    intros k Hk. now apply lookup_delete_ne.
Qed.

Lemma split_subsets_spec_witness :
  exists known_subset unknown_subset,
    split_subsets sample_hits = ((known_subset, unknown_subset), Ok ()) /\
    known_subset = take 20 sample_hits /\
    length known_subset + length unknown_subset = length sample_hits /\
    forall i x, unknown_subset !! i = Some x ->
      x !! "ZT" = None /\
      exists x0, sample_hits !! (20 + i) = Some x0 /\
                 forall k, k <> "ZT" -> x !! k = x0 !! k.
Proof.
  apply (split_subsets_spec sample_hits).
  unfold sample_hits. apply Forall_app. split.
  - apply Forall_replicate. eexists. reflexivity.
  - repeat constructor; eexists; reflexivity.
Defined.

(** X4: a hit after the twentieth without a ZT stops the cell with a
    [KeyError]; the later hits before it have already lost their ZT, and it
    and the hits after it are left as they were. *)
Theorem split_subsets_missing_ZT (known done : list row) (x : row) (rest : list row) :
  length known = 20 -> Forall (fun x : row => is_Some (x !! "ZT")) done -> x !! "ZT" = None ->
  split_subsets (known ++ done ++ x :: rest) =
    ((known, (delete "ZT" <$> done) ++ x :: rest), Raise (KeyError (Name "ZT"))).
Proof.
  intros Hlen Hdone Hx. unfold split_subsets.
  rewrite take_app_length' by (now symmetry). rewrite drop_app_length' by (now symmetry).
  assert (H : del_ZT (done ++ x :: rest)
              = ((delete "ZT" <$> done) ++ x :: rest, Raise (KeyError (Name "ZT")))).
  { clear Hlen. induction Hdone as [|y done [z Hz] _ IH].
    - cbn [app del_ZT fmap list_fmap]. now rewrite Hx.
    - cbn [app del_ZT]. rewrite Hz, IH. reflexivity. }
  now rewrite H.
Qed.

Lemma split_subsets_missing_ZT_witness :
  split_subsets (take 20 sample_hits ++ drop 20 sample_hits ++ unmeasured_row :: sample_rows) =
    ((take 20 sample_hits, (delete "ZT" <$> drop 20 sample_hits) ++ unmeasured_row :: sample_rows),
     Raise (KeyError (Name "ZT"))).
Proof.
  apply (split_subsets_missing_ZT (take 20 sample_hits) (drop 20 sample_hits)
           unmeasured_row sample_rows).
  - reflexivity.
  - repeat constructor; eexists; reflexivity.
  - reflexivity.
Defined.

(** X5: the unknown subset cannot be written with [write_csv]: when the
    hits are more than twenty and each has a formula and a ZT, the call on
    [unknown_subset] raises the [KeyError] of ZT at its first row and leaves
    a file with the header alone. *)
Theorem write_csv_unknown_subset name (full_data : list row) fs :
  Forall string_fields full_data -> 20 < length full_data ->
  exists known_subset unknown_subset,
    split_subsets full_data = ((known_subset, unknown_subset), Ok ()) /\
    write_csv name unknown_subset fs =
      (<[name := header +:+ Str.nl]> fs, Raise (KeyError (Name "ZT"))).
Proof.
  intros Hall Hlen. unfold split_subsets.
  rewrite del_ZT_all
    by (apply Forall_drop; eapply Forall_impl; [exact Hall | intros x [_ H]; exact H]).
  eexists _, _. split; [reflexivity|].
  destruct (drop 20 full_data) as [|x rest] eqn:Hd.
  { apply (f_equal length) in Hd. rewrite length_drop in Hd. simpl in Hd. lia. }
  assert (Hx : string_fields x).
  { rewrite Forall_forall in Hall. apply Hall.
    apply (subseteq_drop 20 full_data). rewrite Hd. left. }
  destruct Hx as [[fo Hf] _].
  unfold write_csv. cbn [fmap list_fmap write_rows]. unfold format_row, getitem.
  rewrite (lookup_delete_ne x "ZT" "formula") by done. rewrite Hf. simpl.
  rewrite lookup_delete_eq. reflexivity.
Qed.

Lemma write_csv_unknown_subset_witness :
  exists known_subset unknown_subset,
    split_subsets sample_hits = ((known_subset, unknown_subset), Ok ()) /\
    write_csv "unknown.csv" unknown_subset ∅ =
      (<["unknown.csv" := header +:+ Str.nl]> ∅, Raise (KeyError (Name "ZT"))).
Proof.
  apply (write_csv_unknown_subset "unknown.csv" sample_hits ∅).
  - unfold sample_hits. apply Forall_app. split.
    + apply Forall_replicate. split; eexists; reflexivity.
    + repeat constructor; eexists; reflexivity.
  - simpl. lia.
Defined.

End WriteCsvMore.


(** ** More on the formulas of the phase diagram *)

(** The result of [get_stoich] on a string that begins with a match. *)
Lemma get_stoich_match d1 d2 rest :
  Str.all Str.is_digit d1 = true -> Str.all Str.is_digit d2 = true ->
  starts_with_digit rest = false ->
  get_stoich ("Al" +:+ d1 +:+ "Cu" +:+ d2 +:+ rest) = (stoich_count d1, stoich_count d2).
Proof.
  intros H1 H2 Hrest. unfold get_stoich. rewrite re_match_AlCu.
  rewrite strip_prefix_app. cbv zeta.
  rewrite (run_length_app Str.is_digit d1 ("Cu" +:+ d2 +:+ rest)) by (auto; reflexivity).
  rewrite drop_app_length, take_app_length, strip_prefix_app.
  rewrite (run_length_app Str.is_digit d2 rest) by auto.
  rewrite take_app_length. unfold Re.group. cbn [nth Nat.sub].
  now rewrite !stoich_count_eq.
Qed.

(** X6: text after the match is ignored: a formula that goes on after the
    digits of Cu (other elements, blanks, anything but a digit) gives the
    same counts as the formula cut there. *)
Theorem get_stoich_ignores_rest d1 d2 rest :
  Str.all Str.is_digit d1 = true -> Str.all Str.is_digit d2 = true ->
  starts_with_digit rest = false ->
  get_stoich ("Al" +:+ d1 +:+ "Cu" +:+ d2 +:+ rest) = get_stoich ("Al" +:+ d1 +:+ "Cu" +:+ d2)
  /\ get_stoich ("Al" +:+ d1 +:+ "Cu" +:+ d2) = (stoich_count d1, stoich_count d2).
Proof.
  intros H1 H2 Hrest.
  assert (H : get_stoich ("Al" +:+ d1 +:+ "Cu" +:+ d2) = (stoich_count d1, stoich_count d2)).
  { rewrite <- (string_app_nil_r d2) at 1. now apply get_stoich_match. }
  split; [|exact H]. rewrite H. now apply get_stoich_match.
Qed.

Lemma get_stoich_ignores_rest_witness :
  get_stoich ("Al" +:+ "2" +:+ "Cu" +:+ "3" +:+ "O4") = get_stoich ("Al" +:+ "2" +:+ "Cu" +:+ "3")
  /\ get_stoich ("Al" +:+ "2" +:+ "Cu" +:+ "3") = (stoich_count "2", stoich_count "3").
Proof. apply (get_stoich_ignores_rest "2" "3" "O4"); reflexivity. Defined.

(** X7: a formula that does not begin with Al, digits, Cu (pure aluminium,
    copper written first, lower case, a leading blank) gives (0, 0), and the
    loop skips its PIF without a point. *)
Theorem phase_point_skips_no_match energy_Al energy_Cu (p : pif) :
  (forall d1 rest, Str.all Str.is_digit d1 = true ->
     chemical_formula p <> "Al" +:+ d1 +:+ "Cu" +:+ rest) ->
  get_stoich (chemical_formula p) = (Int 0, Int 0) /\
  phase_point energy_Al energy_Cu p = Ok None.
Proof.
  intros Hno.
  assert (H : get_stoich (chemical_formula p) = (Int 0, Int 0)).
  { destruct (get_stoich_matches (chemical_formula p)) as [d1 d2 rest H1 H2 Hr | s Hs];
      [|reflexivity].
    exfalso. now apply (Hno d1 (d2 +:+ rest)). }
  split; [exact H|]. unfold phase_point. now rewrite H.
Qed.

Lemma phase_point_skips_no_match_witness :
  get_stoich (chemical_formula Al4_pif) = (Int 0, Int 0) /\
  phase_point (float_of_Z 3) (float_of_Z 4) Al4_pif = Ok None.
Proof.
  apply (phase_point_skips_no_match (float_of_Z 3) (float_of_Z 4) Al4_pif).
  intros d1 rest Hd H. simpl in H.
  rewrite !string_app_cons, !string_app_nil in H. injection H as H.
  destruct d1 as [|c d1].
  - rewrite string_app_nil in H. discriminate H.
  - rewrite string_app_cons in H. injection H as <- H.
    destruct d1; [rewrite string_app_nil in H | rewrite string_app_cons in H]; discriminate H.
Defined.

(** The body of the loop: a skip, or a point. *)
Lemma phase_point_cases energy_Al energy_Cu (p : pif) :
  if skipped p then phase_point energy_Al energy_Cu p = Ok None
  else exists pt, phase_point energy_Al energy_Cu p = Ok (Some pt).
Proof.
  unfold skipped, phase_point, enthalpy_of_formation.
  destruct (get_stoich_nonneg (chemical_formula p)) as [Ha Hb].
  destruct (add_nonneg _ _ Ha Hb) as [_ H1], (add_nonneg _ _ Hb Ha) as [_ H2].
  destruct (get_stoich (chemical_formula p)) as [n_Al n_Cu]. cbn [fst snd] in *.
  rewrite (andb_comm (eq0 n_Cu)) in H2.
  destruct (eq0 n_Al && eq0 n_Cu); [reflexivity|].
  rewrite !truediv_ok by assumption.
  eexists. reflexivity.
Qed.

(** The loop on PIFs that have been read: the points it adds, in order. *)
Lemma phase_loop_points energy_Al energy_Cu AlCu_pifs start :
  exists points,
    phase_loop energy_Al energy_Cu AlCu_pifs start = Ok (start ++ points) /\
    Forall2 (fun p pt => phase_point energy_Al energy_Cu p = Ok (Some pt))
      (filter (fun p => skipped p = false) AlCu_pifs) points.
Proof.
  revert start. induction AlCu_pifs as [|p rest IH]; intros start.
  - exists []. rewrite app_nil_r. split; [reflexivity | constructor].
  - cbn [phase_loop]. rewrite filter_cons.
    pose proof (phase_point_cases energy_Al energy_Cu p) as Hp.
    destruct (decide (skipped p = false)) as [Hs|Hs].
    + rewrite Hs in Hp. destruct Hp as ([x h] & Hp). rewrite Hp. simpl.
      destruct (IH (start ++ [(x, h)])) as (points & -> & Hall).
      exists ((x, h) :: points). rewrite <- app_assoc. split; [reflexivity|].
      now constructor.
    + apply not_false_is_true in Hs. rewrite Hs in Hp. rewrite Hp. simpl. apply IH.
Qed.

Lemma phase_point_ok energy_Al energy_Cu p :
  exists r, phase_point energy_Al energy_Cu p = Ok r.
Proof.
  pose proof (phase_point_cases energy_Al energy_Cu p) as Hp.
  destruct (skipped p); [eauto|]. destruct Hp as [pt Hp]. eauto.
Qed.

(** X8: the loop of the phase diagram reads the total energy and the
    formula of each PIF in turn.  When every read succeeds, its points are
    the two end points followed by one point for each PIF that is not
    skipped, in the order of the PIFs.  When a read fails, the loop stops at
    the first PIF whose read fails, with the exception of that read. *)
Theorem phase_diagram_points energy_Al energy_Cu (AlCu_pifs : list view) :
  (forall pifs,
     Forall2 (fun rv p => read rv = Ok p) AlCu_pifs pifs ->
     exists points,
       read_phase_diagram energy_Al energy_Cu AlCu_pifs = Ok (end_points ++ points) /\
       Forall2 (fun p pt => phase_point energy_Al energy_Cu p = Ok (Some pt))
         (filter (fun p => skipped p = false) pifs) points) /\
  (forall good pifs bad rest e,
     AlCu_pifs = good ++ bad :: rest ->
     Forall2 (fun rv p => read rv = Ok p) good pifs ->
     read bad = Raise e ->
     read_phase_diagram energy_Al energy_Cu AlCu_pifs = Raise e).
Proof.
  unfold read_phase_diagram. generalize end_points as start. intros start. split.
  - intros pifs Hread.
    assert (H : read_loop energy_Al energy_Cu AlCu_pifs start
                = phase_loop energy_Al energy_Cu pifs start).
    { revert start. induction Hread as [|rv p views pifs Hrv _ IH]; intros start;
        [reflexivity|].
      cbn [read_loop phase_loop]. rewrite Hrv. cbn.
      destruct (phase_point energy_Al energy_Cu p) as [r|e]; [apply IH | reflexivity]. }
    rewrite H. apply phase_loop_points.
  - intros good pifs bad rest e -> Hgood Hbad. revert start.
    induction Hgood as [|rv p good pifs Hrv _ IH]; intros start; cbn [app read_loop].
    + now rewrite Hbad.
    + rewrite Hrv. cbn. destruct (phase_point_ok energy_Al energy_Cu p) as [r ->]. cbn.
      apply IH.
Qed.

(** X8 on pure aluminium, which is skipped, and an intermetallic; and on
    the same with a PIF without a total energy in between, after which the
    intermetallic is not read any more. *)
Lemma phase_diagram_points_witness :
  (exists points,
     read_phase_diagram (fneg (float_of_Z 4)) (fneg (float_of_Z 3))
       [view_of Al4_pif; view_of Al2Cu_pif] = Ok (end_points ++ points) /\
     Forall2 (fun p pt =>
                phase_point (fneg (float_of_Z 4)) (fneg (float_of_Z 3)) p = Ok (Some pt))
       (filter (fun p => skipped p = false) [Al4_pif; Al2Cu_pif]) points) /\
  read_phase_diagram (fneg (float_of_Z 4)) (fneg (float_of_Z 3))
    [view_of Al4_pif; no_energy_view; view_of Al2Cu_pif]
  = Raise (KeyError (Name "Total Energy")).
Proof.
  split.
  - apply (phase_diagram_points _ _ [view_of Al4_pif; view_of Al2Cu_pif]).
    repeat constructor.
  - apply (phase_diagram_points _ _ [view_of Al4_pif; no_energy_view; view_of Al2Cu_pif])
      with (good := [view_of Al4_pif]) (pifs := [Al4_pif]) (bad := no_energy_view)
           (rest := [view_of Al2Cu_pif]); [reflexivity | repeat constructor | reflexivity].
Defined.


(** ** More on the toy function *)

Lemma squares_sum_nan (a : list float) :
  is_nan (float64_sum (map (fun x => fmul x x) a)) = existsb is_nan a.
Proof.
  destruct (sums_nan _ _ (float64_sum_sums (map (fun x => fmul x x) a))) as [_ ->].
  - apply Forall_map, Forall_forall. intros x _. destruct (is_nan x) eqn:Hx.
    + right. now destruct x.
    + left. now apply fmul_self_nonneg.
  - induction a as [|x a IH]; simpl; [reflexivity|]. now rewrite IH, fmul_self_nan.
Qed.

(** X9: on an array of floats [toy_func] returns NaN exactly when one of
    its inputs is NaN. *)
Theorem toy_func_nan inputs :
  exists r, toy_func (Float64 inputs) = Float r /\ is_nan r = existsb is_nan inputs.
Proof. eexists. split; [reflexivity | apply squares_sum_nan]. Qed.

(** X10: [toy_func] is even on an array of floats: changing the sign of
    every input gives the same binary64 value, where a NaN counts as one
    value whatever its sign and payload. *)
Theorem toy_func_even inputs :
  toy_func (Float64 (map fneg inputs)) = toy_func (Float64 inputs) /\
  (existsb is_nan inputs = false ->
   exists r, toy_func (Float64 inputs) = Float r /\ is_nan r = false).
Proof.
  split.
  - unfold toy_func, np_square. do 2 f_equal. rewrite map_map.
    apply map_ext. intros x. apply fmul_neg_neg.
  - intros Hnan. eexists. split; [reflexivity|]. now rewrite squares_sum_nan.
Qed.

(** X11: an infinite input, of either sign, in an array of floats without
    NaN makes [toy_func] plus infinity. *)
Theorem toy_func_infinite inputs :
  existsb is_nan inputs = false -> existsb is_infinite inputs = true ->
  toy_func (Float64 inputs) = Float (S754_infinity false).
Proof.
  intros Hnan Hinf. unfold toy_func, np_square, np_sum. f_equal.
  apply (sums_infinite _ _ (float64_sum_sums _)).
  - apply squares_nonneg, Forall_forall. intros x Hx.
    destruct (is_nan x) eqn:E; [|reflexivity].
    assert (existsb is_nan inputs = true); [|congruence].
    apply existsb_exists. exists x. split; [now apply list_elem_of_In | exact E].
  - apply existsb_exists in Hinf as (x & Hx & Hi).
    apply existsb_exists. exists (fmul x x). split.
    + apply in_map_iff. eauto.
    + destruct x as [|[]| |]; try discriminate; reflexivity.
Qed.

Lemma toy_func_infinite_witness :
  toy_func (Float64 [three; S754_infinity true]) = Float (S754_infinity false).
Proof. apply (toy_func_infinite [three; S754_infinity true]); reflexivity. Defined.


(** ** More on the alloy table *)

Section SMAMore.
Variable str : float -> string.

(** The inner loop stops at the first element whose column is missing. *)
Lemma append_elements_missing data i pre el post text :
  (forall e, e ∈ pre -> exists c v, columns data !! e = Some c /\ c !! i = Some v) ->
  columns data !! el = None ->
  append_elements str data i (pre ++ el :: post) text = Raise (KeyError (Name el)).
Proof.
  intros Hpre Hel. revert text. induction pre as [|e pre IH]; intros text.
  - cbn [app append_elements]. unfold cell. now rewrite Hel.
  - cbn [app append_elements].
    destruct (Hpre e) as (c & v & Hc & Hv); [left|].
    unfold cell at 1 2. rewrite Hc, Hv. simpl.
    assert (IH' := IH (fun e' He' => Hpre e' (list_elem_of_further _ _ _ He'))).
    destruct (gt0 v); apply IH'.
Qed.

(** X12: on a table with at least one row that lacks one of the four
    element columns, the loop raises the [KeyError] of the first missing
    column in the order Ni, Cu, Fe, Pd; the columns before it are read
    first.  A table without rows gives no formula and no error, whatever
    its columns. *)
Theorem formulas_missing_column data pre el post :
  elements = pre ++ el :: post ->
  (forall e, e ∈ pre -> exists c v, columns data !! e = Some c /\ c !! 0 = Some v) ->
  columns data !! el = None ->
  (0 < shape0 data -> formulas str data = Raise (KeyError (Name el))) /\
  (shape0 data = 0 -> formulas str data = Ok []).
Proof.
  intros Hels Hpre Hel. unfold formulas. split.
  - intros Hrows. destruct (shape0 data) as [|n]; [lia|].
    cbn [formula_loop]. unfold row_formula. rewrite Hels.
    now rewrite (append_elements_missing data 0 pre el post "Ti0.5" Hpre Hel).
  - now intros ->.
Qed.

(** The renamed table has the old columns under their new names. *)
Lemma rename_columns_lookup (cols : gmap string (list num)) h :
  rename_columns cols !! ("PROPERTY: " +:+ h) = fmap (M := option) (fmap Num) (cols !! h).
Proof.
  unfold rename_columns.
  rewrite (lookup_kmap (String.append "PROPERTY: ")). apply lookup_fmap.
Qed.

Lemma rename_columns_size (cols : gmap string (list num)) :
  size (rename_columns cols) = size cols.
Proof.
  unfold rename_columns.
  replace (size cols) with (size (fmap (M := gmap string) (fmap (M := list) Num) cols))
    by apply map_size_fmap.
  generalize (fmap (M := gmap string) (fmap (M := list) Num) cols). intros m.
  induction m as [|h c m Hh _ IH] using map_first_key_ind.
  - now rewrite kmap_empty.
  - rewrite (kmap_insert (String.append "PROPERTY: ")).
    rewrite !map_size_insert_None; [now rewrite IH | exact Hh |].
    now rewrite (lookup_kmap (String.append "PROPERTY: ")).
Qed.

Lemma rename_columns_formula (cols : gmap string (list num)) :
  rename_columns cols !! "formula" = None.
Proof.
  unfold rename_columns. apply lookup_kmap_None; [apply _|].
  intros h Hh. exfalso. rewrite !string_app_cons in Hh. discriminate Hh.
Qed.

(** X13: the table written to the new CSV holds every column of the input
    under its name with the prefix PROPERTY, and the formulas in one more
    column: the added column overwrites nothing, also when the input has a
    column named formula itself. *)
Theorem preprocess_columns data fs :
  formulas str data = Ok fs ->
  exists table,
    preprocess str data = Ok table /\
    table !! "formula" = Some (Text <$> fs) /\
    (forall h, table !! ("PROPERTY: " +:+ h)
               = fmap (M := option) (fmap Num) (columns data !! h)) /\
    size table = S (size (columns data)).
Proof.
  intros Hfs. unfold preprocess. rewrite Hfs. simpl. eexists. split; [reflexivity|].
  split; [apply lookup_insert_eq|]. split.
  - intros h. rewrite lookup_insert_ne
      by (intros H; rewrite !string_app_cons in H; discriminate H).
    apply rename_columns_lookup.
  - rewrite map_size_insert_None by apply rename_columns_formula.
    now rewrite rename_columns_size.
Qed.

End SMAMore.

Lemma formulas_missing_column_witness :
  (0 < shape0 sample_without_Fe ->
   formulas sample_str sample_without_Fe = Raise (KeyError (Name "Fe"))) /\
  (shape0 sample_without_Fe = 0 -> formulas sample_str sample_without_Fe = Ok []).
Proof.
  apply (formulas_missing_column sample_str sample_without_Fe ["Ni"; "Cu"] "Fe" ["Pd"]).
  - reflexivity.
  - intros e He.
    repeat (apply elem_of_cons in He as [->|He]; [eexists _, _; split; reflexivity|]).
    now apply elem_of_nil in He.
  - reflexivity.
Defined.

Lemma preprocess_columns_witness :
  exists table,
    preprocess sample_str sample_with_formula = Ok table /\
    table !! "formula" = Some (Text <$> ["Ti0.5Ni0.25Cu0.25"; "Ti0.5"]) /\
    (forall h, table !! ("PROPERTY: " +:+ h)
               = fmap (M := option) (fmap Num) (columns sample_with_formula !! h)) /\
    size table = S (size (columns sample_with_formula)).
Proof.
  apply (preprocess_columns sample_str sample_with_formula ["Ti0.5Ni0.25Cu0.25"; "Ti0.5"]).
  reflexivity.
Defined.

(** ** The names of the dataset file and of the dataset *)

Lemma head_split_from sep cur s :
  default "" (head (Str.split_from sep cur s)) = cur +:+ Str.before sep s.
Proof.
  revert cur. induction s as [|c s IH]; intros cur; cbn [Str.split_from Str.before].
  - now rewrite string_app_nil_r.
  - destruct (Ascii.eqb c sep).
    + simpl. now rewrite string_app_nil_r.
    + rewrite IH. now rewrite string_app_assoc, string_app_cons, string_app_nil.
Qed.

Lemma before_app sep s t :
  Str.before sep (s +:+ t) =
  if Str.all (fun c => negb (Ascii.eqb c sep)) s then s +:+ Str.before sep t
  else Str.before sep s.
Proof.
  induction s as [|c s IH]; [reflexivity|].
  rewrite string_app_cons. cbn [Str.before Str.all].
  destruct (Ascii.eqb c sep); [reflexivity|]. simpl. rewrite IH.
  destruct (Str.all _ s); now rewrite ?string_app_cons.
Qed.

Lemma before_no_sep sep s :
  Str.all (fun c => negb (Ascii.eqb c sep)) s = true -> Str.before sep s = s.
Proof.
  induction s as [|c s IH]; [reflexivity|]. cbn [Str.all Str.before].
  intros H. apply andb_true_iff in H as [Hc Hs]. apply negb_true_iff in Hc.
  now rewrite Hc, IH.
Qed.

(** X14: the dataset name is the file name cut at its first dot: the prefix
    and the random string up to a dot in it.  For a random string without a
    dot (the hexadecimal digits of a UUID) it is the file name without its
    extension. *)
Theorem dataset_name_spec random_string :
  dataset_name random_string = "toy_initial_dataset_" +:+ Str.before "." random_string /\
  (Str.all (fun c => negb (Ascii.eqb c ".")) random_string = true ->
   output_file random_string = dataset_name random_string +:+ ".json").
Proof.
  assert (H : dataset_name random_string
              = "toy_initial_dataset_" +:+ Str.before "." random_string).
  { unfold dataset_name, Str.split, output_file. rewrite head_split_from, string_app_nil.
    rewrite (before_app "." "toy_initial_dataset_").
    replace (Str.all _ "toy_initial_dataset_") with true by reflexivity.
    f_equal. rewrite before_app.
    destruct (Str.all _ random_string) eqn:Hr; [|reflexivity].
    rewrite (before_no_sep _ _ Hr).
    replace (Str.before "." ".json") with "" by reflexivity.
    apply string_app_nil_r. }
  split; [exact H|]. intros Hno. rewrite H, (before_no_sep _ _ Hno).
  unfold output_file. now rewrite string_app_assoc.
Qed.


(** ** The guard of the phase diagram and the low level API *)

(** X15: the [continue] of the loop skips exactly the formulas on which
    [enthalpy_of_formation] would raise: on the counts of a formula the
    function raises [ZeroDivisionError] when both counts are zero and
    returns a float otherwise. *)
Theorem enthalpy_of_formation_guard energy energy_Al energy_Cu (p : pif) :
  let n_Al := (get_stoich (chemical_formula p)).1 in
  let n_Cu := (get_stoich (chemical_formula p)).2 in
  if skipped p
  then enthalpy_of_formation energy n_Al n_Cu energy_Al energy_Cu = Raise ZeroDivisionError
  else exists h, enthalpy_of_formation energy n_Al n_Cu energy_Al energy_Cu = Ok (Float h).
Proof.
  cbv zeta. unfold skipped, enthalpy_of_formation, truediv.
  destruct (get_stoich_nonneg (chemical_formula p)) as [Ha Hb].
  destruct (add_nonneg _ _ Ha Hb) as [_ ->].
  destruct (eq0 _ && eq0 _); [reflexivity | eauto].
Qed.

(** X16: the low level lookup takes the first property named Total Energy,
    whatever comes after it: its first scalar is the result, and when it has
    no scalar the lookup fails with [IndexError] even if a later property of
    that name has one; without such a property it fails with
    [StopIteration]. *)
Theorem total_energy_value_first (before : list PifProperties.property) x after :
  Forall (fun y => PifProperties.name y <> "Total Energy") before ->
  PifProperties.name x = "Total Energy" ->
  PifProperties.total_energy_value (before ++ x :: after) =
    match PifProperties.scalars x with
    | [] => inl PifProperties.IndexError
    | s :: _ => inr (PifProperties.value s)
    end /\
  PifProperties.total_energy_value before = inl PifProperties.StopIteration.
Proof.
  intros Hbefore Hx. unfold PifProperties.total_energy_value.
  assert (H1 : PifProperties.next_named "Total Energy" (before ++ x :: after) = inr x).
  { induction Hbefore as [|y before Hy _ IH]; cbn [app PifProperties.next_named].
    - rewrite Hx. reflexivity.
    - apply String.eqb_neq in Hy. now rewrite Hy. }
  assert (H2 : PifProperties.next_named "Total Energy" before = inl PifProperties.StopIteration).
  { clear H1. induction Hbefore as [|y before Hy _ IH]; cbn [PifProperties.next_named]; [reflexivity|].
    apply String.eqb_neq in Hy. now rewrite Hy. }
  now rewrite H1, H2.
Qed.

Lemma total_energy_value_first_witness :
  PifProperties.total_energy_value PifProperties.shadowed_energy
    = inl PifProperties.IndexError /\
  PifProperties.total_energy_value (take 1 PifProperties.shadowed_energy)
    = inl PifProperties.StopIteration.
Proof.
  apply (total_energy_value_first (take 1 PifProperties.shadowed_energy)
           {| PifProperties.name := "Total Energy"; PifProperties.scalars := [];
              PifProperties.units := Some "eV" |}
           (drop 2 PifProperties.shadowed_energy)).
  - repeat constructor. discriminate.
  - reflexivity.
Defined.
